(** * Antenna placement engine: greedy constructor, local search, annealing

    A shallow embedding of [advanced_solution.py] and
    [suburbia_simulated_annealing.py].  Python integers are [Z]; a [dict]
    keyed by building id is a [gmap Z _]; a [set] of ids is a [gset Z];
    a raised exception ([KeyError], [IndexError], [ZeroDivisionError],
    [OverflowError], [TypeError]) is [None] in the option monad. *)

From stdpp Require Import gmap list sorting.
From Stdlib Require Import ZArith Lia.

Local Open Scope Z_scope.

(** ** The antenna-type table [ANTENNA_TYPES] *)

Inductive AntennaType := Nano | Spot | Density | MaxRange.

#[global] Instance AntennaType_eq_dec : EqDecision AntennaType.
Proof. solve_decision. Defined.

Definition range_of (t : AntennaType) : Z :=
  match t with Nano => 50 | Spot => 100 | Density => 150 | MaxRange => 400 end.

Definition capacity (t : AntennaType) : Z :=
  match t with Nano => 200 | Spot => 800 | Density => 5000 | MaxRange => 3500 end.

Definition cost_on (t : AntennaType) : Z :=
  match t with Nano => 5000 | Spot => 15000 | Density => 30000 | MaxRange => 40000 end.

(** ** Buildings and antennas *)

Record Building := mkBuilding {
  b_id : Z;
  b_x : Z;
  b_y : Z;
  populationPeakHours : Z;
  populationOffPeakHours : Z;
  populationNight : Z
}.

Record Antenna := mkAntenna {
  a_type : AntennaType;
  a_x : Z;
  a_y : Z;
  a_buildings : list Z
}.

Definition get_max_pop (b : Building) : Z :=
  Z.max (Z.max (populationPeakHours b) (populationOffPeakHours b)) (populationNight b).

Definition dist_sq (x1 y1 x2 y2 : Z) : Z :=
  (x1 - x2) ^ 2 + (y1 - y2) ^ 2.

(** [{b['id']: b for b in buildings}]: a later building with the same id
    replaces an earlier one. *)
Definition mk_bmap (buildings : list Building) : gmap Z Building :=
  foldl (λ m b, <[b_id b := b]> m) ∅ buildings.

(** [a // b]; raises on a zero divisor. *)
Definition floordiv (a b : Z) : option Z :=
  if decide (b = 0) then None else Some (a `div` b).

(** ** True division of integers

    [a / b] on two Python integers is the exact quotient rounded to the
    nearest binary64 float, ties to even.  It raises [ZeroDivisionError]
    for [b = 0] and [OverflowError] when the rounded quotient is beyond
    the float range, that is at [2 ^ 1024] or above in absolute value. *)

(** [floor(log2(a / b))] for positive [a] and [b]. *)
Definition quot_log2 (a b : Z) : Z :=
  let e := Z.log2 a - Z.log2 b in
  if decide (a * 2 ^ Z.max 0 (- e) < b * 2 ^ Z.max 0 e) then e - 1 else e.

(** The quotient of positive [a] and [b] rounded to 53 significant bits:
    the pair [(m, s)] stands for [m * 2 ^ (- s)].  Below [2 ^ (-1022)] a
    float is rounded more coarsely; its integer part is 0 either way. *)
Definition rounded_quot (a b : Z) : Z * Z :=
  let s := 52 - quot_log2 a b in
  let num := a * 2 ^ Z.max 0 s in
  let den := b * 2 ^ Z.max 0 (- s) in
  let m0 := num `div` den in
  let r := num `mod` den in
  (if decide (den < 2 * r ∨ (2 * r = den ∧ Z.odd m0 = true)) then m0 + 1 else m0, s).

(** [a / b] raises. *)
Definition true_div_raises (a b : Z) : bool :=
  bool_decide (b = 0)
  || (bool_decide (a ≠ 0)
      && bool_decide (2 ^ 1024 ≤ (rounded_quot (Z.abs a) (Z.abs b)).1
                                 * 2 ^ (- (rounded_quot (Z.abs a) (Z.abs b)).2))).

(** [int(a / b)]: the rounded quotient, truncated towards zero. *)
Definition int_of_true_div (a b : Z) : option Z :=
  if true_div_raises a b then None
  else if decide (a = 0) then Some 0
  else
    let '(m, s) := rounded_quot (Z.abs a) (Z.abs b) in
    Some (Z.sgn a * Z.sgn b * (if decide (0 ≤ s) then m `div` 2 ^ s else m * 2 ^ (- s))).

(** The conversion of the integer [n] to a float raises ([OverflowError]):
    it rounds as [n / 1] does. *)
Definition float_of_int_raises (n : Z) : bool := true_div_raises n 1.

(** [range(lo, hi)] *)
Definition pyrange (lo hi : Z) : list Z := seqZ lo (hi - lo).

(** ** [SpatialGrid] *)

Record SpatialGrid := mkSpatialGrid {
  cell_size : Z;
  grid : gmap (Z * Z) (list Z);
  bmap : gmap Z Building
}.

(** Reading a [defaultdict(list)]: a missing key reads as the empty list. *)
Definition grid_get (g : gmap (Z * Z) (list Z)) (cell : Z * Z) : list Z :=
  default [] (g !! cell).

Definition grid_add (cs : Z) (acc : option (gmap (Z * Z) (list Z))) (b : Building)
  : option (gmap (Z * Z) (list Z)) :=
  g ← acc;
  cx ← floordiv (b_x b) cs;
  cy ← floordiv (b_y b) cs;
  Some (<[(cx, cy) := grid_get g (cx, cy) ++ [b_id b]]> g).

Definition SpatialGrid_init (buildings : list Building) (cs : Z) : option SpatialGrid :=
  g ← foldl (grid_add cs) (Some ∅) buildings;
  Some (mkSpatialGrid cs g (mk_bmap buildings)).

(** The innermost loop of [get_in_range] over the ids of one cell. *)
Fixpoint scan_cell (bm : gmap Z Building) (x y r2 : Z) (exclude : gset Z)
    (bids : list Z) : option (list Z) :=
  match bids with
  | [] => Some []
  | bid :: rest =>
      if decide (bid ∈ exclude) then scan_cell bm x y r2 exclude rest
      else
        b ← bm !! bid;
        tl ← scan_cell bm x y r2 exclude rest;
        Some (if decide (dist_sq x y (b_x b) (b_y b) ≤ r2) then bid :: tl else tl)
  end.

(** The cells visited by the two [range(-cells, cells + 1)] loops, in order. *)
Definition cell_window (cx cy cells : Z) : list (Z * Z) :=
  dx ← pyrange (- cells) (cells + 1);
  dy ← pyrange (- cells) (cells + 1);
  [(cx + dx, cy + dy)].

Definition get_in_range (g : SpatialGrid) (x y radius : Z) (exclude : gset Z)
  : option (list Z) :=
  q ← int_of_true_div radius (cell_size g);
  let cells := q + 1 in
  cx ← floordiv x (cell_size g);
  cy ← floordiv y (cell_size g);
  let r2 := radius * radius in
  per_cell ← mapM (λ cell, scan_cell (bmap g) x y r2 exclude (grid_get (grid g) cell))
                  (cell_window cx cy cells);
  Some (concat per_cell).


(** ** The environment of the two scripts

    Floating-point values, the [random] module and the iteration order of
    a [set] are not fixed by the source; they are interfaces here, and every
    result below holds for all their implementations. *)

(** Python floats: [f_of_Z] is [float(n)], [f_div] is true division. *)
Class FloatOps (F : Type) := {
  f_of_Z : Z → F;
  f_add : F → F → F;
  f_mul : F → F → F;
  f_div : F → F → F;
  f_exp : F → F;
  f_lt : F → F → bool
}.

(** The generator state [G] of the [random] module.  [randbelow n] is the
    index drawn by [random.choice] on a sequence of length [n] and by
    [random.randint]; [random_shuffle] and [random_sample] return the
    rearranged list. *)
Class PyRandom (G F : Type) := {
  random_random : G → F * G;
  randbelow : nat → G → nat * G;
  random_shuffle : ∀ {A : Type}, list A → G → list A * G;
  random_sample : ∀ {A : Type}, list A → nat → G → list A * G
}.

(** Where the acceptance test [math.exp(-delta / temp)] of the annealing
    loop raises: [ZeroDivisionError] at a zero temperature, [OverflowError]
    when [delta] or the exponential is beyond the float range. *)
Class FloatErrors (F : Type) := { exp_div_raises : Z → F → bool }.

(** The order in which a [set] of ids is iterated. *)
Class SetOrder := { set_iter : gset Z → list Z }.

(** Computations that read the generator and may raise. *)
Definition Rand (G A : Type) : Type := G → option (A * G).

Definition rret {G A} (a : A) : Rand G A := λ g, Some (a, g).

Definition rbind {G A B} (m : Rand G A) (k : A → Rand G B) : Rand G B :=
  λ g, match m g with
       | Some (a, g') => k a g'
       | None => None
       end.

(** An exception-raising pure step inside [Rand]. *)
Definition rlift {G A} (o : option A) : Rand G A :=
  λ g, match o with Some a => Some (a, g) | None => None end.

(** A draw that cannot raise. *)
Definition rdraw {G A} (d : G → A * G) : Rand G A := λ g, Some (d g).

Notation "x <~ m ;; k" := (rbind m (λ x, k))
  (at level 100, m at next level, right associativity,
   format "'[v' x  <~  m  ;;  '/' k ']'").

(** [random.choice(seq)]: [seq[randbelow(len(seq))]], [IndexError] on an
    empty sequence. *)
Definition random_choice {G F A} `{PyRandom G F} (l : list A) : Rand G A :=
  match l with
  | [] => rlift None
  | _ => k <~ rdraw (randbelow (length l)) ;; rlift (l !! k)
  end.

(** [random.randint(a, b)], [ValueError] on an empty range. *)
Definition random_randint {G F} `{PyRandom G F} (a b : Z) : Rand G Z :=
  if decide (b < a) then rlift None
  else k <~ rdraw (randbelow (Z.to_nat (b - a + 1))) ;; rret (a + Z.of_nat k).

(** ** [advanced_solution.py] *)

(** [sum(get_max_pop(b) for b in blds)] *)
Definition total_pop_of (blds : list Building) : Z :=
  foldr (λ b acc, get_max_pop b + acc) 0 blds.

(** [[bmap[bid] for bid in bids]] *)
Definition lookup_all (bm : gmap Z Building) (bids : list Z) : option (list Building) :=
  mapM (λ bid, bm !! bid) bids.

(** [all(dist_sq(x, y, b['x'], b['y']) <= r ** 2 for b in blds)] *)
Definition all_in_range (x y r : Z) (blds : list Building) : bool :=
  forallb (λ b, bool_decide (dist_sq x y (b_x b) (b_y b) ≤ r ^ 2)) blds.

(** The [in_range] list of [find_best_antenna]: pairs (id, demand). *)
Fixpoint collect_in_range (bm : gmap Z Building) (x y r : Z) (uncovered_ids : list Z)
  : option (list (Z * Z)) :=
  match uncovered_ids with
  | [] => Some []
  | bid :: rest =>
      b ← bm !! bid;
      tl ← collect_in_range bm x y r rest;
      Some (if decide (dist_sq x y (b_x b) (b_y b) ≤ r ^ 2)
            then (bid, get_max_pop b) :: tl else tl)
  end.

(** [in_range.sort(key=lambda x: x[1])]: the stable sort by demand. *)
Fixpoint insert_by_pop (p : Z * Z) (l : list (Z * Z)) : list (Z * Z) :=
  match l with
  | [] => [p]
  | q :: l' => if decide (p.2 ≤ q.2) then p :: q :: l' else q :: insert_by_pop p l'
  end.

Definition sort_by_pop (l : list (Z * Z)) : list (Z * Z) :=
  foldr insert_by_pop [] l.

(** The packing loop: returns [selected] and the final [total_pop]. *)
Fixpoint pack (cap total_pop : Z) (in_range : list (Z * Z)) : list Z * Z :=
  match in_range with
  | [] => ([], total_pop)
  | (bid, pop) :: rest =>
      if decide (total_pop + pop ≤ cap)
      then let '(selected, t) := pack cap (total_pop + pop) rest in (bid :: selected, t)
      else pack cap total_pop rest
  end.

Definition score_of {F} `{FloatOps F} (prefer_capacity : bool)
    (n_selected total_pop cost : Z) : F :=
  if prefer_capacity
  then f_mul (f_div (f_of_Z total_pop) (f_of_Z cost)) (f_of_Z 1000)
  else f_add (f_div (f_of_Z (n_selected * 10000)) (f_of_Z cost))
             (f_div (f_of_Z total_pop) (f_of_Z cost)).

(** The score raises ([OverflowError]) when one of its true divisions of
    integers does; the float product and the float sum do not raise. *)
Definition score_raises (prefer_capacity : bool) (n_selected total_pop cost : Z) : bool :=
  if prefer_capacity then true_div_raises total_pop cost
  else true_div_raises (n_selected * 10000) cost || true_div_raises total_pop cost.

(** One round of the loop over antenna types; [acc] is [(best, best_score)]. *)
Definition consider_type {F} `{FloatOps F} (x y : Z) (uncovered_ids : list Z)
    (bm : gmap Z Building) (prefer_capacity : bool)
    (acc : option (AntennaType * list Z * F) * F) (atype : AntennaType)
  : option (option (AntennaType * list Z * F) * F) :=
  in_range ← collect_in_range bm x y (range_of atype) uncovered_ids;
  match in_range with
  | [] => Some acc
  | _ =>
      let '(selected, total_pop) := pack (capacity atype) 0 (sort_by_pop in_range) in
      match selected with
      | [] => Some acc
      | _ =>
          if score_raises prefer_capacity (Z.of_nat (length selected)) total_pop
                          (cost_on atype)
          then None
          else
            let score :=
              score_of prefer_capacity (Z.of_nat (length selected)) total_pop
                       (cost_on atype) in
            if f_lt acc.2 score then Some (Some (atype, selected, score), score)
            else Some acc
      end
  end.

Fixpoint find_best_loop {F} `{FloatOps F} (x y : Z) (uncovered_ids : list Z)
    (bm : gmap Z Building) (prefer_capacity : bool)
    (acc : option (AntennaType * list Z * F) * F) (types : list AntennaType)
  : option (option (AntennaType * list Z * F) * F) :=
  match types with
  | [] => Some acc
  | atype :: rest =>
      acc' ← consider_type x y uncovered_ids bm prefer_capacity acc atype;
      find_best_loop x y uncovered_ids bm prefer_capacity acc' rest
  end.

(** Returns [Some None] for Python's [None] and [None] for a raised error. *)
Definition find_best_antenna {F} `{FloatOps F} (x y : Z) (uncovered_ids : list Z)
    (bm : gmap Z Building) (prefer_capacity : bool)
  : option (option (AntennaType * list Z * F)) :=
  fst <$> find_best_loop x y uncovered_ids bm prefer_capacity
            (None, f_of_Z (-1)) [Density; MaxRange; Spot; Nano].

(** Phase 1 of [solve_advanced]; the state is [(antennas, uncovered)]. *)
Definition phase1_step (st : list Antenna * gset Z) (b : Building)
  : list Antenna * gset Z :=
  let '(antennas, uncovered) := st in
  if decide (b_id b ∈ uncovered) then
    if decide (3500 < get_max_pop b)
    then (antennas ++ [mkAntenna Density (b_x b) (b_y b) [b_id b]],
          uncovered ∖ {[b_id b]})
    else st
  else st.

(** The loop over candidate positions; [acc] is [(best_antenna, best_score)]. *)
Fixpoint best_over_candidates {F} `{FloatOps F} (bm : gmap Z Building)
    (uncovered_ids : list Z) (acc : option Antenna * F) (candidates : list Z)
  : option (option Antenna * F) :=
  match candidates with
  | [] => Some acc
  | bid :: rest =>
      b ← bm !! bid;
      result ← find_best_antenna (b_x b) (b_y b) uncovered_ids bm false;
      let acc' :=
        match result with
        | Some (atype, selected, score) =>
            if f_lt acc.2 score
            then (Some (mkAntenna atype (b_x b) (b_y b) selected), score)
            else acc
        | None => acc
        end in
      best_over_candidates bm uncovered_ids acc' rest
  end.

(** The fallback antenna for building [bid]: the first type, in the order
    Nano, Spot, Density, MaxRange, whose capacity holds its demand. *)
Definition fallback_antenna (bid : Z) (b : Building) : option Antenna :=
  (λ atype, mkAntenna atype (b_x b) (b_y b) [bid]) <$>
    head (filter (λ atype, get_max_pop b ≤ capacity atype) [Nano; Spot; Density; MaxRange]).

(** One round of the [while uncovered] loop: the antenna that is appended. *)
Definition phase2_round {G F} `{FloatOps F, PyRandom G F, SetOrder}
    (bm : gmap Z Building) (uncovered : gset Z) : Rand G Antenna :=
  let all_candidates := set_iter uncovered in
  candidates <~ (if decide (1000 < length all_candidates)%nat
                 then rdraw (random_sample all_candidates
                               (Nat.min 1000 (length all_candidates)))
                 else rret all_candidates) ;;
  best <~ rlift (best_over_candidates bm (set_iter uncovered)
                   (None, f_of_Z (-1)) candidates) ;;
  match best.1 with
  | Some best_antenna => rret best_antenna
  | None =>
      bid <~ rlift (head (set_iter uncovered)) ;;
      b <~ rlift (bm !! bid) ;;
      rlift (fallback_antenna bid b)
  end.

(** The [while uncovered] loop.  Each round removes the buildings of the
    antenna it appends; [fuel] bounds the number of rounds. *)
Fixpoint phase2 {G F} `{FloatOps F, PyRandom G F, SetOrder} (fuel : nat)
    (bm : gmap Z Building) (antennas : list Antenna) (uncovered : gset Z)
  : Rand G (list Antenna) :=
  if decide (uncovered = ∅) then rret antennas
  else match fuel with
       | O => rlift None
       | S fuel' =>
           best_antenna <~ phase2_round bm uncovered ;;
           phase2 fuel' bm (antennas ++ [best_antenna])
                  (uncovered ∖ list_to_set (a_buildings best_antenna))
       end.

(** The grid that [solve_advanced] also builds, with cell size 100, is not
    read afterwards and is left out. *)
Definition solve_advanced {G F} `{FloatOps F, PyRandom G F, SetOrder}
    (buildings : list Building) : Rand G (list Antenna) :=
  let bm := mk_bmap buildings in
  let uncovered : gset Z := list_to_set (b_id <$> buildings) in
  let '(antennas, uncovered) := foldl phase1_step ([], uncovered) buildings in
  phase2 (size uncovered) bm antennas uncovered.

(** The type loop of [optimize_types]; [acc] is [(best_type, best_cost)]. *)
Definition downgrade_step (ant : Antenna) (blds : list Building) (total_pop : Z)
    (acc : AntennaType * Z) (atype : AntennaType) : AntennaType * Z :=
  if decide (capacity atype < total_pop) then acc
  else if all_in_range (a_x ant) (a_y ant) (range_of atype) blds
            && bool_decide (cost_on atype < acc.2)
       then (atype, cost_on atype)
       else acc.

Definition optimize_one (bm : gmap Z Building) (ant : Antenna) : option Antenna :=
  blds ← lookup_all bm (a_buildings ant);
  let total_pop := total_pop_of blds in
  let best := foldl (downgrade_step ant blds total_pop)
                    (a_type ant, cost_on (a_type ant)) [Nano; Spot; MaxRange; Density] in
  Some (mkAntenna best.1 (a_x ant) (a_y ant) (a_buildings ant)).

Definition optimize_types (solution : list Antenna) (buildings : list Building)
  : option (list Antenna) :=
  mapM (optimize_one (mk_bmap buildings)) solution.

(** [try_merge_antennas]: the two loops over positions and types for one
    pair; the first admissible (position, type) in loop order is taken. *)
Definition merge_candidates (a1 a2 : Antenna) : list (Z * Z * AntennaType) :=
  pos ← [(a_x a1, a_y a1); (a_x a2, a_y a2)];
  atype ← [Density; MaxRange; Spot; Nano];
  [(pos, atype)].

Definition merge_admissible (a1 a2 : Antenna) (all_blds : list Building) (total_pop : Z)
    (c : Z * Z * AntennaType) : bool :=
  let '(pos, atype) := c in
  bool_decide (total_pop ≤ capacity atype)
  && all_in_range pos.1 pos.2 (range_of atype) all_blds
  && bool_decide (cost_on atype < cost_on (a_type a1) + cost_on (a_type a2)).

Definition try_pair (bm : gmap Z Building) (a1 a2 : Antenna) : option (option Antenna) :=
  let all_bids := a_buildings a1 ++ a_buildings a2 in
  all_blds ← lookup_all bm all_bids;
  let total_pop := total_pop_of all_blds in
  Some ((λ c : Z * Z * AntennaType, mkAntenna c.2 c.1.1 c.1.2 all_bids) <$>
          head (filter (λ c, merge_admissible a1 a2 all_blds total_pop c)
                       (merge_candidates a1 a2))).

(** The loop over [j], entered with [tail = antennas[j:]]. *)
Fixpoint merge_scan_j (bm : gmap Z Building) (antennas : list Antenna) (i : nat)
    (a1 : Antenna) (j : nat) (tail : list Antenna) : option (option (list Antenna)) :=
  match tail with
  | [] => Some None
  | a2 :: tail' =>
      m ← try_pair bm a1 a2;
      match m with
      | Some merged => Some (Some (delete j (<[i := merged]> antennas)))
      | None => merge_scan_j bm antennas i a1 (S j) tail'
      end
  end.

(** The loop over [i], entered with [tail = antennas[i:]]. *)
Fixpoint merge_scan_i (bm : gmap Z Building) (antennas : list Antenna) (i : nat)
    (tail : list Antenna) : option (option (list Antenna)) :=
  match tail with
  | [] => Some None
  | a1 :: tail' =>
      r ← merge_scan_j bm antennas i a1 (S i) tail';
      match r with
      | Some merged => Some (Some merged)
      | None => merge_scan_i bm antennas (S i) tail'
      end
  end.

(** One round of [while improved]: the list after the first merge found,
    or [Some None] when the round ends with [improved] still false. *)
Definition merge_pass (bm : gmap Z Building) (antennas : list Antenna)
  : option (option (list Antenna)) :=
  merge_scan_i bm antennas 0 antennas.

(** The [while improved] loop; every merge shortens the list by one, so
    [length antennas] rounds are enough. *)
Fixpoint merge_rounds (fuel : nat) (bm : gmap Z Building) (antennas : list Antenna)
  : option (list Antenna) :=
  r ← merge_pass bm antennas;
  match r, fuel with
  | None, _ => Some antennas
  | Some merged, S fuel' => merge_rounds fuel' bm merged
  | Some _, O => None
  end.

Definition try_merge_antennas (solution : list Antenna) (buildings : list Building)
  : option (list Antenna) :=
  merge_rounds (length solution) (mk_bmap buildings) solution.

(** ** [suburbia_simulated_annealing.py]

    The moves and the driver also receive the list [buildings]; none of
    them reads it, and it is left out.  [copy.deepcopy] is the identity on
    values: no move updates an antenna of its input in place. *)

Definition TYPE_ORDER : list AntennaType := [Nano; Spot; Density; MaxRange].

Definition calculate_cost (antennas : list Antenna) : Z :=
  foldr (λ a acc, cost_on (a_type a) + acc) 0 antennas.

Definition is_valid_antenna (ant : Antenna) (bm : gmap Z Building) : option bool :=
  match a_buildings ant with
  | [] => Some false
  | _ =>
      blds ← lookup_all bm (a_buildings ant);
      if decide (capacity (a_type ant) < total_pop_of blds) then Some false
      else Some (all_in_range (a_x ant) (a_y ant) (range_of (a_type ant)) blds)
  end.

(** Returns [Some None] for Python's [None]. *)
Definition get_cheapest_valid_type (ant : Antenna) (bm : gmap Z Building)
  : option (option AntennaType) :=
  blds ← lookup_all bm (a_buildings ant);
  let total_pop := total_pop_of blds in
  Some (head (filter (λ atype, bool_decide (total_pop ≤ capacity atype)
                               && all_in_range (a_x ant) (a_y ant) (range_of atype) blds)
                     TYPE_ORDER)).

Definition set_type (t : AntennaType) (ant : Antenna) : Antenna :=
  mkAntenna t (a_x ant) (a_y ant) (a_buildings ant).

Definition set_buildings (bids : list Z) (ant : Antenna) : Antenna :=
  mkAntenna (a_type ant) (a_x ant) (a_y ant) bids.

Definition set_position (x y : Z) (ant : Antenna) : Antenna :=
  mkAntenna (a_type ant) x y (a_buildings ant).

(** [l.remove(x)]: drops the first occurrence, [ValueError] if there is none. *)
Fixpoint list_remove_first (x : Z) (l : list Z) : option (list Z) :=
  match l with
  | [] => None
  | y :: l' => if decide (x = y) then Some l' else (y ::.) <$> list_remove_first x l'
  end.

(** [[i for i, a in enumerate(antennas) if len(a['buildings']) > n]] *)
Definition indices_with_more_than (n : nat) (antennas : list Antenna) : list nat :=
  omap id (imap (λ i a, if decide (n < length (a_buildings a))%nat then Some i else None)
                antennas).

(** [[a for k, a in enumerate(antennas) if k not in skip]] *)
Definition without_indices (skip : list nat) (antennas : list Antenna) : list Antenna :=
  omap id (imap (λ k a, if decide (k ∈ skip) then None else Some a) antennas).

(** [dist(x1, y1, x2, y2) > d] for the two thresholds [d] of the script,
    400 and 800:
    [math.sqrt] raises [OverflowError] when the squared distance is beyond
    the float range; otherwise the test on the float square root is the
    test on the integer squares. *)
Definition dist_gt (x1 y1 x2 y2 d : Z) : option bool :=
  if float_of_int_raises (dist_sq x1 y1 x2 y2) then None
  else Some (bool_decide (d ^ 2 < dist_sq x1 y1 x2 y2)).

(** The loop of [move_building] over the shuffled target indices. *)
Fixpoint move_targets (bm : gmap Z Building) (antennas : list Antenna) (src_idx : nat)
    (src_ant : Antenna) (bid : Z) (b : Building) (indices : list nat)
  : option (option (list Antenna)) :=
  match indices with
  | [] => Some None
  | tgt_idx :: rest =>
      if decide (tgt_idx = src_idx) then
        move_targets bm antennas src_idx src_ant bid b rest
      else
        tgt_ant ← antennas !! tgt_idx;
        far ← dist_gt (a_x tgt_ant) (a_y tgt_ant) (b_x b) (b_y b) 400;
        if (far : bool) then
          move_targets bm antennas src_idx src_ant bid b rest
        else
          let new_tgt := set_buildings (a_buildings tgt_ant ++ [bid]) tgt_ant in
          new_type ← get_cheapest_valid_type new_tgt bm;
          match new_type with
          | None => move_targets bm antennas src_idx src_ant bid b rest
          | Some new_type =>
              let new_tgt := set_type new_type new_tgt in
              src_bids ← list_remove_first bid (a_buildings src_ant);
              let new_src := set_buildings src_bids src_ant in
              new_src_type ← get_cheapest_valid_type new_src bm;
              match new_src_type with
              | None => move_targets bm antennas src_idx src_ant bid b rest
              | Some new_src_type =>
                  let new_src := set_type new_src_type new_src in
                  Some (Some (<[tgt_idx := new_tgt]> (<[src_idx := new_src]> antennas)))
              end
          end
  end.

Definition move_building {G F} `{PyRandom G F} (antennas : list Antenna)
    (bm : gmap Z Building) : Rand G (option (list Antenna)) :=
  if decide (length antennas < 2)%nat then rret None
  else
    let multi_indices := indices_with_more_than 1 antennas in
    match multi_indices with
    | [] => rret None
    | _ =>
        src_idx <~ random_choice multi_indices ;;
        src_ant <~ rlift (antennas !! src_idx) ;;
        bid <~ random_choice (a_buildings src_ant) ;;
        b <~ rlift (bm !! bid) ;;
        indices <~ rdraw (random_shuffle (seq 0 (length antennas))) ;;
        rlift (move_targets bm antennas src_idx src_ant bid b indices)
    end.

(** The three positions and four types tried by [merge_antennas], in loop order. *)
Definition sa_merge_candidates (a1 a2 : Antenna) : list (Z * Z * AntennaType) :=
  pos ← [(a_x a1, a_y a1); (a_x a2, a_y a2);
         ((a_x a1 + a_x a2) `div` 2, (a_y a1 + a_y a2) `div` 2)];
  atype ← TYPE_ORDER;
  [(pos, atype)].

(** One pair [(i, j)] of [merge_antennas]. *)
Definition sa_merge_pair (bm : gmap Z Building) (antennas : list Antenna) (i j : nat)
  : option (option (list Antenna)) :=
  a1 ← antennas !! i;
  a2 ← antennas !! j;
  far ← dist_gt (a_x a1) (a_y a1) (a_x a2) (a_y a2) 800;
  if (far : bool) then Some None
  else
    let combined_bids := a_buildings a1 ++ a_buildings a2 in
    combined_blds ← lookup_all bm combined_bids;
    let combined_pop := total_pop_of combined_blds in
    Some ((λ c : Z * Z * AntennaType,
             without_indices [i; j] antennas ++ [mkAntenna c.2 c.1.1 c.1.2 combined_bids]) <$>
          head (filter (λ c : Z * Z * AntennaType,
                          bool_decide (combined_pop ≤ capacity c.2)
                          && all_in_range c.1.1 c.1.2 (range_of c.2) combined_blds)
                       (sa_merge_candidates a1 a2))).

(** The two loops over [indices[:20]], flattened to the list of pairs. *)
Fixpoint sa_merge_pairs (bm : gmap Z Building) (antennas : list Antenna)
    (pairs : list (nat * nat)) : option (option (list Antenna)) :=
  match pairs with
  | [] => Some None
  | (i, j) :: rest =>
      if decide (j ≤ i)%nat then sa_merge_pairs bm antennas rest
      else
        r ← sa_merge_pair bm antennas i j;
        match r with
        | Some new_antennas => Some (Some new_antennas)
        | None => sa_merge_pairs bm antennas rest
        end
  end.

Definition merge_antennas {G F} `{PyRandom G F} (antennas : list Antenna)
    (bm : gmap Z Building) : Rand G (option (list Antenna)) :=
  if decide (length antennas < 2)%nat then rret None
  else
    indices <~ rdraw (random_shuffle (seq 0 (length antennas))) ;;
    rlift (sa_merge_pairs bm antennas
             (i ← take 20 indices; j ← take 20 indices; [(i, j)])).

(** [sum(b['x'] for b in blds) // len(blds)] *)
Definition centroid (coord : Building → Z) (blds : list Building) : option Z :=
  floordiv (foldr (λ b acc, coord b + acc) 0 blds) (Z.of_nat (length blds)).

Definition split_antenna {G F} `{PyRandom G F} (antennas : list Antenna)
    (bm : gmap Z Building) : Rand G (option (list Antenna)) :=
  let multi_indices := indices_with_more_than 1 antennas in
  match multi_indices with
  | [] => rret None
  | _ =>
      idx <~ random_choice multi_indices ;;
      ant <~ rlift (antennas !! idx) ;;
      bids <~ rdraw (random_shuffle (a_buildings ant)) ;;
      let mid := if decide (length bids `div` 2 = 0)%nat then 1%nat
                 else (length bids `div` 2)%nat in
      let bids1 := take mid bids in
      let bids2 := drop mid bids in
      blds1 <~ rlift (lookup_all bm bids1) ;;
      blds2 <~ rlift (lookup_all bm bids2) ;;
      x1 <~ rlift (centroid b_x blds1) ;;
      y1 <~ rlift (centroid b_y blds1) ;;
      x2 <~ rlift (centroid b_x blds2) ;;
      y2 <~ rlift (centroid b_y blds2) ;;
      let ant1 := mkAntenna Density x1 y1 bids1 in
      let ant2 := mkAntenna Density x2 y2 bids2 in
      type1 <~ rlift (get_cheapest_valid_type ant1 bm) ;;
      type2 <~ rlift (get_cheapest_valid_type ant2 bm) ;;
      match type1, type2 with
      | Some type1, Some type2 =>
          rret (Some (without_indices [idx] antennas
                        ++ [set_type type1 ant1; set_type type2 ant2]))
      | _, _ => rret None
      end
  end.

Definition relocate_antenna {G F} `{PyRandom G F} (antennas : list Antenna)
    (bm : gmap Z Building) : Rand G (option (list Antenna)) :=
  match antennas with
  | [] => rret None
  | _ =>
      idx <~ random_randint 0 (Z.of_nat (length antennas) - 1) ;;
      ant <~ rlift (antennas !! Z.to_nat idx) ;;
      blds <~ rlift (lookup_all bm (a_buildings ant)) ;;
      target_b <~ random_choice blds ;;
      let new_ant := set_position (b_x target_b) (b_y target_b) ant in
      new_type <~ rlift (get_cheapest_valid_type new_ant bm) ;;
      match new_type with
      | None => rret None
      | Some new_type =>
          rret (Some (<[Z.to_nat idx := set_type new_type new_ant]> antennas))
      end
  end.

(** A move of the annealing driver, with its probability. *)
Definition Move (G : Type) : Type :=
  list Antenna → gmap Z Building → Rand G (option (list Antenna)).

(** The decimal literal [m / 10 ^ e], e.g. [0.15] is [f_decimal 15 2]. *)
Definition f_decimal {F} `{FloatOps F} (m : Z) (e : nat) : F :=
  f_div (f_of_Z m) (f_of_Z (10 ^ Z.of_nat e)).

Definition moves {G F} `{FloatOps F, PyRandom G F} : list (Move G * F) :=
  [(move_building, f_decimal 4 1);
   (merge_antennas, f_decimal 3 1);
   (split_antenna, f_decimal 15 2);
   (relocate_antenna, f_decimal 15 2)].

(** [if result:] on a value that is [None] or a list. *)
Definition truthy (result : option (list Antenna)) : bool :=
  match result with
  | Some (_ :: _) => true
  | _ => false
  end.

(** The first loop of [random_neighbor]: the move at which [r < cumulative]. *)
Fixpoint pick_move {G F} `{FloatOps F} (r cumulative : F) (ms : list (Move G * F))
  : option (Move G) :=
  match ms with
  | [] => None
  | (move_func, prob) :: rest =>
      let cumulative := f_add cumulative prob in
      if f_lt r cumulative then Some move_func else pick_move r cumulative rest
  end.

(** The fallback loop of [random_neighbor]. *)
Fixpoint try_all_moves {G F} (ms : list (Move G * F)) (antennas : list Antenna)
    (bm : gmap Z Building) : Rand G (option (list Antenna)) :=
  match ms with
  | [] => rret None
  | (move_func, _) :: rest =>
      result <~ move_func antennas bm ;;
      if truthy result then rret result else try_all_moves rest antennas bm
  end.

Definition random_neighbor {G F} `{FloatOps F, PyRandom G F} (antennas : list Antenna)
    (bm : gmap Z Building) : Rand G (option (list Antenna)) :=
  r <~ rdraw random_random ;;
  match pick_move r (f_of_Z 0) moves with
  | Some move_func =>
      result <~ move_func antennas bm ;;
      if truthy result then rret result else try_all_moves moves antennas bm
  | None => try_all_moves moves antennas bm
  end.

(** The variables of [simulated_annealing] that the loop updates.  The
    counters [accepted] and [improved] only feed the progress messages and
    are left out. *)
Record SAState (F : Type) := mkSAState {
  sa_current : list Antenna;
  sa_current_cost : Z;
  sa_best : list Antenna;
  sa_best_cost : Z;
  sa_temp : F;
  sa_iteration : Z
}.

Arguments mkSAState {F}.
Arguments sa_current {F}.
Arguments sa_current_cost {F}.
Arguments sa_best {F}.
Arguments sa_best_cost {F}.
Arguments sa_temp {F}.
Arguments sa_iteration {F}.

(** The end of every iteration: [iteration += 1; temp *= cooling_rate]. *)
Definition sa_tick {F} `{FloatOps F} (cooling_rate : F) (st : SAState F) : SAState F :=
  mkSAState (sa_current st) (sa_current_cost st) (sa_best st) (sa_best_cost st)
            (f_mul (sa_temp st) cooling_rate) (sa_iteration st + 1).

(** [current = neighbor; current_cost = neighbor_cost] *)
Definition sa_accept {F} (neighbor : list Antenna) (neighbor_cost : Z) (st : SAState F)
  : SAState F :=
  mkSAState neighbor neighbor_cost (sa_best st) (sa_best_cost st)
            (sa_temp st) (sa_iteration st).

(** [if current_cost < best_cost: best = copy.deepcopy(current); ...] *)
Definition sa_record_best {F} (st : SAState F) : SAState F :=
  if decide (sa_current_cost st < sa_best_cost st)
  then mkSAState (sa_current st) (sa_current_cost st) (sa_current st) (sa_current_cost st)
                 (sa_temp st) (sa_iteration st)
  else st.

(** The body of the [while] loop. *)
Definition sa_step {G F} `{FloatOps F, PyRandom G F, FloatErrors F} (bm : gmap Z Building)
    (cooling_rate : F) (st : SAState F) : Rand G (SAState F) :=
  neighbor <~ random_neighbor (sa_current st) bm ;;
  match neighbor with
  | None => rret (sa_tick cooling_rate st)
  | Some neighbor =>
      let neighbor_cost := calculate_cost neighbor in
      let delta := neighbor_cost - sa_current_cost st in
      if decide (delta < 0) then
        rret (sa_tick cooling_rate (sa_record_best (sa_accept neighbor neighbor_cost st)))
      else
        r <~ rdraw random_random ;;
        if exp_div_raises delta (sa_temp st) then rlift None
        else if f_lt r (f_exp (f_div (f_of_Z (- delta)) (sa_temp st)))
        then rret (sa_tick cooling_rate (sa_accept neighbor neighbor_cost st))
        else rret (sa_tick cooling_rate st)
  end.

(** [while temp > min_temp and iteration < max_iterations], entered with
    [remaining = max_iterations - iteration] iterations of the budget left;
    the second test is [remaining > 0]. *)
Fixpoint sa_loop {G F} `{FloatOps F, PyRandom G F, FloatErrors F} (remaining : nat)
    (bm : gmap Z Building) (cooling_rate min_temp : F) (st : SAState F)
  : Rand G (SAState F) :=
  match remaining with
  | O => rret st
  | S remaining' =>
      if f_lt min_temp (sa_temp st) then
        st' <~ sa_step bm cooling_rate st ;;
        sa_loop remaining' bm cooling_rate min_temp st'
      else rret st
  end.

Definition sa_init {F} (antennas : list Antenna) (initial_temp : F) : SAState F :=
  mkSAState antennas (calculate_cost antennas) antennas (calculate_cost antennas)
            initial_temp 0.

Definition simulated_annealing {G F} `{FloatOps F, PyRandom G F, FloatErrors F}
    (antennas : list Antenna) (bm : gmap Z Building)
    (initial_temp cooling_rate min_temp : F) (max_iterations : Z)
  : Rand G (list Antenna * Z) :=
  st <~ sa_loop (Z.to_nat max_iterations) bm cooling_rate min_temp
                (sa_init antennas initial_temp) ;;
  rret (sa_best st, sa_best_cost st).

(** ** Example data *)

(** A stand-in for the float operations that computes with integers. *)
Definition integer_floats : FloatOps Z :=
  {| f_of_Z := λ n, n;
     f_add := Z.add;
     f_mul := Z.mul;
     f_div := Z.div;
     f_exp := λ _, 1;
     f_lt := Z.ltb |}.

(** With these integers the acceptance test raises at temperature 0 only. *)
Definition integer_float_errors : FloatErrors Z :=
  {| exp_div_raises := λ _ temp, bool_decide (temp = 0) |}.

(** A generator that always draws index 0 and the float 0, and that leaves
    a shuffled list in its order. *)
Definition first_choice_random : PyRandom unit Z :=
  {| random_random := λ g, (0, g);
     randbelow := λ _ g, (0%nat, g);
     random_shuffle := λ _ l g, (l, g);
     random_sample := λ _ l n g, (take n l, g) |}.

(** A generator with the same draws that also counts them. *)
Definition counting_random : PyRandom nat Z :=
  {| random_random := λ g, (0, S g);
     randbelow := λ _ g, (0%nat, S g);
     random_shuffle := λ _ l g, (l, S g);
     random_sample := λ _ l n g, (take n l, S g) |}.

(** A set iterated in increasing order of the ids. *)
Definition sorted_set_order : SetOrder :=
  {| set_iter := λ s, merge_sort Z.le (elements s) |}.

(** The three buildings of the small scenario: demand 100 each, at
    [(0, 0)], [(30, 0)] and [(400, 0)]. *)
Definition village : list Building :=
  [mkBuilding 1 0 0 100 80 60; mkBuilding 2 30 0 90 100 10; mkBuilding 3 400 0 50 70 100].

(** One building whose demand, 6000, is above every capacity. *)
Definition tower : Building := mkBuilding 1 10 20 6000 5200 4100.

(** Two single-building antennas 800 apart. *)
Definition far_pair_buildings : list Building :=
  [mkBuilding 1 0 0 100 80 60; mkBuilding 2 800 0 90 100 10].

Definition far_pair : list Antenna :=
  [mkAntenna Nano 0 0 [1]; mkAntenna Nano 800 0 [2]].

(** One antenna serving three buildings in a row. *)
Definition row_buildings : list Building :=
  [mkBuilding 1 0 0 50 40 30; mkBuilding 2 10 0 50 40 30; mkBuilding 3 30 0 50 40 30].

Definition row_antenna : list Antenna := [mkAntenna Nano 10 0 [1; 2; 3]].

(** A solution for [village]: one antenna for the two near buildings, one
    for the far one. *)
Definition village_solution : list Antenna :=
  [mkAntenna Nano 0 0 [1; 2]; mkAntenna Nano 400 0 [3]].

(** ** Predicates used in the statements *)

(** The grid cell of a building. *)
Definition cell_of (cs : Z) (b : Building) : Z * Z :=
  (b_x b `div` cs, b_y b `div` cs).

(** What the distance filter of [get_in_range] keeps. *)
Definition in_reach (bm : gmap Z Building) (x y r2 : Z) (exclude : gset Z) (i : Z) : Prop :=
  (i ∉ exclude) ∧ (∃ b, bm !! i = Some b ∧ dist_sq x y (b_x b) (b_y b) ≤ r2).

(** The antenna sits on the coordinates of some building of the map. *)
Definition on_building (bm : gmap Z Building) (a : Antenna) : Prop :=
  ∃ i b, bm !! i = Some b ∧ b_x b = a_x a ∧ b_y b = a_y a.

(** The antenna sits at the floored centroid of the buildings assigned to it. *)
Definition at_centroid (bm : gmap Z Building) (a : Antenna) : Prop :=
  ∃ blds, lookup_all bm (a_buildings a) = Some blds ∧
          centroid b_x blds = Some (a_x a) ∧ centroid b_y blds = Some (a_y a).

(** Type [t] can serve the buildings [blds] from [(x, y)]: its capacity
    holds their total demand and its radius reaches each of them. *)
Definition type_fits (t : AntennaType) (x y : Z) (blds : list Building) : Prop :=
  total_pop_of blds ≤ capacity t ∧
  Forall (λ b, dist_sq x y (b_x b) (b_y b) ≤ range_of t ^ 2) blds.

(** [ant'] is [ant] with its type replaced by the cheapest of: the type
    of [ant], and the types that fit the buildings of [ant]. *)
Definition downgraded (bm : gmap Z Building) (ant ant' : Antenna) : Prop :=
  a_x ant' = a_x ant ∧ a_y ant' = a_y ant ∧ a_buildings ant' = a_buildings ant ∧
  ∃ blds,
    lookup_all bm (a_buildings ant) = Some blds ∧
    cost_on (a_type ant') ≤ cost_on (a_type ant) ∧
    (∀ t, type_fits t (a_x ant) (a_y ant) blds → cost_on (a_type ant') ≤ cost_on t) ∧
    (a_type ant' = a_type ant ∨
     (type_fits (a_type ant') (a_x ant) (a_y ant) blds ∧
      cost_on (a_type ant') < cost_on (a_type ant))).

(** All building ids of a solution, antenna by antenna. *)
Definition assigned (antennas : list Antenna) : list Z :=
  concat (a_buildings <$> antennas).

(** One merge as [try_merge_antennas] commits it: antenna [a1] at index
    [i] is replaced by [m] and antenna [a2] at index [j > i] is removed.
    [m] sits where [a1] or [a2] sat, serves the buildings of [a1] followed
    by those of [a2], has a type that fits them, and costs strictly less
    than [a1] and [a2] together. *)
Definition committed_merge (bm : gmap Z Building) (antennas merged_list : list Antenna)
  : Prop :=
  ∃ pre a1 mid a2 post m blds,
    antennas = pre ++ a1 :: mid ++ a2 :: post ∧
    merged_list = pre ++ m :: mid ++ post ∧
    ((a_x m, a_y m) = (a_x a1, a_y a1) ∨ (a_x m, a_y m) = (a_x a2, a_y a2)) ∧
    a_buildings m = a_buildings a1 ++ a_buildings a2 ∧
    lookup_all bm (a_buildings m) = Some blds ∧
    type_fits (a_type m) (a_x m) (a_y m) blds ∧
    cost_on (a_type m) < cost_on (a_type a1) + cost_on (a_type a2) ∧
    calculate_cost merged_list < calculate_cost antennas ∧
    assigned merged_list ≡ₚ assigned antennas.

(** Every building id used by the solution is in the map. *)
Definition ids_known (bm : gmap Z Building) (antennas : list Antenna) : Prop :=
  ∀ ant bid, ant ∈ antennas → bid ∈ a_buildings ant → is_Some (bm !! bid).

(** The demand carried by a list of (id, demand) pairs. *)
Definition pops_sum (l : list (Z * Z)) : Z := foldr (λ p acc, p.2 + acc) 0 l.

(** [selected] is what [find_best_antenna] packs for type [atype] at
    [(x, y)]: [in_range] lists exactly the uncovered buildings within the
    radius with their demand, it is sorted by ascending demand, and
    [selected] is the greedy accumulation of the sorted list into the
    capacity: the longest prefix of the sorted list whose demand fits.
    The selection is not empty, stays within the capacity and within the
    radius. *)
Definition packing_of (bm : gmap Z Building) (x y : Z) (uncovered_ids : list Z)
    (atype : AntennaType) (selected : list Z) : Prop :=
  ∃ in_range blds,
    collect_in_range bm x y (range_of atype) uncovered_ids = Some in_range ∧
    (∀ bid pop, (bid, pop) ∈ in_range ↔
       bid ∈ uncovered_ids ∧
       ∃ b, bm !! bid = Some b ∧ pop = get_max_pop b ∧
            dist_sq x y (b_x b) (b_y b) ≤ range_of atype ^ 2) ∧
    sort_by_pop in_range ≡ₚ in_range ∧
    StronglySorted (λ p q : Z * Z, p.2 ≤ q.2) (sort_by_pop in_range) ∧
    selected = (pack (capacity atype) 0 (sort_by_pop in_range)).1 ∧
    (∃ k, selected = (take k (sort_by_pop in_range)).*1 ∧
          ∀ p, sort_by_pop in_range !! k = Some p →
               capacity atype < pops_sum (take k (sort_by_pop in_range)) + p.2) ∧
    selected ≠ [] ∧
    selected ⊆ uncovered_ids ∧
    lookup_all bm selected = Some blds ∧
    type_fits atype x y blds.

(** What [move_building] does to the two antennas it touches: building
    [bid] leaves the antenna at [src_idx], which held at least two
    buildings, and is appended to the antenna at [tgt_idx]; both keep their
    position and both get a type that is valid for their new buildings. *)
Definition moved_one (bm : gmap Z Building) (antennas res : list Antenna) : Prop :=
  ∃ src_idx tgt_idx src_ant tgt_ant bid new_src new_tgt,
    src_idx ≠ tgt_idx ∧
    antennas !! src_idx = Some src_ant ∧ antennas !! tgt_idx = Some tgt_ant ∧
    (1 < length (a_buildings src_ant))%nat ∧
    res = <[tgt_idx := new_tgt]> (<[src_idx := new_src]> antennas) ∧
    list_remove_first bid (a_buildings src_ant) = Some (a_buildings new_src) ∧
    a_buildings new_tgt = a_buildings tgt_ant ++ [bid] ∧
    (a_x new_src, a_y new_src) = (a_x src_ant, a_y src_ant) ∧
    (a_x new_tgt, a_y new_tgt) = (a_x tgt_ant, a_y tgt_ant) ∧
    is_valid_antenna new_src bm = Some true ∧
    is_valid_antenna new_tgt bm = Some true.

(** The bookkeeping of the annealing loop: both recorded costs are the
    costs of the recorded solutions, and the best cost is at most the
    current cost. *)
Definition sa_consistent {F} (st : SAState F) : Prop :=
  sa_best_cost st = calculate_cost (sa_best st) ∧
  sa_current_cost st = calculate_cost (sa_current st) ∧
  sa_best_cost st ≤ sa_current_cost st.

(** The temperature after [k] iterations. *)
Definition cooled {F} `{FloatOps F} (cooling_rate : F) (k : nat) (temp : F) : F :=
  Nat.iter k (λ t, f_mul t cooling_rate) temp.

(** One iteration of the annealing loop, from [(st, g)] to [(st', g')]:
    the temperature is multiplied by the cooling rate once and the counter
    advances by one, whatever happens to the candidate.  No candidate: the
    current solution stays.  A candidate that costs less: it becomes
    current, with no draw.  Otherwise one number [r] is drawn and the
    candidate becomes current exactly when
    [r < exp(-delta / temp)]. *)
Definition metropolis_step {G F} `{FloatOps F, PyRandom G F} (bm : gmap Z Building)
    (cooling_rate : F) (st : SAState F) (g : G) (st' : SAState F) (g' : G) : Prop :=
  sa_temp st' = f_mul (sa_temp st) cooling_rate ∧
  sa_iteration st' = sa_iteration st + 1 ∧
  ∃ neighbor g1,
    random_neighbor (sa_current st) bm g = Some (neighbor, g1) ∧
    match neighbor with
    | None =>
        sa_current st' = sa_current st ∧
        sa_current_cost st' = sa_current_cost st ∧ g' = g1
    | Some n =>
        if decide (calculate_cost n - sa_current_cost st < 0) then
          sa_current st' = n ∧ sa_current_cost st' = calculate_cost n ∧ g' = g1
        else
          ∃ r, random_random g1 = (r, g') ∧
               if f_lt r (f_exp (f_div (f_of_Z (- (calculate_cost n - sa_current_cost st)))
                                       (sa_temp st)))
               then sa_current st' = n ∧ sa_current_cost st' = calculate_cost n
               else sa_current st' = sa_current st ∧
                    sa_current_cost st' = sa_current_cost st
    end.

(** Two generators, possibly of different kinds, are seeded alike: from
    states related by [rel] every operation of the [random] module returns
    the same value and leaves related states. *)
Record same_draws {G1 G2 F} (R1 : PyRandom G1 F) (R2 : PyRandom G2 F)
    (rel : G1 → G2 → Prop) : Prop := {
  same_random : ∀ g1 g2, rel g1 g2 →
    (random_random (PyRandom := R1) g1).1 = (random_random (PyRandom := R2) g2).1 ∧
    rel (random_random (PyRandom := R1) g1).2 (random_random (PyRandom := R2) g2).2;
  same_randbelow : ∀ n g1 g2, rel g1 g2 →
    (randbelow (PyRandom := R1) n g1).1 = (randbelow (PyRandom := R2) n g2).1 ∧
    rel (randbelow (PyRandom := R1) n g1).2 (randbelow (PyRandom := R2) n g2).2;
  same_shuffle : ∀ (A : Type) (l : list A) g1 g2, rel g1 g2 →
    (random_shuffle (PyRandom := R1) l g1).1 = (random_shuffle (PyRandom := R2) l g2).1 ∧
    rel (random_shuffle (PyRandom := R1) l g1).2 (random_shuffle (PyRandom := R2) l g2).2;
  same_sample : ∀ (A : Type) (l : list A) n g1 g2, rel g1 g2 →
    (random_sample (PyRandom := R1) l n g1).1 = (random_sample (PyRandom := R2) l n g2).1 ∧
    rel (random_sample (PyRandom := R1) l n g1).2 (random_sample (PyRandom := R2) l n g2).2
}.

(** Two computations agree: from related generator states both raise, or
    both return the same value and leave related states. *)
Definition same_result {G1 G2 A} (rel : G1 → G2 → Prop)
    (m1 : Rand G1 A) (m2 : Rand G2 A) : Prop :=
  ∀ g1 g2, rel g1 g2 →
    match m1 g1, m2 g2 with
    | Some (a1, g1'), Some (a2, g2') => a1 = a2 ∧ rel g1' g2'
    | None, None => True
    | _, _ => False
    end.

(** Two lists of moves that agree move by move and carry the same
    probabilities. *)
Definition same_moves {G1 G2 F} (rel : G1 → G2 → Prop)
    (ms1 : list (Move G1 * F)) (ms2 : list (Move G2 * F)) : Prop :=
  Forall2 (λ p1 p2, (∀ antennas bm, same_result rel (p1.1 antennas bm) (p2.1 antennas bm))
                    ∧ p1.2 = p2.2) ms1 ms2.

(** The state of phase 2: every uncovered id is in the map and its demand
    is at most 3500. *)
Definition low_demand (bm : gmap Z Building) (uncovered : gset Z) : Prop :=
  ∀ i, i ∈ uncovered → ∃ b, bm !! i = Some b ∧ get_max_pop b ≤ 3500.

(** The demands and the counts that the packing score divides are within
    the float range: every building of [ids] that the map knows has a
    demand of at least 0, and [ids] is no longer than a list can be. *)
Definition score_safe (bm : gmap Z Building) (ids : list Z) : Prop :=
  Z.of_nat (length ids) < 2 ^ 63 ∧
  ∀ bid b, bid ∈ ids → bm !! bid = Some b → 0 ≤ get_max_pop b.

(** The same for the set of uncovered ids of phase 2. *)
Definition demand_safe (bm : gmap Z Building) (uncovered : gset Z) : Prop :=
  Z.of_nat (size uncovered) < 2 ^ 63 ∧
  ∀ i b, i ∈ uncovered → bm !! i = Some b → 0 ≤ get_max_pop b.

(** ** The remaining functions of the two scripts *)

(** [solve_dataset]: construct, downgrade the types, and merge when the
    dataset has at most 5000 buildings.  The progress messages are left
    out. *)
Definition solve_dataset {G F} `{FloatOps F, PyRandom G F, SetOrder}
    (buildings : list Building) : Rand G (list Antenna) :=
  solution <~ solve_advanced buildings ;;
  solution <~ rlift (optimize_types solution buildings) ;;
  if decide (length buildings ≤ 5000)%nat
  then rlift (try_merge_antennas solution buildings)
  else rret solution.

(** [optimize_antenna_type]: the antenna with its type set to the cheapest
    valid one, or as it is when there is none.  The source writes the type
    into the antenna it was given and returns that antenna; this is the
    value returned. *)
Definition optimize_antenna_type (ant : Antenna) (bm : gmap Z Building)
  : option Antenna :=
  best_type ← get_cheapest_valid_type ant bm;
  match best_type with
  | Some best_type => Some (set_type best_type ant)
  | None => Some ant
  end.

(** ** Feasibility *)

(** The antenna passes the script's own check [is_valid_antenna]: it serves
    at least one building, within its capacity and its radius. *)
Definition valid_antenna (bm : gmap Z Building) (ant : Antenna) : Prop :=
  is_valid_antenna ant bm = Some true.

(** Every antenna of the solution is valid. *)
Definition all_valid (bm : gmap Z Building) (antennas : list Antenna) : Prop :=
  Forall (valid_antenna bm) antennas.

(** The laws of the environment that the results below name when they
    need them: a set is iterated over its own elements, each once; a sample
    is drawn from its population; a shuffle permutes its list. *)
Definition set_order_ok `{SetOrder} : Prop :=
  ∀ s : gset Z, NoDup (set_iter s) ∧ ∀ i, i ∈ set_iter s ↔ i ∈ s.

Definition sample_ok {G F} `{PyRandom G F} : Prop :=
  ∀ (l : list Z) (n : nat) (g : G), (random_sample l n g).1 ⊆ l.

Definition shuffle_ok {G F} `{PyRandom G F} : Prop :=
  ∀ (l : list Z) (g : G), (random_shuffle l g).1 ≡ₚ l.

(** No merge of [a1] and [a2] is admissible: their buildings are known,
    and a type that fits all of them at the site of [a1] or of [a2] costs at
    least as much as [a1] and [a2] together. *)
Definition unmergeable (bm : gmap Z Building) (a1 a2 : Antenna) : Prop :=
  ∃ blds,
    lookup_all bm (a_buildings a1 ++ a_buildings a2) = Some blds ∧
    ∀ t x y,
      (x, y) = (a_x a1, a_y a1) ∨ (x, y) = (a_x a2, a_y a2) →
      type_fits t x y blds →
      cost_on (a_type a1) + cost_on (a_type a2) ≤ cost_on t.

(** Some antenna of the solution uses an id that the map does not have. *)
Definition unknown_id (bm : gmap Z Building) (antennas : list Antenna) : Prop :=
  ∃ ant bid, ant ∈ antennas ∧ bid ∈ a_buildings ant ∧ bm !! bid = None.

(** [res] serves the building ids of [antennas], each as often, and is
    valid when [antennas] is. *)
Definition keeps_feasible (bm : gmap Z Building) (antennas res : list Antenna) : Prop :=
  assigned res ≡ₚ assigned antennas ∧
  (all_valid bm antennas → all_valid bm res).

(** Two more laws of the generator: an index drawn below [n] is below [n],
    and a shuffle permutes a list of indices. *)
Definition randbelow_ok {G F} `{PyRandom G F} : Prop :=
  ∀ (n : nat) (g : G), (0 < n)%nat → ((randbelow n g).1 < n)%nat.

Definition shuffle_indices_ok {G F} `{PyRandom G F} : Prop :=
  ∀ (l : list nat) (g : G), (random_shuffle l g).1 ≡ₚ l.

(** Two buildings 40 apart, for the relocation example: an antenna at
    [(200, 0)] serves both only as a MaxRange antenna. *)
Definition near_pair_buildings : list Building :=
  [mkBuilding 1 0 0 100 80 60; mkBuilding 3 40 0 50 70 100].

(** A building of demand 100 and, 500 away, one of demand 6000, above
    every capacity. *)
Definition tower_town : list Building :=
  [mkBuilding 1 0 0 100 80 60; mkBuilding 2 500 0 6000 5200 4100].

(** ** Where the floats of the annealing script stay in range *)

(** Every building of the map lies within [bound] of the origin on both
    axes, and so does every antenna of the list. *)
Definition within_box (bm : gmap Z Building) (bound : Z) : Prop :=
  ∀ bid b, bm !! bid = Some b → Z.abs (b_x b) ≤ bound ∧ Z.abs (b_y b) ≤ bound.

Definition antennas_within (antennas : list Antenna) (bound : Z) : Prop :=
  ∀ ant, ant ∈ antennas → Z.abs (a_x ant) ≤ bound ∧ Z.abs (a_y ant) ≤ bound.

(** [math.exp(-delta / temp)] does not raise for a cost increase [delta]
    that converts to a float and a temperature above [min_temp]: the law
    of Python's floats for a [min_temp] of at least 0, where the quotient is
    at most 0 and its exponential at most 1. *)
Definition acceptance_ok {F} `{FloatOps F, FloatErrors F} (min_temp : F) : Prop :=
  ∀ (delta : Z) (temp : F),
    0 ≤ delta < 2 ^ 1023 → f_lt min_temp temp = true →
    exp_div_raises delta temp = false.

(** * Properties *)

(** ** Reading a computation in [Rand] *)

Lemma rbind_Some {G A B} (m : Rand G A) (k : A → Rand G B) g b g' :
  rbind m k g = Some (b, g') ↔ ∃ a g1, m g = Some (a, g1) ∧ k a g1 = Some (b, g').
Proof.
  unfold rbind. destruct (m g) as [[a g1]|]; split.
  - intros Hk. by exists a, g1.
  - by intros (? & ? & [= <- <-] & ?).
  - done.
  - by intros (? & ? & ? & _).
Qed.

Lemma rret_Some {G A} (a b : A) (g g' : G) :
  rret a g = Some (b, g') ↔ a = b ∧ g = g'.
Proof. unfold rret. naive_solver. Qed.

Lemma rlift_Some {G A} (o : option A) (b : A) (g g' : G) :
  rlift o g = Some (b, g') ↔ o = Some b ∧ g = g'.
Proof. unfold rlift. destruct o; naive_solver. Qed.

Lemma rdraw_Some {G A} (d : G → A * G) (b : A) (g g' : G) :
  rdraw d g = Some (b, g') ↔ d g = (b, g').
Proof. unfold rdraw. split; [by intros [= ->]|by intros ->]. Qed.

(** Splits every hypothesis [m g = Some _] along the binds of [m]. *)
Ltac rand_inv :=
  repeat match goal with
  | H : rbind _ _ _ = Some _ |- _ =>
      let H1 := fresh "Hstep" in apply rbind_Some in H as (? & ? & H1 & H)
  | H : rlift _ _ = Some _ |- _ =>
      let Hg := fresh in apply rlift_Some in H as [H Hg]; try subst
  | H : rret _ _ = Some _ |- _ =>
      let Hg := fresh in apply rret_Some in H as [H Hg]; try subst
  | H : rdraw _ _ = Some _ |- _ => apply rdraw_Some in H
  end.

Lemma random_choice_elem_of {G F A} `{PyRandom G F} (l : list A) x (g g' : G) :
  random_choice l g = Some (x, g') → x ∈ l.
Proof.
  unfold random_choice. destruct l as [|y l].
  - by intros [? _]%rlift_Some.
  - intros Hc. rand_inv. by eapply list_elem_of_lookup_2.
Qed.

(** ** Shared facts on lists of buildings and antennas *)

Lemma head_filter_elem {A} (P : A → Prop) `{!∀ x, Decision (P x)} (l : list A) x :
  head (filter P l) = Some x → x ∈ l ∧ P x.
Proof. intros Hh%head_Some_elem_of. by apply list_elem_of_filter in Hh as [? ?]. Qed.

Lemma elem_of_without_indices skip antennas a :
  a ∈ without_indices skip antennas ↔ ∃ k, antennas !! k = Some a ∧ k ∉ skip.
Proof.
  unfold without_indices. rewrite list_elem_of_omap.
  setoid_rewrite elem_of_lookup_imap. split.
  - intros (o & (k & a' & -> & Hk) & Ho). simpl in Ho.
    destruct (decide (k ∈ skip)); simplify_eq. by exists k.
  - intros (k & Hk & Hskip). exists (Some a). split; [|done].
    exists k, a. by rewrite decide_False.
Qed.

Lemma elem_of_indices_with_more_than n antennas i :
  i ∈ indices_with_more_than n antennas ↔
  ∃ a, antennas !! i = Some a ∧ (n < length (a_buildings a))%nat.
Proof.
  unfold indices_with_more_than. rewrite list_elem_of_omap.
  setoid_rewrite elem_of_lookup_imap. split.
  - intros (o & (k & a & -> & Hk) & Ho). simpl in Ho.
    destruct (decide (n < length (a_buildings a))%nat); simplify_eq. by exists a.
  - intros (a & Hi & Hn). exists (Some i). split; [|done].
    exists i, a. by rewrite decide_True.
Qed.

(** ** The rounded quotient *)

Lemma quot_log2_lt (a b n : Z) :
  0 < a → 0 < b → 0 ≤ n → a < 2 ^ n * b → quot_log2 a b < n.
Proof.
  intros Ha Hb Hn Hlt. unfold quot_log2.
  destruct (Z.log2_spec a Ha) as [Hla _], (Z.log2_spec b Hb) as [_ Hlb].
  pose proof (Z.log2_nonneg a). pose proof (Z.log2_nonneg b).
  assert (Z.log2 a - Z.log2 b ≤ n) as He.
  { destruct (decide (Z.log2 a - Z.log2 b ≤ n)) as [|Hgt]; [done|]. exfalso.
    assert (2 ^ (n + Z.succ (Z.log2 b)) ≤ 2 ^ Z.log2 a)
      by (apply Z.pow_le_mono_r; lia).
    rewrite Z.pow_add_r in * by lia. nia. }
  destruct (decide _) as [|Hge]; [lia|].
  destruct (decide (Z.log2 a - Z.log2 b < n)) as [|Heq]; [done|]. exfalso.
  assert (Z.log2 a - Z.log2 b = n) as Hen by lia. rewrite Hen in Hge.
  rewrite Z.max_l, Z.max_r in Hge by lia. rewrite Z.pow_0_r in Hge. lia.
Qed.

(** A quotient below [2 ^ 1023] in absolute value is within the float
    range. *)
Lemma true_div_defined (a b : Z) :
  b ≠ 0 → Z.abs a < 2 ^ 1023 * Z.abs b → true_div_raises a b = false.
Proof.
  intros Hb Hlt. unfold true_div_raises.
  rewrite bool_decide_eq_false_2 by done. simpl.
  destruct (decide (a = 0)) as [->|Ha]; [done|].
  rewrite bool_decide_eq_true_2 by done. simpl.
  apply bool_decide_eq_false_2. apply Z.lt_nge.
  set (n := Z.abs a) in *. set (d := Z.abs b) in *.
  assert (0 < n) as Hn by (unfold n; lia). assert (0 < d) as Hd by (unfold d; lia).
  pose proof (quot_log2_lt n d 1023 Hn Hd ltac:(lia) Hlt) as He.
  unfold rounded_quot. cbn [fst snd].
  set (s := 52 - quot_log2 n d) in *.
  destruct (decide (0 < s)) as [Hs|Hs].
  { rewrite (Z.pow_neg_r 2 (- s)) by lia. rewrite Z.mul_0_r. by apply Z.pow_pos_nonneg. }
  rewrite (Z.max_l 0 s), (Z.max_r 0 (- s)), Z.pow_0_r, Z.mul_1_r by lia.
  set (t := 2 ^ (- s)).
  assert (0 < t) as Ht by (apply Z.pow_pos_nonneg; lia).
  assert (t ≤ 2 ^ 970) as Ht' by (apply Z.pow_le_mono_r; lia).
  pose proof (Z.mul_div_le n (d * t) ltac:(nia)) as Hm0.
  assert (n `div` (d * t) * t < 2 ^ 1023) as Hq by nia.
  assert (2 ^ 1024 = 2 ^ 1023 + 2 ^ 1023) as -> by (by vm_compute).
  assert (2 ^ 970 ≤ 2 ^ 1023) by (by vm_compute).
  destruct (decide _); nia.
Qed.



(** ** The spatial index *)

Lemma grid_get_insert g c ids c' :
  grid_get (<[c := ids]> g) c' = if decide (c = c') then ids else grid_get g c'.
Proof.
  unfold grid_get. rewrite lookup_insert. by case_decide.
Qed.

Lemma grid_add_Some cs g b :
  cs ≠ 0 →
  grid_add cs (Some g) b =
    Some (<[cell_of cs b := grid_get g (cell_of cs b) ++ [b_id b]]> g).
Proof.
  intros Hcs. unfold grid_add, floordiv, cell_of. simpl.
  by destruct (decide (cs = 0)).
Qed.

Lemma grid_fold_cells cs bs : ∀ g0,
  cs ≠ 0 →
  ∃ g, foldl (grid_add cs) (Some g0) bs = Some g ∧
       ∀ c, grid_get g c = grid_get g0 c ++ (b_id <$> filter (λ b, cell_of cs b = c) bs).
Proof.
  induction bs as [|b bs IH]; intros g0 Hcs.
  - exists g0. split; [done|]. intros c. simpl. by rewrite app_nil_r.
  - cbn [foldl]. rewrite grid_add_Some by done.
    destruct (IH (<[cell_of cs b := grid_get g0 (cell_of cs b) ++ [b_id b]]> g0) Hcs)
      as (g & Hg & Hget).
    exists g. split; [done|]. intros c. rewrite Hget, grid_get_insert.
    rewrite filter_cons.
    destruct (decide (cell_of cs b = c)) as [->|Hc].
    + by rewrite <- app_assoc.
    + done.
Qed.

Lemma mk_bmap_fold bs : ∀ (m0 : gmap Z Building) i,
  foldl (λ m b, <[b_id b := b]> m) m0 bs !! i =
    match last (filter (λ b, b_id b = i) bs) with
    | Some b => Some b
    | None => m0 !! i
    end.
Proof.
  induction bs as [|b bs IH]; intros m0 i; simpl; [done|].
  rewrite IH, filter_cons. case_decide as Hi.
  - rewrite last_cons. destruct (last _); [done|].
    subst. by rewrite lookup_insert_eq.
  - destruct (last _); [done|]. by rewrite lookup_insert_ne.
Qed.

Lemma mk_bmap_lookup_Some bs i b :
  mk_bmap bs !! i = Some b → b ∈ bs ∧ b_id b = i.
Proof.
  unfold mk_bmap. rewrite mk_bmap_fold, lookup_empty.
  destruct (last _) as [b'|] eqn:Hl; [|done]. intros [= ->].
  apply last_Some_elem_of in Hl. by apply list_elem_of_filter in Hl as [? ?].
Qed.

Lemma mk_bmap_is_Some bs b :
  b ∈ bs → is_Some (mk_bmap bs !! b_id b).
Proof.
  intros Hb. unfold mk_bmap. rewrite mk_bmap_fold.
  destruct (last _) as [b'|] eqn:Hl; [by eexists|].
  apply last_None in Hl.
  assert (b ∈ filter (λ b0, b_id b0 = b_id b) bs) as Hin
    by (by apply list_elem_of_filter).
  rewrite Hl in Hin. by apply elem_of_nil in Hin.
Qed.

Lemma mk_bmap_lookup bs b :
  NoDup (b_id <$> bs) → b ∈ bs → mk_bmap bs !! b_id b = Some b.
Proof.
  intros Hnd Hb. destruct (mk_bmap_is_Some bs b Hb) as [b' Hb'].
  rewrite Hb'. f_equal.
  apply mk_bmap_lookup_Some in Hb' as [Hin Hid].
  apply list_elem_of_lookup in Hb as [j Hj], Hin as [k Hk].
  assert (j = k) as ->.
  { eapply NoDup_lookup; [done| |]; rewrite list_lookup_fmap.
    - by rewrite Hj.
    - rewrite Hk. simpl. by rewrite Hid. }
  congruence.
Qed.

Lemma scan_cell_spec (bm : gmap Z Building) (x y r2 : Z) (exclude : gset Z)
    (bids : list Z) :
  (∀ i, i ∈ bids → is_Some (bm !! i)) →
  ∃ res, scan_cell bm x y r2 exclude bids = Some res ∧
         res `sublist_of` bids ∧
         ∀ i, i ∈ res ↔ i ∈ bids ∧ in_reach bm x y r2 exclude i.
Proof.
  unfold in_reach.
  induction bids as [|bid rest IH]; intros Hdom.
  - exists []. split_and!; [done|done|]. intros i. set_solver.
  - destruct IH as (res & Hres & Hsub & Hmem).
    { intros i Hi. apply Hdom. by right. }
    cbn [scan_cell]. rewrite Hres.
    destruct (decide (bid ∈ exclude)) as [Hex|Hex].
    + exists res. split_and!; [done|by constructor|].
      intros i. rewrite Hmem, elem_of_cons. naive_solver.
    + destruct (Hdom bid) as [b Hb]; [by left|]. rewrite Hb. simpl.
      destruct (decide (dist_sq x y (b_x b) (b_y b) ≤ r2)) as [Hd|Hd].
      * exists (bid :: res). split_and!; [done|by constructor|].
        intros i. rewrite !elem_of_cons, Hmem. naive_solver.
      * exists res. split_and!; [done|by constructor|].
        intros i. rewrite Hmem, elem_of_cons. naive_solver.
Qed.






Lemma scan_window (bm : gmap Z Building) (x y r2 : Z) (exclude : gset Z)
    (g : gmap (Z * Z) (list Z)) (cells : list (Z * Z)) :
  (∀ c i, i ∈ grid_get g c → is_Some (bm !! i)) →
  ∃ per_cell,
    mapM (λ cell, scan_cell bm x y r2 exclude (grid_get g cell)) cells = Some per_cell ∧
    concat per_cell `sublist_of` (cells ≫= grid_get g) ∧
    ∀ i, i ∈ concat per_cell ↔
         ∃ c, c ∈ cells ∧ i ∈ grid_get g c ∧ in_reach bm x y r2 exclude i.
Proof.
  intros Hdom. induction cells as [|c cells IH].
  - exists []. split_and!; [done|done|]. intros i. simpl. set_solver.
  - destruct IH as (rest & Hrest & Hsub & Hmem).
    destruct (scan_cell_spec bm x y r2 exclude (grid_get g c) (Hdom c))
      as (res & Hres & Hsubc & Hmemc).
    exists (res :: rest). split_and!.
    + cbn. rewrite Hres, Hrest. done.
    + cbn. by apply sublist_app.
    + intros i. cbn [concat]. rewrite elem_of_app, Hmemc, Hmem.
      setoid_rewrite elem_of_cons. naive_solver.
Qed.

Lemma grid_get_empty c : grid_get ∅ c = [].
Proof. unfold grid_get. by rewrite lookup_empty. Qed.

Lemma elem_of_cell_ids cs (bs : list Building) c i :
  i ∈ b_id <$> filter (λ b, cell_of cs b = c) bs ↔
  ∃ b, b ∈ bs ∧ b_id b = i ∧ cell_of cs b = c.
Proof.
  rewrite list_elem_of_fmap. setoid_rewrite list_elem_of_filter. naive_solver.
Qed.



(** ** Where the annealing moves put antennas *)

Lemma sa_merge_pairs_Some bm antennas pairs res :
  sa_merge_pairs bm antennas pairs = Some (Some res) →
  ∃ i j, (i < j)%nat ∧ sa_merge_pair bm antennas i j = Some (Some res).
Proof.
  induction pairs as [|[i j] pairs IH]; simpl; [done|].
  destruct (decide (j ≤ i)%nat); [done|].
  destruct (sa_merge_pair bm antennas i j) as [[r|]|] eqn:Hp; simpl; [|done..].
  intros [= <-]. exists i, j. split; [lia|done].
Qed.

Lemma elem_of_sa_merge_candidates a1 a2 c :
  c ∈ sa_merge_candidates a1 a2 →
  c.1 ∈ [(a_x a1, a_y a1); (a_x a2, a_y a2);
         ((a_x a1 + a_x a2) `div` 2, (a_y a1 + a_y a2) `div` 2)].
Proof.
  unfold sa_merge_candidates. rewrite list_elem_of_bind.
  intros (pos & Hc & Hpos). apply list_elem_of_bind in Hc as (atype & Hc & _).
  apply list_elem_of_singleton in Hc as ->. done.
Qed.

Lemma sa_merge_pair_Some bm antennas i j res :
  sa_merge_pair bm antennas i j = Some (Some res) →
  ∃ a1 a2 blds c,
    antennas !! i = Some a1 ∧ antennas !! j = Some a2 ∧
    lookup_all bm (a_buildings a1 ++ a_buildings a2) = Some blds ∧
    c ∈ sa_merge_candidates a1 a2 ∧
    total_pop_of blds ≤ capacity c.2 ∧
    all_in_range c.1.1 c.1.2 (range_of c.2) blds = true ∧
    res = without_indices [i; j] antennas
            ++ [mkAntenna c.2 c.1.1 c.1.2 (a_buildings a1 ++ a_buildings a2)].
Proof.
  unfold sa_merge_pair.
  destruct (antennas !! i) as [a1|]; [|done].
  destruct (antennas !! j) as [a2|]; [|done]. simpl.
  destruct (dist_gt _ _ _ _ _) as [[|]|]; [done| |done]. simpl.
  destruct (lookup_all _ _) as [blds|] eqn:Hblds; [|done]. simpl.
  destruct (head _) as [c|] eqn:Hc; [|done]. simpl. intros [= <-].
  apply head_filter_elem in Hc as [Hin Hok].
  apply andb_prop_elim in Hok as [Hcap Hrange].
  apply bool_decide_unpack in Hcap. apply Is_true_eq_true in Hrange.
  by exists a1, a2, blds, c.
Qed.

Lemma without_indices_on_building bm skip antennas :
  Forall (on_building bm) antennas →
  Forall (on_building bm) (without_indices skip antennas).
Proof.
  rewrite !Forall_forall. intros Hall a (k & Hk & _)%elem_of_without_indices.
  apply Hall. by eapply list_elem_of_lookup_2.
Qed.

(** C2, as the code has it.  [merge_antennas] takes out the antennas at two
    indices [i < j] and appends one antenna: it serves the buildings of
    the two and sits at the position of one of these two or at the floored
    midpoint of these two.  [split_antenna] takes out the antenna at one
    index and appends two antennas, which share its shuffled buildings and
    each sit at the floored centroid of their own buildings.  Every other
    antenna is kept as it was, on a building. *)
Theorem merge_split_positions {G F} `{PyRandom G F} (antennas : list Antenna)
    (bm : gmap Z Building) (g g' : G) (res : list Antenna) :
  Forall (on_building bm) antennas →
  (merge_antennas antennas bm g = Some (Some res, g') →
   ∃ i j a1 a2 merged,
     (i < j)%nat ∧ antennas !! i = Some a1 ∧ antennas !! j = Some a2 ∧
     res = without_indices [i; j] antennas ++ [merged] ∧
     Forall (on_building bm) (without_indices [i; j] antennas) ∧
     a_buildings merged = a_buildings a1 ++ a_buildings a2 ∧
     (a_x merged, a_y merged) ∈
       [(a_x a1, a_y a1); (a_x a2, a_y a2);
        ((a_x a1 + a_x a2) `div` 2, (a_y a1 + a_y a2) `div` 2)]) ∧
  (split_antenna antennas bm g = Some (Some res, g') →
   ∃ idx ant ant1 ant2 g1,
     antennas !! idx = Some ant ∧
     res = without_indices [idx] antennas ++ [ant1; ant2] ∧
     Forall (on_building bm) (without_indices [idx] antennas) ∧
     a_buildings ant1 ++ a_buildings ant2 = (random_shuffle (a_buildings ant) g1).1 ∧
     at_centroid bm ant1 ∧ at_centroid bm ant2).
Proof.
  intros Hall. split.
  - unfold merge_antennas. destruct (decide _); [by intros [? _]%rret_Some|].
    intros Hm. rand_inv.
    apply sa_merge_pairs_Some in Hm as (i & j & Hij & Hm).
    apply sa_merge_pair_Some in Hm
      as (a1 & a2 & blds & c & Hi & Hj & _ & Hc & _ & _ & ->).
    exists i, j, a1, a2. eexists. split_and!; [done|done|done|done| |done|].
    + by apply without_indices_on_building.
    + simpl. apply elem_of_sa_merge_candidates in Hc. by destruct c as [[? ?] ?].
  - unfold split_antenna.
    destruct (indices_with_more_than 1 antennas); [by intros [? _]%rret_Some|].
    intros Hs. rand_inv.
    repeat match goal with
    | H : context [match ?o with Some _ => _ | None => _ end] |- _ => destruct o
    end; rand_inv; simplify_eq.
    match goal with
    | Hi : antennas !! ?idx = Some ?ant, Hd : random_shuffle _ ?g1 = _ |- _ =>
        exists idx, ant; eexists _, _, g1; split_and!; [done|done| | | |]
    end.
    + by apply without_indices_on_building.
    + unfold set_type. cbn [a_buildings]. rewrite take_drop.
      match goal with Hd : random_shuffle _ _ = _ |- _ => by rewrite Hd end.
    + by eexists.
    + by eexists.
Qed.

Lemma far_pair_on_buildings :
  Forall (on_building (mk_bmap far_pair_buildings)) far_pair.
Proof.
  repeat constructor.
  - exists 1, (mkBuilding 1 0 0 100 80 60). by vm_compute.
  - exists 2, (mkBuilding 2 800 0 90 100 10). by vm_compute.
Qed.

Lemma merge_far_pair :
  merge_antennas (H := first_choice_random) far_pair (mk_bmap far_pair_buildings) tt
  = Some (Some [mkAntenna MaxRange 400 0 [1; 2]], tt).
Proof. by vm_compute. Qed.

Lemma merge_split_positions_witness :
  ∃ i j a1 a2 merged,
    (i < j)%nat ∧ far_pair !! i = Some a1 ∧ far_pair !! j = Some a2 ∧
    [mkAntenna MaxRange 400 0 [1; 2]] = without_indices [i; j] far_pair ++ [merged] ∧
    Forall (on_building (mk_bmap far_pair_buildings))
           (without_indices [i; j] far_pair) ∧
    a_buildings merged = a_buildings a1 ++ a_buildings a2 ∧
    (a_x merged, a_y merged) ∈
      [(a_x a1, a_y a1); (a_x a2, a_y a2);
       ((a_x a1 + a_x a2) `div` 2, (a_y a1 + a_y a2) `div` 2)].
Proof.
  apply (proj1 (merge_split_positions (H := first_choice_random) far_pair
                  (mk_bmap far_pair_buildings) tt tt
                  [mkAntenna MaxRange 400 0 [1; 2]] far_pair_on_buildings)).
  vm_compute. reflexivity.
Defined.

(** C2 as stated fails: two antennas on buildings 800 apart are merged
    into one antenna at the midpoint [(400, 0)], where no building is. *)
Lemma merge_invents_site :
  ¬ (∀ (G F : Type) (R : PyRandom G F) (antennas : list Antenna)
       (bm : gmap Z Building) (g g' : G) (res : list Antenna),
       Forall (on_building bm) antennas →
       (merge_antennas antennas bm g = Some (Some res, g') →
        Forall (on_building bm) res) ∧
       (split_antenna antennas bm g = Some (Some res, g') →
        Forall (on_building bm) res)).
Proof.
  intros Hclaim.
  destruct (Hclaim unit Z first_choice_random far_pair (mk_bmap far_pair_buildings)
              tt tt [mkAntenna MaxRange 400 0 [1; 2]] far_pair_on_buildings)
    as [Hmerge _].
  specialize (Hmerge merge_far_pair).
  apply Forall_cons in Hmerge as [(i & b & Hb & Hx & _) _].
  apply mk_bmap_lookup_Some in Hb as [Hb _]. simpl in Hx.
  unfold far_pair_buildings in Hb.
  repeat (apply elem_of_cons in Hb as [->|Hb]; [simpl in Hx; lia|]).
  by apply elem_of_nil in Hb.
Qed.

(** The split of one antenna over three buildings in a row puts its second
    half at [(20, 0)], between the buildings at 10 and 30. *)
Lemma split_row_antenna :
  split_antenna (H := first_choice_random) row_antenna (mk_bmap row_buildings) tt
  = Some (Some [mkAntenna Nano 0 0 [1]; mkAntenna Nano 20 0 [2; 3]], tt).
Proof. by vm_compute. Qed.

(** ** The type downgrade *)

Lemma all_in_range_Forall x y r blds :
  all_in_range x y r blds = true ↔
  Forall (λ b, dist_sq x y (b_x b) (b_y b) ≤ r ^ 2) blds.
Proof.
  unfold all_in_range. rewrite forallb_forall, Forall_forall.
  setoid_rewrite <- list_elem_of_In.
  split; intros Hall b Hb; specialize (Hall b Hb).
  - by apply bool_decide_eq_true in Hall.
  - by apply bool_decide_eq_true.
Qed.

Lemma downgrade_step_spec ant blds acc t :
  let acc' := downgrade_step ant blds (total_pop_of blds) acc t in
  acc'.2 ≤ acc.2 ∧
  (type_fits t (a_x ant) (a_y ant) blds → acc'.2 ≤ cost_on t) ∧
  (acc' = acc ∨
   (type_fits t (a_x ant) (a_y ant) blds ∧ acc' = (t, cost_on t) ∧ cost_on t < acc.2)).
Proof.
  unfold downgrade_step, type_fits. simpl.
  destruct (decide (capacity t < total_pop_of blds)) as [Hcap|Hcap].
  { split_and!; [lia|intros [? _]; lia|by left]. }
  destruct (all_in_range _ _ _ _) eqn:Hr; simpl.
  - apply all_in_range_Forall in Hr.
    destruct (bool_decide_reflect (cost_on t < acc.2)) as [Hc|Hc]; simpl.
    + split_and!; [lia|lia|]. right. split_and!; [lia|done..].
    + split_and!; [lia|lia|by left].
  - split_and!; [lia| |by left].
    intros [_ Hall]. apply all_in_range_Forall in Hall. congruence.
Qed.

Lemma downgrade_fold_spec ant blds types : ∀ acc,
  let acc' := foldl (downgrade_step ant blds (total_pop_of blds)) acc types in
  acc'.2 ≤ acc.2 ∧
  (∀ t, t ∈ types → type_fits t (a_x ant) (a_y ant) blds → acc'.2 ≤ cost_on t) ∧
  (acc' = acc ∨
   (type_fits acc'.1 (a_x ant) (a_y ant) blds ∧ acc'.2 = cost_on acc'.1 ∧ acc'.2 < acc.2)).
Proof.
  induction types as [|t types IH]; intros acc; simpl.
  { split_and!; [lia|by intros ? ?%elem_of_nil|by left]. }
  destruct (downgrade_step_spec ant blds acc t) as (Hle1 & Hfit1 & Hcase1).
  destruct (IH (downgrade_step ant blds (total_pop_of blds) acc t))
    as (Hle & Hfit & Hcase).
  split_and!.
  - lia.
  - intros t' [->|Ht']%elem_of_cons Hf.
    + specialize (Hfit1 Hf). lia.
    + by apply Hfit.
  - destruct Hcase as [->|(? & ? & ?)].
    + destruct Hcase1 as [->|(? & -> & ?)]; [by left|]. right. by simpl.
    + right. split_and!; [done..|lia].
Qed.

Lemma optimize_one_downgraded bm ant ant' :
  optimize_one bm ant = Some ant' → downgraded bm ant ant'.
Proof.
  unfold optimize_one, downgraded.
  destruct (lookup_all bm (a_buildings ant)) as [blds|] eqn:Hblds; [|done].
  simpl. intros [= <-]. simpl. split_and!; [done..|]. exists blds.
  destruct (downgrade_fold_spec ant blds [Nano; Spot; MaxRange; Density]
              (a_type ant, cost_on (a_type ant))) as (Hle & Hfit & Hcase).
  simpl in Hle, Hfit, Hcase.
  assert (∀ acc : AntennaType * Z,
            (acc = (a_type ant, cost_on (a_type ant)) ∨
             type_fits acc.1 (a_x ant) (a_y ant) blds ∧ acc.2 = cost_on acc.1
             ∧ acc.2 < cost_on (a_type ant)) → acc.2 = cost_on acc.1) as Hcost.
  { intros acc [->|(_ & ? & _)]; done. }
  specialize (Hcost _ Hcase).
  split_and!; [done| | |].
  - by rewrite <- Hcost.
  - intros t Ht. rewrite <- Hcost. apply Hfit; [|done].
    destruct t; set_solver.
  - destruct Hcase as [->|(? & ? & ?)]; [by left|]. right. split; [done|lia].
Qed.

Lemma downgraded_cost bm solution result :
  Forall2 (downgraded bm) solution result →
  calculate_cost result ≤ calculate_cost solution.
Proof.
  induction 1 as [|ant ant' solution result Hd _ IH]; simpl; [lia|].
  destruct Hd as (_ & _ & _ & blds & _ & Hle & _). lia.
Qed.

Lemma lookup_all_is_Some (bm : gmap Z Building) bids :
  is_Some (lookup_all bm bids) ↔ ∀ bid, bid ∈ bids → is_Some (bm !! bid).
Proof.
  unfold lookup_all. by rewrite mapM_is_Some, Forall_forall.
Qed.

(** [optimize_types] raises only on an id that is missing from the dataset. *)
Lemma optimize_types_returns solution buildings :
  (∀ ant bid, ant ∈ solution → bid ∈ a_buildings ant →
              is_Some (mk_bmap buildings !! bid)) →
  is_Some (optimize_types solution buildings).
Proof.
  intros Hdom. unfold optimize_types.
  apply mapM_is_Some, Forall_forall. intros ant Hant. simpl.
  unfold optimize_one.
  destruct (proj2 (lookup_all_is_Some (mk_bmap buildings) (a_buildings ant)))
    as [blds ->]; [intros bid Hbid; by eapply Hdom|]. by eexists.
Qed.

(** C4. When [optimize_types] returns, the result lists the same antennas
    in the same order, each with its position and building list unchanged;
    the new type costs no more than the old one and no more than any type
    whose capacity and radius fit the assigned buildings, and it is either
    the old type or a fitting, strictly cheaper one.  The total cost of the
    solution does not increase. *)
Theorem optimize_types_downgrade (solution result : list Antenna)
    (buildings : list Building) :
  optimize_types solution buildings = Some result →
  Forall2 (downgraded (mk_bmap buildings)) solution result ∧
  calculate_cost result ≤ calculate_cost solution.
Proof.
  unfold optimize_types. intros Hres%mapM_Some.
  assert (Forall2 (downgraded (mk_bmap buildings)) solution result) as Hd.
  { eapply Forall2_impl; [exact Hres|]. apply optimize_one_downgraded. }
  split; [done|]. by eapply downgraded_cost.
Qed.

Lemma optimize_types_downgrade_witness :
  Forall2 (downgraded (mk_bmap village))
    [mkAntenna Density 0 0 [1; 2]; mkAntenna MaxRange 400 0 [3]]
    [mkAntenna Nano 0 0 [1; 2]; mkAntenna Nano 400 0 [3]] ∧
  calculate_cost [mkAntenna Nano 0 0 [1; 2]; mkAntenna Nano 400 0 [3]]
  ≤ calculate_cost [mkAntenna Density 0 0 [1; 2]; mkAntenna MaxRange 400 0 [3]].
Proof.
  apply (optimize_types_downgrade _ _ village). vm_compute. reflexivity.
Defined.

(** ** Merging in [try_merge_antennas] *)

Lemma calculate_cost_app l1 l2 :
  calculate_cost (l1 ++ l2) = calculate_cost l1 + calculate_cost l2.
Proof. induction l1 as [|a l1 IH]; simpl; lia. Qed.

Lemma assigned_app l1 l2 : assigned (l1 ++ l2) = assigned l1 ++ assigned l2.
Proof. unfold assigned. by rewrite fmap_app, concat_app. Qed.

Lemma assigned_cons a l : assigned (a :: l) = a_buildings a ++ assigned l.
Proof. done. Qed.

Lemma elem_of_merge_candidates a1 a2 c :
  c ∈ merge_candidates a1 a2 →
  c.1 = (a_x a1, a_y a1) ∨ c.1 = (a_x a2, a_y a2).
Proof.
  unfold merge_candidates. rewrite list_elem_of_bind.
  intros (pos & Hc & Hpos). apply list_elem_of_bind in Hc as (atype & Hc & _).
  apply list_elem_of_singleton in Hc as ->. simpl. set_solver.
Qed.

Lemma try_pair_Some bm a1 a2 m :
  try_pair bm a1 a2 = Some (Some m) →
  ∃ blds,
    ((a_x m, a_y m) = (a_x a1, a_y a1) ∨ (a_x m, a_y m) = (a_x a2, a_y a2)) ∧
    a_buildings m = a_buildings a1 ++ a_buildings a2 ∧
    lookup_all bm (a_buildings m) = Some blds ∧
    type_fits (a_type m) (a_x m) (a_y m) blds ∧
    cost_on (a_type m) < cost_on (a_type a1) + cost_on (a_type a2).
Proof.
  unfold try_pair.
  destruct (lookup_all _ _) as [blds|] eqn:Hblds; [|done]. simpl.
  destruct (head _) as [[[px py] atype]|] eqn:Hc; [|done]. simpl. intros [= <-].
  apply head_filter_elem in Hc as [Hin Hok]. unfold merge_admissible in Hok.
  apply andb_prop_elim in Hok as [Hok Hcost].
  apply andb_prop_elim in Hok as [Hcap Hrange].
  apply bool_decide_unpack in Hcap, Hcost.
  apply Is_true_eq_true, all_in_range_Forall in Hrange.
  apply elem_of_merge_candidates in Hin. simpl in *.
  exists blds. by split_and!.
Qed.

Lemma merge_in_place pre a1 mid a2 post (m : Antenna) :
  delete (length pre + 1 + length mid)%nat
         (<[length pre := m]> (pre ++ a1 :: mid ++ a2 :: post))
  = pre ++ m :: mid ++ post.
Proof.
  replace (length pre) with (length pre + 0)%nat at 2 by lia.
  rewrite insert_app_r. simpl.
  replace (pre ++ m :: mid ++ a2 :: post) with ((pre ++ m :: mid) ++ a2 :: post)
    by (by rewrite <- app_assoc).
  replace (length pre + 1 + length mid)%nat with (length (pre ++ m :: mid))
    by (rewrite length_app; simpl; lia).
  rewrite delete_middle. by rewrite <- app_assoc.
Qed.

Lemma merge_scan_j_Some bm pre a1 tail : ∀ mid j l',
  j = (length pre + 1 + length mid)%nat →
  merge_scan_j bm (pre ++ a1 :: mid ++ tail) (length pre) a1 j tail = Some (Some l') →
  ∃ mid' a2 post m,
    pre ++ a1 :: mid ++ tail = pre ++ a1 :: mid' ++ a2 :: post ∧
    try_pair bm a1 a2 = Some (Some m) ∧
    l' = pre ++ m :: mid' ++ post.
Proof.
  induction tail as [|a2 tail IH]; intros mid j l' Hj; simpl; [done|].
  destruct (try_pair bm a1 a2) as [[m|]|] eqn:Hp; simpl; [| |done].
  - intros [= <-]. exists mid, a2, tail, m. split_and!; [done..|].
    subst j. apply merge_in_place.
  - intros Hscan.
    replace (pre ++ a1 :: mid ++ a2 :: tail)
      with (pre ++ a1 :: (mid ++ [a2]) ++ tail) in *
      by (by rewrite <- (app_assoc mid)).
    apply IH in Hscan; [done|]. rewrite length_app. simpl. lia.
Qed.

Lemma merge_scan_i_Some bm tail : ∀ pre l',
  merge_scan_i bm (pre ++ tail) (length pre) tail = Some (Some l') →
  ∃ pre' a1 mid a2 post m,
    pre ++ tail = pre' ++ a1 :: mid ++ a2 :: post ∧
    try_pair bm a1 a2 = Some (Some m) ∧
    l' = pre' ++ m :: mid ++ post.
Proof.
  induction tail as [|a1 tail IH]; intros pre l'; simpl; [done|].
  destruct (merge_scan_j _ _ _ _ _ _) as [[r|]|] eqn:Hj; simpl; [| |done].
  - intros [= <-].
    apply (merge_scan_j_Some bm pre a1 tail []) in Hj as (mid & a2 & post & m & ? & ? & ?);
      [|simpl; lia].
    by exists pre, a1, mid, a2, post, m.
  - intros Hscan.
    replace (pre ++ a1 :: tail) with ((pre ++ [a1]) ++ tail) in *
      by (by rewrite <- app_assoc).
    replace (S (length pre)) with (length (pre ++ [a1])) in Hscan
      by (rewrite length_app; simpl; lia).
    by apply IH in Hscan.
Qed.

Lemma merge_pass_committed bm antennas l' :
  merge_pass bm antennas = Some (Some l') → committed_merge bm antennas l'.
Proof.
  unfold merge_pass. intros Hscan.
  apply (merge_scan_i_Some bm antennas []) in Hscan
    as (pre & a1 & mid & a2 & post & m & Heq & Hp & ->).
  simpl in Heq. subst antennas.
  apply try_pair_Some in Hp as (blds & Hpos & Hbids & Hblds & Hfit & Hcost).
  exists pre, a1, mid, a2, post, m, blds. split_and!; try done.
  - rewrite !calculate_cost_app. simpl. rewrite !calculate_cost_app. simpl. lia.
  - rewrite !assigned_app, !assigned_cons, !assigned_app, !assigned_cons, Hbids.
    apply Permutation_app_head. rewrite <- !app_assoc.
    apply Permutation_app_head.
    rewrite !app_assoc. apply Permutation_app_tail, Permutation_app_comm.
Qed.

Lemma committed_merge_length bm l l' :
  committed_merge bm l l' → length l = S (length l').
Proof.
  intros (pre & a1 & mid & a2 & post & m & blds & -> & -> & _).
  rewrite !length_app. simpl. rewrite !length_app. simpl. lia.
Qed.

Lemma merge_rounds_chain bm fuel : ∀ l r,
  merge_rounds fuel bm l = Some r →
  rtc (committed_merge bm) l r ∧ merge_pass bm r = Some None.
Proof.
  induction fuel as [|fuel IH]; intros l r; simpl;
    destruct (merge_pass bm l) as [[l'|]|] eqn:Hp; simpl; try done.
  - by intros [= <-].
  - intros Hr. apply IH in Hr as [Hrtc Hfin]. split; [|done].
    eapply rtc_l; [|done]. by apply merge_pass_committed.
  - by intros [= <-].
Qed.

Lemma committed_merges_cost bm l r :
  rtc (committed_merge bm) l r →
  calculate_cost r ≤ calculate_cost l ∧ assigned r ≡ₚ assigned l.
Proof.
  induction 1 as [l|l l' r Hstep _ [IHc IHp]]; [done|].
  destruct Hstep as (pre & a1 & mid & a2 & post & m & blds & _ & _ & _ & _ & _
                     & _ & _ & Hc & Hp).
  split; [lia|]. by rewrite IHp.
Qed.

Lemma try_pair_is_Some bm a1 a2 :
  (∀ bid, bid ∈ a_buildings a1 ++ a_buildings a2 → is_Some (bm !! bid)) →
  is_Some (try_pair bm a1 a2).
Proof.
  intros Hk. unfold try_pair.
  destruct (proj2 (lookup_all_is_Some bm _) Hk) as [blds ->]. by eexists.
Qed.

Lemma merge_scan_j_is_Some bm antennas i a1 tail : ∀ j,
  (∀ bid, bid ∈ a_buildings a1 → is_Some (bm !! bid)) →
  ids_known bm tail →
  is_Some (merge_scan_j bm antennas i a1 j tail).
Proof.
  induction tail as [|a2 tail IH]; intros j H1 Ht; simpl; [by eexists|].
  destruct (try_pair_is_Some bm a1 a2) as [[m|] ->]; simpl.
  - intros bid [?|?]%elem_of_app; [by apply H1|]. eapply Ht; [by left|done].
  - by eexists.
  - apply IH; [done|]. intros a bid Ha. apply Ht. by right.
Qed.

Lemma merge_scan_i_is_Some bm antennas tail : ∀ i,
  ids_known bm tail → is_Some (merge_scan_i bm antennas i tail).
Proof.
  induction tail as [|a1 tail IH]; intros i Ht; simpl; [by eexists|].
  destruct (merge_scan_j_is_Some bm antennas i a1 tail (S i)) as [[r|] ->]; simpl.
  - intros bid Hb. eapply Ht; [by left|done].
  - intros a bid Ha. apply Ht. by right.
  - by eexists.
  - apply IH. intros a bid Ha. apply Ht. by right.
Qed.

Lemma committed_merge_known bm l l' :
  ids_known bm l → committed_merge bm l l' → ids_known bm l'.
Proof.
  intros Hk (pre & a1 & mid & a2 & post & m & blds & -> & -> & _ & Hbids & _).
  intros a bid Ha Hb.
  rewrite elem_of_app, elem_of_cons, elem_of_app in Ha.
  destruct Ha as [Ha|[->|[Ha|Ha]]].
  - eapply Hk; [|done]. set_solver.
  - rewrite Hbids in Hb. apply elem_of_app in Hb as [Hb|Hb].
    + eapply (Hk a1); [|done]. set_solver.
    + eapply (Hk a2); [|done]. set_solver.
  - eapply Hk; [|done]. set_solver.
  - eapply Hk; [|done]. set_solver.
Qed.

(** The loop of [try_merge_antennas] ends within its [length solution]
    rounds, and it raises only on an id that is missing from the dataset. *)
Lemma merge_rounds_returns bm fuel : ∀ l,
  (length l ≤ fuel)%nat → ids_known bm l → is_Some (merge_rounds fuel bm l).
Proof.
  induction fuel as [|fuel IH]; intros l Hlen Hk; simpl;
    destruct (merge_scan_i_is_Some bm l l 0%nat Hk) as [[l'|] Hp];
    unfold merge_pass; rewrite Hp; simpl; try by eexists.
  - apply merge_pass_committed, committed_merge_length in Hp. lia.
  - pose proof (merge_pass_committed _ _ _ Hp) as Hc.
    apply IH; [|by eapply committed_merge_known].
    apply committed_merge_length in Hc. lia.
Qed.

Lemma try_merge_antennas_returns solution buildings :
  ids_known (mk_bmap buildings) solution →
  is_Some (try_merge_antennas solution buildings).
Proof. intros Hk. by apply merge_rounds_returns. Qed.

(** C5. When [try_merge_antennas] returns, its result is reached from the
    input by a chain of committed merges.  Each of them strictly lowers the
    total cost, puts the merged antenna at the position of one of the two
    antennas it replaces, assigns it the buildings of the first followed by
    those of the second, and gives it a type whose capacity holds their
    total demand and whose radius reaches each of them.  The assigned
    building ids are the same, as a multiset, before and after, and the
    result admits no further merge. *)
Theorem try_merge_antennas_sound (solution result : list Antenna)
    (buildings : list Building) :
  try_merge_antennas solution buildings = Some result →
  rtc (committed_merge (mk_bmap buildings)) solution result ∧
  merge_pass (mk_bmap buildings) result = Some None ∧
  calculate_cost result ≤ calculate_cost solution ∧
  assigned result ≡ₚ assigned solution.
Proof.
  unfold try_merge_antennas. intros [Hrtc Hfin]%merge_rounds_chain.
  split_and!; [done..| |]; by eapply committed_merges_cost.
Qed.

Lemma try_merge_antennas_sound_witness :
  rtc (committed_merge (mk_bmap village))
      [mkAntenna Nano 0 0 [1]; mkAntenna Nano 30 0 [2]; mkAntenna Nano 400 0 [3]]
      [mkAntenna Nano 0 0 [1; 2]; mkAntenna Nano 400 0 [3]] ∧
  merge_pass (mk_bmap village)
    [mkAntenna Nano 0 0 [1; 2]; mkAntenna Nano 400 0 [3]] = Some None ∧
  calculate_cost [mkAntenna Nano 0 0 [1; 2]; mkAntenna Nano 400 0 [3]]
  ≤ calculate_cost
      [mkAntenna Nano 0 0 [1]; mkAntenna Nano 30 0 [2]; mkAntenna Nano 400 0 [3]] ∧
  assigned [mkAntenna Nano 0 0 [1; 2]; mkAntenna Nano 400 0 [3]]
  ≡ₚ assigned [mkAntenna Nano 0 0 [1]; mkAntenna Nano 30 0 [2]; mkAntenna Nano 400 0 [3]].
Proof.
  apply (try_merge_antennas_sound _ _ village). vm_compute. reflexivity.
Defined.

(** ** Packing in [find_best_antenna] *)

Lemma insert_by_pop_perm p l : insert_by_pop p l ≡ₚ p :: l.
Proof.
  induction l as [|q l IH]; simpl; [done|].
  destruct (decide (p.2 ≤ q.2)); [done|].
  rewrite IH. apply Permutation_swap.
Qed.

Lemma sort_by_pop_perm l : sort_by_pop l ≡ₚ l.
Proof.
  induction l as [|p l IH]; simpl; [done|].
  by rewrite insert_by_pop_perm, IH.
Qed.

Lemma insert_by_pop_sorted p l :
  StronglySorted (λ p q : Z * Z, p.2 ≤ q.2) l →
  StronglySorted (λ p q : Z * Z, p.2 ≤ q.2) (insert_by_pop p l).
Proof.
  induction 1 as [|q l Hs IH Hq]; simpl.
  { repeat constructor. }
  destruct (decide (p.2 ≤ q.2)) as [Hpq|Hpq].
  - constructor; [by constructor|]. constructor; [done|].
    eapply Forall_impl; [exact Hq|]. simpl. intros; lia.
  - constructor; [done|]. rewrite insert_by_pop_perm.
    constructor; [lia|done].
Qed.

Lemma sort_by_pop_sorted l :
  StronglySorted (λ p q : Z * Z, p.2 ≤ q.2) (sort_by_pop l).
Proof.
  induction l as [|p l IH]; simpl; [constructor|]. by apply insert_by_pop_sorted.
Qed.

Lemma pack_spec cap l : ∀ total selected t,
  pack cap total l = (selected, t) →
  ∃ chosen,
    chosen `sublist_of` l ∧ selected = chosen.*1 ∧
    t = total + pops_sum chosen ∧ (total ≤ cap → t ≤ cap).
Proof.
  induction l as [|[bid pop] l IH]; intros total selected t; simpl.
  - intros [= <- <-]. exists []. split_and!; [done..|simpl; lia|done].
  - destruct (decide (total + pop ≤ cap)) as [Hfit|Hfit].
    + destruct (pack cap (total + pop) l) as [sel' t'] eqn:Hp. intros [= <- <-].
      destruct (IH _ _ _ Hp) as (chosen & Hsub & -> & -> & Hle).
      exists ((bid, pop) :: chosen).
      split_and!; [by constructor|done|simpl; lia|auto].
    + intros Hp. destruct (IH _ _ _ Hp) as (chosen & Hsub & -> & -> & Hle).
      exists chosen. split_and!; [by constructor|done..].
Qed.

Lemma pack_none_fits cap total l :
  Forall (λ q : Z * Z, cap < total + q.2) l → pack cap total l = ([], total).
Proof.
  induction 1 as [|[bid pop] l Hq _ IH]; simpl; [done|].
  simpl in Hq. by rewrite decide_False by lia.
Qed.

Lemma pack_sorted_prefix cap l : ∀ total,
  StronglySorted (λ p q : Z * Z, p.2 ≤ q.2) l →
  ∃ k, (pack cap total l).1 = (take k l).*1 ∧
       ∀ p, l !! k = Some p → cap < total + pops_sum (take k l) + p.2.
Proof.
  induction l as [|[bid pop] l IH]; intros total Hs; simpl.
  - exists 0%nat. by split.
  - apply StronglySorted_inv in Hs as [Hs Hall].
    destruct (decide (total + pop ≤ cap)) as [Hfit|Hfit].
    + destruct (IH (total + pop) Hs) as (k & Hsel & Hnext).
      destruct (pack cap (total + pop) l) as [sel t]. simpl in Hsel.
      exists (S k). simpl. split; [by rewrite Hsel|].
      intros p Hp. specialize (Hnext p Hp). lia.
    + rewrite pack_none_fits.
      * exists 0%nat. split; [done|]. simpl. intros p [= <-]. simpl. lia.
      * eapply Forall_impl; [exact Hall|]. simpl. intros; lia.
Qed.

Lemma collect_in_range_spec bm x y r uncovered_ids : ∀ in_range,
  collect_in_range bm x y r uncovered_ids = Some in_range →
  ∀ bid pop, (bid, pop) ∈ in_range ↔
    bid ∈ uncovered_ids ∧
    ∃ b, bm !! bid = Some b ∧ pop = get_max_pop b ∧
         dist_sq x y (b_x b) (b_y b) ≤ r ^ 2.
Proof.
  induction uncovered_ids as [|bid' rest IH]; intros in_range; simpl.
  - intros [= <-] bid pop. set_solver.
  - destruct (bm !! bid') as [b'|] eqn:Hb'; [|done]. simpl.
    destruct (collect_in_range bm x y r rest) as [tl|]; [|done]. simpl.
    intros [= <-] bid pop. specialize (IH tl eq_refl bid pop).
    destruct (decide (dist_sq x y (b_x b') (b_y b') ≤ r ^ 2)) as [Hd|Hd].
    + rewrite !elem_of_cons, IH. split.
      * intros [[= -> ->]|[? ?]]; [|by auto]. split; [by left|by exists b'].
      * intros [[->|?] (b & Hb & -> & ?)]; [|by right; eauto].
        left. congruence.
    + rewrite elem_of_cons, IH. split; [by intros [? ?]; auto|].
      intros [[->|?] (b & Hb & -> & ?)]; [|by eauto].
      rewrite Hb' in Hb. by simplify_eq.
Qed.

Lemma collect_in_range_sublist bm x y r uncovered_ids : ∀ in_range,
  collect_in_range bm x y r uncovered_ids = Some in_range →
  in_range.*1 `sublist_of` uncovered_ids.
Proof.
  induction uncovered_ids as [|bid rest IH]; intros in_range; simpl.
  { by intros [= <-]. }
  destruct (bm !! bid) as [b|]; [|done]. simpl.
  destruct (collect_in_range bm x y r rest) as [tl|]; [|done]. simpl.
  intros [= <-]. specialize (IH tl eq_refl).
  case_decide; simpl; by constructor.
Qed.

Lemma lookup_chosen (bm : gmap Z Building) x y r (chosen : list (Z * Z)) :
  Forall (λ p, ∃ b, bm !! p.1 = Some b ∧ p.2 = get_max_pop b ∧
                    dist_sq x y (b_x b) (b_y b) ≤ r ^ 2) chosen →
  ∃ blds, lookup_all bm chosen.*1 = Some blds ∧
          total_pop_of blds = pops_sum chosen ∧
          Forall (λ b, dist_sq x y (b_x b) (b_y b) ≤ r ^ 2) blds.
Proof.
  intros Hall.
  assert (∃ blds, Forall2 (λ bid b, bm !! bid = Some b) chosen.*1 blds ∧
                  total_pop_of blds = pops_sum chosen ∧
                  Forall (λ b, dist_sq x y (b_x b) (b_y b) ≤ r ^ 2) blds)
    as (blds & Hl & Ht & Hr).
  { induction Hall as [|[bid pop] chosen (b & Hb & Hpop & Hd) _ (blds & Hl & Ht & Hr)].
    - exists []. by split_and!.
    - exists (b :: blds). simpl in *.
      split_and!; [by constructor|lia|by constructor]. }
  exists blds. split_and!; [|done..]. by apply mapM_Some_2.
Qed.

Lemma consider_type_packing {F} `{FloatOps F} bm x y uncovered_ids prefer
    (acc acc' : option (AntennaType * list Z * F) * F) atype :
  (∀ t selected score, acc.1 = Some (t, selected, score) →
                       packing_of bm x y uncovered_ids t selected) →
  consider_type x y uncovered_ids bm prefer acc atype = Some acc' →
  ∀ t selected score, acc'.1 = Some (t, selected, score) →
                      packing_of bm x y uncovered_ids t selected.
Proof.
  intros Hacc. unfold consider_type.
  destruct (collect_in_range _ _ _ _ _) as [in_range|] eqn:Hcol; [|done]. simpl.
  destruct in_range as [|p in_range']; [by intros [= <-]|].
  remember (p :: in_range') as in_range eqn:Hir.
  destruct (pack _ _ _) as [selected total_pop] eqn:Hpack.
  destruct selected as [|bid selected']; [by intros [= <-]|].
  remember (bid :: selected') as selected eqn:Hseleq.
  destruct (score_raises _ _ _ _); [done|].
  destruct (f_lt _ _); [|by intros [= <-]].
  intros [= <-] t sel score [= <- <- _].
  pose proof (collect_in_range_spec _ _ _ _ _ _ Hcol) as Hmem.
  destruct (pack_spec _ _ _ _ _ Hpack) as (chosen & Hsub & Hsel & Htot & Hcap).
  assert (Forall (λ p, p.1 ∈ uncovered_ids ∧
                       ∃ b, bm !! p.1 = Some b ∧ p.2 = get_max_pop b ∧
                            dist_sq x y (b_x b) (b_y b) ≤ range_of atype ^ 2)
                 chosen) as Hchosen.
  { apply Forall_forall. intros [b' pop'] Hin. apply Hmem.
    rewrite <- (sort_by_pop_perm in_range). by eapply elem_of_sublist. }
  destruct (lookup_chosen bm x y (range_of atype) chosen) as (blds & Hl & Ht & Hr).
  { eapply Forall_impl; [exact Hchosen|]. by intros ? [_ ?]. }
  exists in_range, blds. split_and!.
  - done.
  - done.
  - apply sort_by_pop_perm.
  - apply sort_by_pop_sorted.
  - by rewrite Hpack.
  - destruct (pack_sorted_prefix (capacity atype) (sort_by_pop in_range) 0
                (sort_by_pop_sorted in_range)) as (k & Hk & Hnext).
    rewrite Hpack in Hk. exists k. split; [done|].
    intros q Hq. specialize (Hnext q Hq). lia.
  - by subst selected.
  - rewrite Hsel. intros i (p' & -> & Hp')%list_elem_of_fmap.
    by apply (proj1 (Forall_forall _ _) Hchosen) in Hp' as [? _].
  - by rewrite Hsel.
  - split; [|done]. rewrite Ht. assert (0 ≤ capacity atype) by (by destruct atype).
    lia.
Qed.

Lemma find_best_loop_packing {F} `{FloatOps F} bm x y uncovered_ids prefer types :
  ∀ (acc acc' : option (AntennaType * list Z * F) * F),
  (∀ t selected score, acc.1 = Some (t, selected, score) →
                       packing_of bm x y uncovered_ids t selected) →
  find_best_loop x y uncovered_ids bm prefer acc types = Some acc' →
  ∀ t selected score, acc'.1 = Some (t, selected, score) →
                      packing_of bm x y uncovered_ids t selected.
Proof.
  induction types as [|atype types IH]; intros acc acc' Hacc; simpl.
  - by intros [= <-].
  - destruct (consider_type _ _ _ _ _ _ _) as [acc1|] eqn:Hc; [|done]. simpl.
    apply IH. by eapply consider_type_packing.
Qed.

(** C8. Whatever [find_best_antenna] returns for a position is a packing:
    for the returned type, the candidate list holds exactly the uncovered
    buildings within the type's radius, the list is sorted by ascending
    demand, the selection is the greedy accumulation of the sorted list into
    the type's capacity, its total demand is at most the capacity and each
    selected building is uncovered and within the radius. *)
Theorem find_best_antenna_packs {F} `{FloatOps F} (x y : Z) (uncovered_ids : list Z)
    (bm : gmap Z Building) (prefer_capacity : bool) (atype : AntennaType)
    (selected : list Z) (score : F) :
  find_best_antenna x y uncovered_ids bm prefer_capacity
  = Some (Some (atype, selected, score)) →
  packing_of bm x y uncovered_ids atype selected.
Proof.
  unfold find_best_antenna.
  destruct (find_best_loop _ _ _ _ _ _ _) as [acc'|] eqn:Hloop; [|done].
  simpl. intros [= Hbest].
  eapply (find_best_loop_packing bm x y uncovered_ids prefer_capacity);
    [|exact Hloop|exact Hbest].
  by intros.
Qed.

Lemma find_best_antenna_packs_witness :
  packing_of (mk_bmap village) 0 0 [1; 2; 3] Nano [1; 2].
Proof.
  apply (find_best_antenna_packs (H := integer_floats) 0 0 [1; 2; 3]
           (mk_bmap village) false Nano [1; 2] 4).
  vm_compute. reflexivity.
Defined.

(** ** The greedy constructor on a building no type can serve *)

Lemma phase1_keeps (bs : list Building) : ∀ st a,
  a ∈ st.1 → a ∈ (foldl phase1_step st bs).1.
Proof.
  induction bs as [|b bs IH]; intros [ants unc] a Ha; simpl; [done|].
  apply IH. unfold phase1_step.
  destruct (decide (b_id b ∈ unc)); [|done].
  destruct (decide (3500 < get_max_pop b)); [|done].
  simpl in *. set_solver.
Qed.

Lemma phase1_high_demand (bs : list Building) b : ∀ st,
  NoDup (b_id <$> bs) → b ∈ bs → b_id b ∈ st.2 → 3500 < get_max_pop b →
  mkAntenna Density (b_x b) (b_y b) [b_id b] ∈ (foldl phase1_step st bs).1.
Proof.
  induction bs as [|b' bs IH]; intros [ants unc] Hnd Hb Hunc Hpop; simpl.
  { by apply elem_of_nil in Hb. }
  rewrite fmap_cons in Hnd. apply NoDup_cons in Hnd as [Hfresh Hnd].
  apply elem_of_cons in Hb as [<-|Hb].
  - apply phase1_keeps. unfold phase1_step. simpl in Hunc.
    rewrite !decide_True by done. simpl. set_solver.
  - apply IH; [done..| |done].
    assert (b_id b ≠ b_id b') as Hne.
    { intros Heq. apply Hfresh. rewrite <- Heq. by apply list_elem_of_fmap_2. }
    unfold phase1_step. simpl in Hunc.
    destruct (decide (b_id b' ∈ unc)); [|done].
    destruct (decide (3500 < get_max_pop b')); [|done].
    simpl. set_solver.
Qed.

Lemma phase2_appends {G F} `{FloatOps F, PyRandom G F, SetOrder} fuel bm :
  ∀ antennas uncovered (g g' : G) res,
  phase2 fuel bm antennas uncovered g = Some (res, g') →
  ∃ more, res = antennas ++ more.
Proof.
  induction fuel as [|fuel IH]; intros antennas uncovered g g' res; simpl;
    destruct (decide (uncovered = ∅)).
  - intros [<- _]%rret_Some. exists []. by rewrite app_nil_r.
  - by intros [? _]%rlift_Some.
  - intros [<- _]%rret_Some. exists []. by rewrite app_nil_r.
  - intros (a & g1 & _ & Hrest)%rbind_Some.
    apply IH in Hrest as [more ->]. exists (a :: more). by rewrite <- app_assoc.
Qed.

(** On any dataset with unique ids, a building whose demand is above 5000
    is given a Density antenna of its own by phase 1, and the result of
    [solve_advanced], when there is one, still holds that antenna: the
    demand is above the capacity of Density and of every other type. *)
Lemma solve_advanced_overdemand_kept {G F} `{FloatOps F, PyRandom G F, SetOrder}
    (buildings : list Building) (b : Building) (g g' : G) (res : list Antenna) :
  NoDup (b_id <$> buildings) → b ∈ buildings → 5000 < get_max_pop b →
  solve_advanced buildings g = Some (res, g') →
  mkAntenna Density (b_x b) (b_y b) [b_id b] ∈ res ∧
  ∀ t, capacity t < get_max_pop b.
Proof.
  intros Hnd Hb Hpop. unfold solve_advanced.
  pose proof (phase1_high_demand buildings b
                ([], list_to_set (b_id <$> buildings)) Hnd Hb) as Hin.
  destruct (foldl phase1_step _ buildings) as [antennas uncovered].
  intros [more ->]%phase2_appends. split.
  - apply elem_of_app. left. apply Hin; [|lia].
    simpl. apply elem_of_list_to_set. by apply list_elem_of_fmap_2.
  - intros []; simpl; lia.
Qed.

Lemma find_best_antenna_selected {F} `{FloatOps F} x y uncovered_ids bm prefer
    atype selected (score : F) :
  find_best_antenna x y uncovered_ids bm prefer = Some (Some (atype, selected, score)) →
  selected ≠ [] ∧ selected ⊆ uncovered_ids.
Proof.
  unfold find_best_antenna.
  destruct (find_best_loop _ _ _ _ _ _ _) as [acc'|] eqn:Hloop; [|done].
  simpl. intros [= Hbest].
  assert (packing_of bm x y uncovered_ids atype selected) as Hpack.
  { eapply (find_best_loop_packing bm x y uncovered_ids prefer);
      [|exact Hloop|exact Hbest]. by intros. }
  destruct Hpack as (? & ? & _ & _ & _ & _ & _ & _ & ? & ? & _). done.
Qed.

Lemma best_over_candidates_selected {F} `{FloatOps F} bm uncovered_ids candidates :
  ∀ (acc acc' : option Antenna * F),
  (∀ ant, acc.1 = Some ant →
          a_buildings ant ≠ [] ∧ a_buildings ant ⊆ uncovered_ids) →
  best_over_candidates bm uncovered_ids acc candidates = Some acc' →
  ∀ ant, acc'.1 = Some ant →
         a_buildings ant ≠ [] ∧ a_buildings ant ⊆ uncovered_ids.
Proof.
  induction candidates as [|bid rest IH]; intros acc acc' Hacc; simpl.
  { by intros [= <-]. }
  destruct (bm !! bid) as [b|]; [|done]. simpl.
  destruct (find_best_antenna _ _ _ _ _) as [result|] eqn:Hfind; [|done]. simpl.
  apply IH. destruct result as [[[atype selected] score]|]; [|done].
  destruct (f_lt acc.2 score); [|done].
  simpl. intros ant [= <-]. simpl.
  by eapply find_best_antenna_selected.
Qed.

(** Every round of the [while uncovered] loop covers a building that was
    uncovered, when the set is iterated over its own elements. *)
Lemma phase2_round_covers {G F} `{FloatOps F, PyRandom G F, SetOrder}
    bm (uncovered : gset Z) (g g' : G) ant :
  (∀ (s : gset Z) i, i ∈ set_iter s → i ∈ s) →
  phase2_round bm uncovered g = Some (ant, g') →
  ∃ bid, bid ∈ a_buildings ant ∧ bid ∈ uncovered.
Proof.
  intros Hlaw. unfold phase2_round.
  intros (candidates & g1 & _ & Hrest)%rbind_Some.
  apply rbind_Some in Hrest as (best & g2 & [Hbest _]%rlift_Some & Hrest).
  destruct best.1 as [best_antenna|] eqn:Hb1.
  - apply rret_Some in Hrest as [<- _].
    assert (a_buildings best_antenna ≠ []
            ∧ a_buildings best_antenna ⊆ set_iter uncovered) as [Hne Hsub].
    { eapply (best_over_candidates_selected bm (set_iter uncovered) candidates);
        [|exact Hbest|exact Hb1]. by intros. }
    destruct (a_buildings best_antenna) as [|bid bids]; [done|].
    exists bid. split; [by left|]. apply Hlaw, Hsub. by left.
  - apply rbind_Some in Hrest as (bid & g3 & [Hhead _]%rlift_Some & Hrest).
    apply rbind_Some in Hrest as (b & g4 & _ & [Hfb _]%rlift_Some).
    unfold fallback_antenna in Hfb.
    destruct (head (filter _ _)); [|done]. injection Hfb as <-. simpl.
    exists bid. split; [by left|]. by apply Hlaw, head_Some_elem_of.
Qed.

(** The fuel [size uncovered] given to the loop by [solve_advanced] is
    enough: more fuel gives the same run. *)
Lemma phase2_fuel_enough {G F} `{FloatOps F, PyRandom G F, SetOrder} bm fuel1 :
  (∀ (s : gset Z) i, i ∈ set_iter s → i ∈ s) →
  ∀ fuel2 antennas (uncovered : gset Z) (g : G),
  (size uncovered ≤ fuel1)%nat → (size uncovered ≤ fuel2)%nat →
  phase2 fuel1 bm antennas uncovered g = phase2 fuel2 bm antennas uncovered g.
Proof.
  intros Hlaw. induction fuel1 as [|fuel1 IH]; intros fuel2 antennas uncovered g Hf1 Hf2.
  - assert (uncovered = ∅) as ->
      by (apply leibniz_equiv, size_empty_iff; lia).
    destruct fuel2; simpl; by rewrite decide_True.
  - destruct fuel2 as [|fuel2].
    { assert (uncovered = ∅) as ->
        by (apply leibniz_equiv, size_empty_iff; lia).
      simpl. by rewrite decide_True. }
    simpl. destruct (decide (uncovered = ∅)); [done|].
    unfold rbind. destruct (phase2_round bm uncovered g) as [[ant g1]|] eqn:Hround; [|done].
    destruct (phase2_round_covers _ _ _ _ _ Hlaw Hround) as (bid & Hin & Hunc).
    assert (size (uncovered ∖ list_to_set (a_buildings ant)) < size uncovered)%nat.
    { apply subset_size. set_solver. }
    apply IH; lia.
Qed.

Lemma collect_in_range_is_Some (bm : gmap Z Building) x y r uncovered_ids :
  (∀ bid, bid ∈ uncovered_ids → is_Some (bm !! bid)) →
  is_Some (collect_in_range bm x y r uncovered_ids).
Proof.
  induction uncovered_ids as [|bid rest IH]; intros Hk; simpl; [by eexists|].
  destruct (Hk bid) as [b ->]; [by left|]. simpl.
  destruct IH as [tl ->]; [intros ? ?; apply Hk; by right|]. by eexists.
Qed.

Lemma pops_sum_nonneg (l : list (Z * Z)) :
  Forall (λ p, 0 ≤ p.2) l → 0 ≤ pops_sum l.
Proof. induction 1 as [|p l Hp _ IH]; simpl; lia. Qed.

(** A score computed from a count below [2 ^ 63] and a demand between 0
    and the capacity does not raise. *)
Lemma score_defined (prefer : bool) (n total_pop : Z) (atype : AntennaType) :
  0 ≤ n < 2 ^ 63 → 0 ≤ total_pop ≤ capacity atype →
  score_raises prefer n total_pop (cost_on atype) = false.
Proof.
  intros Hn Hpop. unfold score_raises.
  assert (2 ^ 63 * 10000 < 2 ^ 1023) by (by vm_compute).
  assert (true_div_raises total_pop (cost_on atype) = false) as ->.
  { apply true_div_defined; destruct atype; simpl in *; lia. }
  assert (true_div_raises (n * 10000) (cost_on atype) = false) as ->.
  { apply true_div_defined; destruct atype; simpl in *; lia. }
  by destruct prefer.
Qed.

Lemma consider_type_is_Some {F} `{FloatOps F} (bm : gmap Z Building) x y
    uncovered_ids prefer (acc : option (AntennaType * list Z * F) * F) atype :
  (∀ bid, bid ∈ uncovered_ids → is_Some (bm !! bid)) →
  score_safe bm uncovered_ids →
  is_Some (consider_type x y uncovered_ids bm prefer acc atype).
Proof.
  intros Hk [Hlen Hpop]. unfold consider_type.
  destruct (collect_in_range_is_Some bm x y (range_of atype) uncovered_ids Hk)
    as [in_range Hcol]. rewrite Hcol. simpl.
  destruct in_range as [|p in_range']; [by eexists|].
  remember (p :: in_range') as in_range eqn:Hir.
  destruct (pack _ _ _) as [selected total_pop] eqn:Hpack.
  destruct selected as [|bid selected']; [by eexists|].
  remember (bid :: selected') as selected eqn:Hseleq.
  destruct (pack_spec _ _ _ _ _ Hpack) as (chosen & Hsub & Hsel & Htot & Hcap).
  pose proof (collect_in_range_spec _ _ _ _ _ _ Hcol) as Hmem.
  rewrite score_defined; [destruct (f_lt _ _); by eexists| |].
  - split; [lia|]. rewrite Hsel, length_fmap.
    pose proof (sublist_length _ _ Hsub) as Hl1.
    rewrite (Permutation_length (sort_by_pop_perm in_range)) in Hl1.
    pose proof (sublist_length _ _ (collect_in_range_sublist _ _ _ _ _ _ Hcol)) as Hl2.
    rewrite length_fmap in Hl2. lia.
  - assert (0 ≤ capacity atype) by (by destruct atype).
    split; [|lia]. rewrite Htot.
    assert (0 ≤ pops_sum chosen); [|lia]. apply pops_sum_nonneg.
    apply Forall_forall. intros [b' pop'] Hin. simpl.
    assert ((b', pop') ∈ in_range) as Hin'.
    { rewrite <- (sort_by_pop_perm in_range). by eapply elem_of_sublist. }
    apply Hmem in Hin' as (Hb' & b0 & Hb0 & -> & _). by eapply Hpop.
Qed.

Lemma find_best_loop_is_Some {F} `{FloatOps F} (bm : gmap Z Building) x y
    uncovered_ids prefer types :
  (∀ bid, bid ∈ uncovered_ids → is_Some (bm !! bid)) →
  score_safe bm uncovered_ids →
  ∀ acc : option (AntennaType * list Z * F) * F,
  is_Some (find_best_loop x y uncovered_ids bm prefer acc types).
Proof.
  intros Hk Hsafe. induction types as [|atype types IH]; intros acc; simpl;
    [by eexists|].
  destruct (consider_type_is_Some bm x y uncovered_ids prefer acc atype Hk Hsafe)
    as [acc' ->]. simpl. apply IH.
Qed.

Lemma best_over_candidates_is_Some {F} `{FloatOps F} (bm : gmap Z Building)
    uncovered_ids candidates :
  (∀ bid, bid ∈ uncovered_ids → is_Some (bm !! bid)) →
  score_safe bm uncovered_ids →
  (∀ bid, bid ∈ candidates → is_Some (bm !! bid)) →
  ∀ acc : option Antenna * F,
  is_Some (best_over_candidates bm uncovered_ids acc candidates).
Proof.
  intros Hk Hsafe. induction candidates as [|bid rest IH]; intros Hc acc; simpl;
    [by eexists|].
  destruct (Hc bid) as [b ->]; [by left|]. simpl.
  unfold find_best_antenna.
  destruct (find_best_loop_is_Some bm (b_x b) (b_y b) uncovered_ids false
              [Density; MaxRange; Spot; Nano] Hk Hsafe (None, f_of_Z (-1)))
    as [r ->].
  simpl. apply IH. intros ? ?. apply Hc. by right.
Qed.

Lemma phase1_uncovered (bs : list Building) : ∀ st,
  (foldl phase1_step st bs).2 ⊆ st.2 ∧
  ∀ b, b ∈ bs → b_id b ∈ (foldl phase1_step st bs).2 → get_max_pop b ≤ 3500.
Proof.
  induction bs as [|b0 bs IH]; intros [ants unc]; simpl.
  { split; [done|]. by intros ? ?%elem_of_nil. }
  destruct (IH (phase1_step (ants, unc) b0)) as [Hsub Hpop].
  assert ((phase1_step (ants, unc) b0).2 ⊆ unc ∧
          (b_id b0 ∈ (phase1_step (ants, unc) b0).2 → get_max_pop b0 ≤ 3500))
    as [Hsub1 Hpop1].
  { unfold phase1_step.
    destruct (decide (b_id b0 ∈ unc)); [|by split].
    destruct (decide (3500 < get_max_pop b0)); simpl; [set_solver|].
    split; [done|lia]. }
  split; [set_solver|].
  intros b [->|Hb]%elem_of_cons Hin; [|by apply Hpop].
  apply Hpop1. by apply Hsub.
Qed.

Lemma head_filter_is_Some {A} (P : A → Prop) `{!∀ x, Decision (P x)} (l : list A) x :
  x ∈ l → P x → is_Some (head (filter P l)).
Proof.
  intros Hx HP.
  assert (x ∈ filter P l) as Hin by (by apply list_elem_of_filter).
  destruct (filter P l); [by apply elem_of_nil in Hin|by eexists].
Qed.

Lemma set_iter_length `{SetOrder} (s : gset Z) :
  set_order_ok → length (set_iter s) = size s.
Proof.
  intros Hord. destruct (Hord s) as [Hnd Hmem].
  unfold size, set_size. simpl. apply Permutation_length, NoDup_Permutation;
    [done|apply NoDup_elements|].
  intros i. by rewrite Hmem, elem_of_elements.
Qed.

Lemma demand_safe_iter `{SetOrder} bm (s : gset Z) :
  set_order_ok → demand_safe bm s → score_safe bm (set_iter s).
Proof.
  intros Hord [Hsize Hpop]. split; [by rewrite set_iter_length|].
  intros bid b Hbid. apply Hpop. by apply (Hord s).
Qed.

Lemma demand_safe_subseteq bm (s s' : gset Z) :
  s' ⊆ s → demand_safe bm s → demand_safe bm s'.
Proof.
  intros Hsub [Hsize Hpop]. split.
  - pose proof (subseteq_size _ _ Hsub). lia.
  - intros i b Hi. apply Hpop. by apply Hsub.
Qed.

Lemma size_list_to_set_le (l : list Z) :
  (size (list_to_set l : gset Z) ≤ length l)%nat.
Proof.
  induction l as [|x l IH]; [by rewrite list_to_set_nil, size_empty|].
  rewrite list_to_set_cons, size_union_alt, size_singleton. cbn [length].
  pose proof (subseteq_size (list_to_set l ∖ {[x]}) (list_to_set l : gset Z)
                ltac:(set_solver)). lia.
Qed.

Lemma phase2_round_is_Some {G F} `{FloatOps F, PyRandom G F, SetOrder}
    bm (uncovered : gset Z) (g : G) :
  set_order_ok →
  (∀ (l : list Z) n (g0 : G), (random_sample l n g0).1 ⊆ l) →
  low_demand bm uncovered → demand_safe bm uncovered → uncovered ≠ ∅ →
  is_Some (phase2_round bm uncovered g).
Proof.
  intros Hord Hsample Hlow Hsafe Hne. unfold phase2_round.
  assert (∀ (s : gset Z) i, i ∈ set_iter s ↔ i ∈ s) as Hiter
    by (intros s; apply Hord).
  assert (∀ bid, bid ∈ set_iter uncovered → is_Some (bm !! bid)) as Hk.
  { intros bid Hb%Hiter. destruct (Hlow bid Hb) as (b & -> & _). by eexists. }
  set (draw := if decide (1000 < length (set_iter uncovered))%nat
               then rdraw (random_sample (set_iter uncovered)
                             (Nat.min 1000 (length (set_iter uncovered))))
               else rret (set_iter uncovered)).
  assert (∃ candidates g1, draw g = Some (candidates, g1) ∧
                           candidates ⊆ set_iter uncovered)
    as (candidates & g1 & Hdraw & Hsub).
  { unfold draw. case_decide.
    - unfold rdraw. destruct (random_sample _ _ g) as [c g1] eqn:Hs.
      exists c, g1. split; [done|]. pose proof (Hsample (set_iter uncovered)
        (Nat.min 1000 (length (set_iter uncovered))) g) as Hin. by rewrite Hs in Hin.
    - by exists (set_iter uncovered), g. }
  unfold rbind at 1. rewrite Hdraw.
  destruct (best_over_candidates_is_Some bm (set_iter uncovered) candidates Hk
              (demand_safe_iter bm uncovered Hord Hsafe)
              ltac:(intros ? ?; apply Hk, Hsub; done) (None, f_of_Z (-1)))
    as [best Hbest].
  unfold rbind, rlift. rewrite Hbest.
  destruct best.1; [by eexists|].
  destruct (set_iter uncovered) as [|bid rest] eqn:Hset.
  { exfalso. apply Hne. apply leibniz_equiv. intros i. split; [|set_solver].
    intros Hi%Hiter. rewrite Hset in Hi. by apply elem_of_nil in Hi. }
  cbn [head]. destruct (Hlow bid) as (b & -> & Hpop).
  { apply Hiter. rewrite Hset. by left. }
  unfold fallback_antenna.
  assert (is_Some (head (filter (λ atype, get_max_pop b ≤ capacity atype)
                                [Nano; Spot; Density; MaxRange]))) as [t ->].
  { apply (head_filter_is_Some _ _ Density); [set_solver|]. simpl. lia. }
  by eexists.
Qed.

Lemma phase2_is_Some {G F} `{FloatOps F, PyRandom G F, SetOrder} bm fuel :
  set_order_ok →
  (∀ (l : list Z) n (g0 : G), (random_sample l n g0).1 ⊆ l) →
  ∀ antennas (uncovered : gset Z) (g : G),
  low_demand bm uncovered → demand_safe bm uncovered →
  (size uncovered ≤ fuel)%nat →
  is_Some (phase2 fuel bm antennas uncovered g).
Proof.
  intros Hord Hsample.
  induction fuel as [|fuel IH]; intros antennas uncovered g Hlow Hsafe Hsize; simpl.
  - rewrite decide_True; [by eexists|]. apply leibniz_equiv, size_empty_iff. lia.
  - destruct (decide (uncovered = ∅)) as [|Hne]; [by eexists|].
    destruct (phase2_round_is_Some bm uncovered g Hord Hsample Hlow Hsafe Hne)
      as [[ant g1] Hround].
    unfold rbind. rewrite Hround.
    destruct (phase2_round_covers bm uncovered g g1 ant
                ltac:(intros s i ?; by apply (Hord s)) Hround)
      as (bid & Hin & Hunc).
    apply IH.
    + intros i Hi. apply Hlow. set_solver.
    + eapply demand_safe_subseteq; [|done]. set_solver.
    + assert (size (uncovered ∖ list_to_set (a_buildings ant)) < size uncovered)%nat;
        [|lia].
      apply subset_size. set_solver.
Qed.

(** The constructor returns, without raising, on every dataset whose
    demands are at least 0 and whose building list is no longer than a
    list can be, when a set is iterated over its own elements, each once,
    and a sample is drawn from its population.  In particular it never
    signals an infeasible dataset. *)
Lemma solve_advanced_returns {G F} `{FloatOps F, PyRandom G F, SetOrder}
    (buildings : list Building) (g : G) :
  set_order_ok →
  (∀ (l : list Z) n (g0 : G), (random_sample l n g0).1 ⊆ l) →
  (∀ b, b ∈ buildings → 0 ≤ get_max_pop b) →
  Z.of_nat (length buildings) < 2 ^ 63 →
  is_Some (solve_advanced buildings g).
Proof.
  intros Hord Hsample Hpos Hlen. unfold solve_advanced.
  pose proof (phase1_uncovered buildings ([], list_to_set (b_id <$> buildings)))
    as [Hsub Hpop].
  destruct (foldl phase1_step _ buildings) as [antennas uncovered]. simpl in *.
  apply phase2_is_Some; [done..| | |done].
  - intros i Hi.
    assert (∃ b0, b0 ∈ buildings ∧ b_id b0 = i) as (b0 & Hb0 & <-).
    { apply Hsub, elem_of_list_to_set, list_elem_of_fmap in Hi as (b0 & -> & ?).
      by exists b0. }
    destruct (mk_bmap_is_Some buildings b0 Hb0) as [b Hb]. exists b. split; [done|].
    apply mk_bmap_lookup_Some in Hb as [Hin Hid]. apply Hpop; [done|]. by rewrite Hid.
  - split.
    + pose proof (subseteq_size _ _ Hsub).
      pose proof (size_list_to_set_le (b_id <$> buildings)) as Hle.
      rewrite length_fmap in Hle. lia.
    + intros i b _ [Hb _]%mk_bmap_lookup_Some. by apply Hpos.
Qed.

(** C1, at the failing input.  For the dataset made of the one building
    [tower], of demand 6000, [solve_advanced] returns, without raising, a
    solution that assigns it to a Density antenna, of capacity 5000; no type
    has the capacity. *)
Theorem solve_advanced_overdemand {G F} `{FloatOps F, PyRandom G F, SetOrder} (g : G) :
  solve_advanced [tower] g = Some ([mkAntenna Density 10 20 [1]], g) ∧
  get_max_pop tower = 6000 ∧
  ∀ t, capacity t < get_max_pop tower.
Proof.
  split_and!; [|done|by intros []].
  unfold solve_advanced.
  assert (foldl phase1_step ([], list_to_set (b_id <$> [tower])) [tower]
          = ([mkAntenna Density 10 20 [1]], ∅)) as ->.
  { cbn [foldl]. unfold phase1_step.
    rewrite decide_True by set_solver.
    rewrite decide_True by (by vm_compute).
    reflexivity. }
  unfold phase2. destruct (size _); by rewrite decide_True.
Qed.

(** ** The partition under [move_building] *)

Lemma get_cheapest_valid_type_fits ant bm t :
  get_cheapest_valid_type ant bm = Some (Some t) →
  ∃ blds, lookup_all bm (a_buildings ant) = Some blds ∧
          type_fits t (a_x ant) (a_y ant) blds.
Proof.
  unfold get_cheapest_valid_type.
  destruct (lookup_all _ _) as [blds|]; [|done]. simpl. intros [= Hh].
  apply head_filter_elem in Hh as [_ Hok].
  apply andb_prop_elim in Hok as [Hcap Hrange].
  apply bool_decide_unpack in Hcap.
  apply Is_true_eq_true, all_in_range_Forall in Hrange.
  by exists blds.
Qed.

(** [TYPE_ORDER] is ascending in cost, so the first fitting type is the
    cheapest fitting type. *)
Lemma get_cheapest_valid_type_cheapest ant bm t blds t' :
  get_cheapest_valid_type ant bm = Some (Some t) →
  lookup_all bm (a_buildings ant) = Some blds →
  type_fits t' (a_x ant) (a_y ant) blds →
  cost_on t ≤ cost_on t'.
Proof.
  unfold get_cheapest_valid_type. intros Hget Hblds [Hcap Hrange].
  rewrite Hblds in Hget. simpl in Hget. injection Hget as Hh.
  apply head_filter_Some in Hh as (l1 & l2 & Hl & Hnone).
  assert (t' ∈ l1 → False) as Hnot.
  { intros Hin. apply (proj1 (Forall_forall _ _) Hnone) in Hin. apply Hin.
    apply andb_prop_intro. split; [by apply bool_decide_pack|].
    by apply Is_true_eq_left, all_in_range_Forall. }
  unfold TYPE_ORDER in Hl.
  destruct l1 as [|? [|? [|? [|? [|? ?]]]]]; simplify_eq/=;
    destruct t'; simpl; try lia; exfalso; apply Hnot; set_solver.
Qed.

Lemma get_cheapest_valid_type_valid ant bm t :
  get_cheapest_valid_type ant bm = Some (Some t) →
  a_buildings ant ≠ [] →
  is_valid_antenna (set_type t ant) bm = Some true.
Proof.
  intros (blds & Hblds & Hcap & Hrange)%get_cheapest_valid_type_fits Hne.
  unfold is_valid_antenna. simpl.
  destruct (a_buildings ant) as [|bid bids] eqn:Hb; [done|].
  rewrite Hblds. simpl. rewrite decide_False by lia.
  f_equal. by apply all_in_range_Forall.
Qed.

Lemma list_remove_first_perm x l l' :
  list_remove_first x l = Some l' → l ≡ₚ x :: l'.
Proof.
  revert l'. induction l as [|y l IH]; intros l'; simpl; [done|].
  destruct (decide (x = y)) as [->|Hne]; [by intros [= <-]|].
  destruct (list_remove_first x l) as [l0|]; [|done]. simpl. intros [= <-].
  rewrite (IH l0 eq_refl). apply Permutation_swap.
Qed.

Lemma assigned_insert antennas i a a' :
  antennas !! i = Some a →
  assigned (<[i := a']> antennas) ++ a_buildings a
  ≡ₚ assigned antennas ++ a_buildings a'.
Proof.
  revert i. induction antennas as [|a0 antennas IH]; intros [|i]; simpl; try done.
  - intros [= ->]. rewrite !assigned_cons.
    rewrite <- !app_assoc.
    rewrite (Permutation_app_comm (assigned antennas) (a_buildings a)).
    rewrite (Permutation_app_comm (assigned antennas) (a_buildings a')).
    rewrite !app_assoc. apply Permutation_app_tail, Permutation_app_comm.
  - intros Hi. rewrite !assigned_cons, <- !app_assoc.
    apply Permutation_app_head. by apply IH.
Qed.

Lemma move_targets_Some bm antennas src_idx src_ant bid b indices res :
  move_targets bm antennas src_idx src_ant bid b indices = Some (Some res) →
  ∃ tgt_idx tgt_ant new_type src_bids new_src_type,
    tgt_idx ≠ src_idx ∧ antennas !! tgt_idx = Some tgt_ant ∧
    get_cheapest_valid_type
      (set_buildings (a_buildings tgt_ant ++ [bid]) tgt_ant) bm = Some (Some new_type) ∧
    list_remove_first bid (a_buildings src_ant) = Some src_bids ∧
    get_cheapest_valid_type (set_buildings src_bids src_ant) bm
      = Some (Some new_src_type) ∧
    res = <[tgt_idx := set_type new_type
                         (set_buildings (a_buildings tgt_ant ++ [bid]) tgt_ant)]>
            (<[src_idx := set_type new_src_type (set_buildings src_bids src_ant)]>
               antennas).
Proof.
  induction indices as [|tgt_idx rest IH]; simpl; [done|].
  destruct (decide (tgt_idx = src_idx)); [done|].
  destruct (antennas !! tgt_idx) as [tgt_ant|] eqn:Htgt; [|done]. simpl.
  destruct (dist_gt _ _ _ _ _) as [[|]|]; [done| |done]. simpl.
  destruct (get_cheapest_valid_type _ bm) as [[new_type|]|] eqn:Hnt; simpl;
    [|done..].
  destruct (list_remove_first bid _) as [src_bids|] eqn:Hrm; [|done]. simpl.
  destruct (get_cheapest_valid_type (set_buildings src_bids src_ant) bm)
    as [[new_src_type|]|] eqn:Hst; simpl; [|done..].
  intros [= <-].
  by exists tgt_idx, tgt_ant, new_type, src_bids, new_src_type.
Qed.

Lemma move_building_moved_one {G F} `{PyRandom G F} antennas bm (g g' : G) res :
  move_building antennas bm g = Some (Some res, g') → moved_one bm antennas res.
Proof.
  unfold move_building. destruct (decide _); [by intros [? _]%rret_Some|].
  destruct (indices_with_more_than 1 antennas) as [|i0 is0] eqn:Hmulti;
    [by intros [? _]%rret_Some|].
  rewrite <- Hmulti. clear Hmulti. intros Hm. rand_inv.
  repeat match goal with
  | Hc : random_choice _ _ = Some _ |- _ => apply random_choice_elem_of in Hc
  end.
  match goal with
  | Hc : _ ∈ indices_with_more_than 1 antennas |- _ =>
      apply elem_of_indices_with_more_than in Hc as (src & Hsrc & Hlen)
  end.
  apply move_targets_Some in Hm
    as (tgt_idx & tgt_ant & new_type & src_bids & new_src_type
        & Hne & Htgt & Hnt & Hrm & Hst & ->).
  simplify_eq.
  eexists _, tgt_idx, _, tgt_ant, _, _, _.
  split_and!; [by apply not_eq_sym|done..| | | | |].
  - done.
  - done.
  - done.
  - apply get_cheapest_valid_type_valid; [done|]. simpl.
    apply list_remove_first_perm, Permutation_length in Hrm. simpl in Hrm.
    destruct src_bids; simpl in *; [lia|done].
  - apply get_cheapest_valid_type_valid; [done|]. simpl.
    by destruct (a_buildings tgt_ant).
Qed.

Lemma elem_of_assigned antennas x :
  x ∈ assigned antennas ↔ ∃ a, a ∈ antennas ∧ x ∈ a_buildings a.
Proof.
  unfold assigned. induction antennas as [|a0 antennas IH]; simpl.
  - split; [by intros ?%elem_of_nil|]. by intros (? & ?%elem_of_nil & _).
  - rewrite elem_of_app, IH. setoid_rewrite elem_of_cons. naive_solver.
Qed.

(** A duplicate-free [assigned] list means that the building lists of two
    different antennas are disjoint and that none repeats an id. *)
Lemma assigned_NoDup_disjoint antennas i j a b x :
  NoDup (assigned antennas) → i ≠ j →
  antennas !! i = Some a → antennas !! j = Some b →
  x ∈ a_buildings a → x ∉ a_buildings b.
Proof.
  revert i j. induction antennas as [|a0 antennas IH]; intros i j Hnd Hij; [done|].
  rewrite assigned_cons in Hnd. apply NoDup_app in Hnd as (_ & Hdisj & Hnd).
  destruct i as [|i], j as [|j]; simpl; try done.
  - intros [= ->] Hb Hx Hxb. apply (Hdisj x Hx), elem_of_assigned.
    exists b. split; [by eapply list_elem_of_lookup_2|done].
  - intros Ha [= ->] Hx Hxb. apply (Hdisj x Hxb), elem_of_assigned.
    exists a. split; [by eapply list_elem_of_lookup_2|done].
  - apply IH; [done|lia].
Qed.

Lemma assigned_NoDup_each antennas a :
  NoDup (assigned antennas) → a ∈ antennas → NoDup (a_buildings a).
Proof.
  induction antennas as [|a0 antennas IH]; intros Hnd Ha.
  { by apply elem_of_nil in Ha. }
  rewrite assigned_cons in Hnd. apply NoDup_app in Hnd as (Hnd0 & _ & Hnd).
  apply elem_of_cons in Ha as [->|Ha]; [done|by apply IH].
Qed.

(** C10. When [move_building] returns a new antenna list, the assigned
    building ids are the same multiset as before, so a duplicate-free
    assignment (pairwise disjoint lists, no id twice) stays duplicate-free;
    no antenna becomes empty, the source having held at least two
    buildings; and the two antennas touched keep their position and carry a
    type that is valid for their new buildings. *)
Theorem move_building_partition {G F} `{PyRandom G F} (antennas res : list Antenna)
    (bm : gmap Z Building) (g g' : G) :
  NoDup (assigned antennas) →
  Forall (λ a, a_buildings a ≠ []) antennas →
  move_building antennas bm g = Some (Some res, g') →
  assigned res ≡ₚ assigned antennas ∧
  NoDup (assigned res) ∧
  Forall (λ a, a_buildings a ≠ []) res ∧
  length res = length antennas ∧
  moved_one bm antennas res.
Proof.
  intros Hnd Hne Hmove.
  pose proof (move_building_moved_one _ _ _ _ _ Hmove) as Hmoved.
  destruct Hmoved as (src_idx & tgt_idx & src_ant & tgt_ant & bid & new_src & new_tgt
                      & Hidx & Hsrc & Htgt & Hlen & -> & Hrm & Hnew & Hps & Hpt
                      & Hvs & Hvt).
  assert (assigned (<[tgt_idx:=new_tgt]> (<[src_idx:=new_src]> antennas))
          ≡ₚ assigned antennas) as Hperm.
  { apply (Permutation_app_inv_r (a_buildings tgt_ant ++ a_buildings src_ant)).
    rewrite app_assoc.
    rewrite (assigned_insert (<[src_idx:=new_src]> antennas) tgt_idx tgt_ant new_tgt)
      by (by rewrite list_lookup_insert_ne).
    rewrite Hnew, <- !app_assoc.
    rewrite (Permutation_app_comm (a_buildings tgt_ant)
               ([bid] ++ a_buildings src_ant)).
    rewrite <- !app_assoc.
    rewrite (Permutation_app_comm [bid] (a_buildings src_ant ++ a_buildings tgt_ant)).
    rewrite !app_assoc.
    rewrite (assigned_insert antennas src_idx src_ant new_src Hsrc).
    rewrite <- !app_assoc. apply Permutation_app_head.
    rewrite (list_remove_first_perm _ _ _ Hrm).
    rewrite Permutation_app_comm, <- app_assoc.
    by apply Permutation_app_head. }
  split_and!.
  - done.
  - by rewrite Hperm.
  - apply Forall_insert; [apply Forall_insert; [done|]|].
    + apply list_remove_first_perm, Permutation_length in Hrm. simpl in Hrm.
      destruct (a_buildings new_src); simpl in *; [lia|done].
    + rewrite Hnew. by destruct (a_buildings tgt_ant).
  - by rewrite !length_insert.
  - by exists src_idx, tgt_idx, src_ant, tgt_ant, bid, new_src, new_tgt.
Qed.

Lemma move_building_partition_witness :
  assigned [mkAntenna Nano 0 0 [2]; mkAntenna MaxRange 400 0 [3; 1]]
  ≡ₚ assigned [mkAntenna Nano 0 0 [1; 2]; mkAntenna Nano 400 0 [3]] ∧
  NoDup (assigned [mkAntenna Nano 0 0 [2]; mkAntenna MaxRange 400 0 [3; 1]]) ∧
  Forall (λ a, a_buildings a ≠ [])
         [mkAntenna Nano 0 0 [2]; mkAntenna MaxRange 400 0 [3; 1]] ∧
  length [mkAntenna Nano 0 0 [2]; mkAntenna MaxRange 400 0 [3; 1]]
  = length [mkAntenna Nano 0 0 [1; 2]; mkAntenna Nano 400 0 [3]] ∧
  moved_one (mk_bmap village)
    [mkAntenna Nano 0 0 [1; 2]; mkAntenna Nano 400 0 [3]]
    [mkAntenna Nano 0 0 [2]; mkAntenna MaxRange 400 0 [3; 1]].
Proof.
  apply (move_building_partition (H := first_choice_random) _ _ (mk_bmap village) tt tt).
  - apply (bool_decide_unpack _). vm_compute. exact I.
  - by repeat constructor.
  - vm_compute. reflexivity.
Defined.

(** ** The annealing driver *)

Lemma sa_tick_consistent {F} `{FloatOps F} (rate : F) (st : SAState F) :
  sa_consistent st → sa_consistent (sa_tick rate st).
Proof. done. Qed.

Lemma sa_step_consistent {G F} `{FloatOps F, PyRandom G F, FloatErrors F} bm (rate : F)
    (st st' : SAState F) (g g' : G) :
  sa_step bm rate st g = Some (st', g') →
  sa_consistent st →
  sa_consistent st' ∧ sa_best_cost st' ≤ sa_best_cost st.
Proof.
  unfold sa_step, sa_consistent. intros Hstep (Hb & Hc & Hle).
  apply rbind_Some in Hstep as ([neighbor|] & g1 & _ & Hstep).
  - destruct (decide (calculate_cost neighbor - sa_current_cost st < 0)) as [Hd|Hd].
    + apply rret_Some in Hstep as [<- _]. unfold sa_record_best. simpl.
      destruct (decide (calculate_cost neighbor < sa_best_cost st)); simpl; lia.
    + apply rbind_Some in Hstep as (r & g2 & _ & Hstep).
      destruct (exp_div_raises _ _); [by apply rlift_Some in Hstep as [? _]|].
      destruct (f_lt r _); apply rret_Some in Hstep as [<- _]; simpl; lia.
  - apply rret_Some in Hstep as [<- _]. simpl. lia.
Qed.

(** After one iteration the recorded best is the one recorded before or the
    solution that has just become current. *)
Lemma sa_step_best {G F} `{FloatOps F, PyRandom G F, FloatErrors F} bm (rate : F)
    (st st' : SAState F) (g g' : G) :
  sa_step bm rate st g = Some (st', g') →
  (sa_best st' = sa_best st ∧ sa_best_cost st' = sa_best_cost st) ∨
  (sa_best st' = sa_current st' ∧ sa_best_cost st' = sa_current_cost st').
Proof.
  unfold sa_step. intros Hstep.
  apply rbind_Some in Hstep as ([neighbor|] & g1 & _ & Hstep).
  - destruct (decide (calculate_cost neighbor - sa_current_cost st < 0)) as [Hd|Hd].
    + apply rret_Some in Hstep as [<- _]. unfold sa_record_best. simpl.
      destruct (decide (calculate_cost neighbor < sa_best_cost st)); simpl;
        [by right|by left].
    + apply rbind_Some in Hstep as (r & g2 & _ & Hstep).
      destruct (exp_div_raises _ _); [by apply rlift_Some in Hstep as [? _]|].
      destruct (f_lt r _); apply rret_Some in Hstep as [<- _]; by left.
  - apply rret_Some in Hstep as [<- _]. by left.
Qed.

(** The best recorded at the end of a run is the one recorded at its start
    or the solution that was current after some number of its iterations. *)
Lemma sa_loop_best {G F} `{FloatOps F, PyRandom G F, FloatErrors F} bm
    (rate min_temp : F) n :
  ∀ (st st' : SAState F) (g g' : G),
  sa_loop n bm rate min_temp st g = Some (st', g') →
  (sa_best st' = sa_best st ∧ sa_best_cost st' = sa_best_cost st) ∨
  ∃ j st_j g_j,
    (j ≤ n)%nat ∧ sa_loop j bm rate min_temp st g = Some (st_j, g_j) ∧
    sa_best st' = sa_current st_j ∧ sa_best_cost st' = sa_current_cost st_j.
Proof.
  induction n as [|n IH]; intros st st' g g'; simpl.
  - intros [<- _]%rret_Some. by left.
  - destruct (f_lt min_temp (sa_temp st)) eqn:Hguard.
    + intros (st1 & g1 & Hstep & Hloop)%rbind_Some.
      destruct (IH _ _ _ _ Hloop) as [[Hb Hc]|(j & st_j & g_j & Hj & Hrun & Hb & Hc)].
      * destruct (sa_step_best _ _ _ _ _ _ Hstep) as [[Hb1 Hc1]|[Hb1 Hc1]].
        -- left. split; congruence.
        -- right. exists 1%nat, st1, g1. split_and!; [lia| |congruence..].
           simpl. rewrite Hguard. apply rbind_Some. by exists st1, g1.
      * right. exists (S j), st_j, g_j. split_and!; [lia| |done..].
        simpl. rewrite Hguard. apply rbind_Some. by exists st1, g1.
    + intros [<- _]%rret_Some. by left.
Qed.

Lemma sa_loop_consistent {G F} `{FloatOps F, PyRandom G F, FloatErrors F} bm (rate min_temp : F) n :
  ∀ (st st' : SAState F) (g g' : G),
  sa_loop n bm rate min_temp st g = Some (st', g') →
  sa_consistent st →
  sa_consistent st' ∧ sa_best_cost st' ≤ sa_best_cost st.
Proof.
  induction n as [|n IH]; intros st st' g g'; simpl.
  - intros [<- _]%rret_Some Hst. split; [done|lia].
  - destruct (f_lt min_temp (sa_temp st)).
    + intros (st1 & g1 & Hstep & Hloop)%rbind_Some Hst.
      destruct (sa_step_consistent _ _ _ _ _ _ Hstep Hst) as [Hst1 Hle1].
      destruct (IH _ _ _ _ Hloop Hst1) as [Hst' Hle']. split; [done|lia].
    + intros [<- _]%rret_Some Hst. split; [done|lia].
Qed.

(** A run with budget [j + m] passes through the state that the run with
    budget [j] returns. *)
Lemma sa_loop_split {G F} `{FloatOps F, PyRandom G F, FloatErrors F} bm (rate min_temp : F) j m :
  ∀ (st fin : SAState F) (g g' : G),
  sa_loop (j + m) bm rate min_temp st g = Some (fin, g') →
  ∃ st_j g_j,
    sa_loop j bm rate min_temp st g = Some (st_j, g_j) ∧
    sa_loop m bm rate min_temp st_j g_j = Some (fin, g').
Proof.
  induction j as [|j IH]; intros st fin g g'; simpl.
  - intros Hrun. by exists st, g.
  - destruct (f_lt min_temp (sa_temp st)) eqn:Hguard.
    + intros (st1 & g1 & Hstep & Hloop)%rbind_Some.
      apply IH in Hloop as (st_j & g_j & Hj & Hm).
      exists st_j, g_j. split; [|done].
      apply rbind_Some. by exists st1, g1.
    + intros [<- <-]%rret_Some. exists st, g. split; [done|].
      destruct m; simpl; [done|]. by rewrite Hguard.
Qed.

Lemma sa_init_consistent {F} (antennas : list Antenna) (initial_temp : F) :
  sa_consistent (sa_init antennas initial_temp).
Proof. unfold sa_consistent. simpl. lia. Qed.

(** C6. When [simulated_annealing] returns [(best, best_cost)], the pair is
    the best solution and the best cost recorded in the final state of the
    run, not its working solution; [best] is the initial solution or the
    solution that was current after some number of iterations, and
    [best_cost] is its cost; [best_cost] is at most the cost of the initial
    solution.  For every [j <= k] within the budget, the run passes
    through the states after [j] and after [k] iterations (the runs with
    budgets [j] and [k]); the best cost recorded after [k] is at most the
    one recorded after [j], which is at most the cost of the solution that
    is current after [j]; and the returned [best_cost] is at most all of
    them.  So no accepted move, improving or not, loses the best result. *)
Theorem simulated_annealing_best_snapshot {G F} `{FloatOps F, PyRandom G F, FloatErrors F}
    (antennas : list Antenna) (bm : gmap Z Building)
    (initial_temp cooling_rate min_temp : F) (max_iterations : Z)
    (g g' : G) (best : list Antenna) (best_cost : Z) :
  simulated_annealing antennas bm initial_temp cooling_rate min_temp max_iterations g
  = Some ((best, best_cost), g') →
  best_cost = calculate_cost best ∧
  best_cost ≤ calculate_cost antennas ∧
  (∀ j k, (j ≤ k ≤ Z.to_nat max_iterations)%nat →
    ∃ st_j g_j st_k g_k,
      sa_loop j bm cooling_rate min_temp (sa_init antennas initial_temp) g
      = Some (st_j, g_j) ∧
      sa_loop k bm cooling_rate min_temp (sa_init antennas initial_temp) g
      = Some (st_k, g_k) ∧
      sa_current_cost st_j = calculate_cost (sa_current st_j) ∧
      best_cost ≤ sa_best_cost st_k ∧
      sa_best_cost st_k ≤ sa_best_cost st_j ∧
      sa_best_cost st_j ≤ sa_current_cost st_j) ∧
  (∃ fin,
     sa_loop (Z.to_nat max_iterations) bm cooling_rate min_temp
             (sa_init antennas initial_temp) g = Some (fin, g') ∧
     best = sa_best fin ∧ best_cost = sa_best_cost fin) ∧
  (∃ j st_j g_j,
     (j ≤ Z.to_nat max_iterations)%nat ∧
     sa_loop j bm cooling_rate min_temp (sa_init antennas initial_temp) g
     = Some (st_j, g_j) ∧
     best = sa_current st_j ∧ best_cost = sa_current_cost st_j).
Proof.
  unfold simulated_annealing.
  intros (fin & g1 & Hrun & [[= <- <-] <-]%rret_Some)%rbind_Some.
  pose proof (sa_init_consistent antennas initial_temp) as Hinit.
  destruct (sa_loop_consistent _ _ _ _ _ _ _ _ Hrun Hinit) as [(Hb & _ & _) Hle].
  split_and!; [done..| | |].
  - intros j k [Hjk Hkn].
    replace (Z.to_nat max_iterations)
      with (j + ((k - j) + (Z.to_nat max_iterations - k)))%nat in Hrun by lia.
    apply sa_loop_split in Hrun as (st_j & g_j & Hj & Hrest).
    apply sa_loop_split in Hrest as (st_k & g_k & Hjk' & Hk).
    destruct (sa_loop_consistent _ _ _ _ _ _ _ _ Hj Hinit) as [Hcj _].
    destruct (sa_loop_consistent _ _ _ _ _ _ _ _ Hjk' Hcj) as [Hck Hlek].
    destruct (sa_loop_consistent _ _ _ _ _ _ _ _ Hk Hck) as [_ Hlef].
    exists st_j, g_j, st_k, g_k. destruct Hcj as (_ & Hcur & Hbc).
    split_and!; try done.
    assert (sa_loop (j + (k - j)) bm cooling_rate min_temp
              (sa_init antennas initial_temp) g = Some (st_k, g_k)) as Hkk.
    { clear -Hj Hjk'. revert Hj Hjk'. generalize (sa_init antennas initial_temp) g.
      generalize (k - j)%nat as m.
      induction j as [|j IH]; intros m st0 g0; simpl.
      - by intros [<- <-]%rret_Some.
      - destruct (f_lt min_temp (sa_temp st0)) eqn:Hguard.
        + intros (st1 & g1 & Hstep & Hloop)%rbind_Some Hm.
          apply rbind_Some. exists st1, g1. split; [done|]. by apply IH.
        + intros [<- <-]%rret_Some Hm. destruct m; simpl in Hm; [done|].
          by rewrite Hguard in Hm. }
    by replace (j + (k - j))%nat with k in Hkk by lia.
  - by exists fin.
  - destruct (sa_loop_best _ _ _ _ _ _ _ _ Hrun)
      as [[Hbest Hcost]|(j & st_j & g_j & Hj & Hrunj & Hbest & Hcost)].
    + exists 0%nat, (sa_init antennas initial_temp), g. split_and!; [lia|done|done..].
    + by exists j, st_j, g_j.
Qed.

Lemma simulated_annealing_best_snapshot_witness :
  10000 = calculate_cost village_solution ∧
  10000 ≤ calculate_cost village_solution ∧
  (∀ j k, (j ≤ k ≤ Z.to_nat 3)%nat →
    ∃ st_j g_j st_k g_k,
      sa_loop (H := integer_floats) (H0 := first_choice_random)
        (H1 := integer_float_errors) j (mk_bmap village) 1 0
        (sa_init village_solution 100) tt = Some (st_j, g_j) ∧
      sa_loop (H := integer_floats) (H0 := first_choice_random)
        (H1 := integer_float_errors) k (mk_bmap village) 1 0
        (sa_init village_solution 100) tt = Some (st_k, g_k) ∧
      sa_current_cost st_j = calculate_cost (sa_current st_j) ∧
      10000 ≤ sa_best_cost st_k ∧
      sa_best_cost st_k ≤ sa_best_cost st_j ∧
      sa_best_cost st_j ≤ sa_current_cost st_j) ∧
  (∃ fin,
     sa_loop (H := integer_floats) (H0 := first_choice_random)
       (H1 := integer_float_errors) (Z.to_nat 3) (mk_bmap village) 1 0
       (sa_init village_solution 100) tt = Some (fin, tt) ∧
     village_solution = sa_best fin ∧ 10000 = sa_best_cost fin) ∧
  (∃ j st_j g_j,
     (j ≤ Z.to_nat 3)%nat ∧
     sa_loop (H := integer_floats) (H0 := first_choice_random)
       (H1 := integer_float_errors) j (mk_bmap village) 1 0
       (sa_init village_solution 100) tt = Some (st_j, g_j) ∧
     village_solution = sa_current st_j ∧ 10000 = sa_current_cost st_j).
Proof.
  apply (simulated_annealing_best_snapshot (H := integer_floats)
           (H0 := first_choice_random) (H1 := integer_float_errors)
           village_solution (mk_bmap village)
           100 1 0 3 tt tt village_solution 10000).
  vm_compute. reflexivity.
Defined.

(** In that run every move is accepted although it costs more: after three
    iterations the working solution costs 80000 and the best one, the
    initial solution, 10000. *)
Lemma annealing_keeps_best_example :
  ∃ st,
    sa_loop (H := integer_floats) (H0 := first_choice_random)
        (H1 := integer_float_errors) 3 (mk_bmap village) 1 0
      (sa_init village_solution 100) tt = Some (st, tt) ∧
    sa_current_cost st = 80000 ∧ sa_best_cost st = 10000 ∧
    sa_best st = village_solution.
Proof. eexists. split; [by vm_compute|done]. Qed.

Lemma cooled_succ {F} `{FloatOps F} (rate : F) k temp :
  cooled rate (S k) temp = cooled rate k (f_mul temp rate).
Proof. unfold cooled. by rewrite Nat.iter_succ_r. Qed.

Lemma sa_step_rule {G F} `{FloatOps F, PyRandom G F, FloatErrors F} bm (rate : F)
    (st st' : SAState F) (g g' : G) :
  sa_step bm rate st g = Some (st', g') → metropolis_step bm rate st g st' g'.
Proof.
  unfold sa_step, metropolis_step.
  intros (neighbor & g1 & Hn & Hstep)%rbind_Some.
  destruct neighbor as [n|].
  - destruct (decide (calculate_cost n - sa_current_cost st < 0)) as [Hd|Hd].
    + apply rret_Some in Hstep as [<- <-].
      split_and!; [unfold sa_record_best; simpl; by case_decide..|].
      exists (Some n), g1. split; [done|]. rewrite decide_True by done.
      unfold sa_record_best. simpl. by case_decide.
    + apply rbind_Some in Hstep as (r & g2 & Hr%rdraw_Some & Hstep).
      destruct (exp_div_raises _ _); [by apply rlift_Some in Hstep as [? _]|].
      destruct (f_lt r _) eqn:Hacc; apply rret_Some in Hstep as [<- <-];
        (split_and!; [done..|]); exists (Some n), g1; (split; [done|]);
        rewrite decide_False by done; exists r; (split; [done|]);
        by rewrite Hacc.
  - apply rret_Some in Hstep as [<- <-]. split_and!; [done..|].
    by exists None, g1.
Qed.

Lemma sa_loop_rule {G F} `{FloatOps F, PyRandom G F, FloatErrors F} bm (rate min_temp : F) n :
  ∀ (st st' : SAState F) (g g' : G),
  sa_loop n bm rate min_temp st g = Some (st', g') →
  ∃ k, (k ≤ n)%nat ∧
       sa_iteration st' = sa_iteration st + Z.of_nat k ∧
       sa_temp st' = cooled rate k (sa_temp st) ∧
       (∀ j, (j < k)%nat → f_lt min_temp (cooled rate j (sa_temp st)) = true) ∧
       (k = n ∨ f_lt min_temp (sa_temp st') = false).
Proof.
  induction n as [|n IH]; intros st st' g g'; simpl.
  - intros [<- _]%rret_Some. exists 0%nat.
    split_and!; [done|lia|done|intros; lia|by left].
  - destruct (f_lt min_temp (sa_temp st)) eqn:Hguard.
    + intros (st1 & g1 & Hstep & Hloop)%rbind_Some.
      apply sa_step_rule in Hstep as (Htemp & Hiter & _).
      apply IH in Hloop as (k & Hk & Hit & Ht & Hbefore & Hstop).
      exists (S k). split_and!.
      * lia.
      * lia.
      * by rewrite cooled_succ, <- Htemp.
      * intros [|j] Hj; [done|]. rewrite cooled_succ, <- Htemp. apply Hbefore. lia.
      * destruct Hstop as [->|?]; [by left|by right].
    + intros [<- _]%rret_Some. exists 0%nat.
      split_and!; [lia|lia|done|intros; lia|by right].
Qed.

(** The iterations of a run, one by one: the run with budget [n] makes
    [k <= n] iterations, and iteration [j < k] is the step from the state
    after [j] iterations to the state after [j + 1]. *)
Lemma sa_loop_trace {G F} `{FloatOps F, PyRandom G F, FloatErrors F} bm (rate min_temp : F) n :
  ∀ (st fin : SAState F) (g g' : G),
  sa_loop n bm rate min_temp st g = Some (fin, g') →
  ∃ k, (k ≤ n)%nat ∧
       sa_loop k bm rate min_temp st g = Some (fin, g') ∧
       (k = n ∨ f_lt min_temp (sa_temp fin) = false) ∧
       ∀ j, (j < k)%nat →
         ∃ st_j g_j st_j1 g_j1,
           sa_loop j bm rate min_temp st g = Some (st_j, g_j) ∧
           sa_loop (S j) bm rate min_temp st g = Some (st_j1, g_j1) ∧
           f_lt min_temp (sa_temp st_j) = true ∧
           sa_step bm rate st_j g_j = Some (st_j1, g_j1).
Proof.
  induction n as [|n IH]; intros st fin g g'.
  - simpl. intros [<- <-]%rret_Some. exists 0%nat.
    split_and!; [done|done|by left|intros; lia].
  - cbn [sa_loop]. destruct (f_lt min_temp (sa_temp st)) eqn:Hguard.
    + intros (st1 & g1 & Hstep & Hloop)%rbind_Some.
      apply IH in Hloop as (k & Hk & Hrun & Hstop & Hiter).
      exists (S k). split_and!.
      * lia.
      * cbn [sa_loop]. rewrite ?Hguard. apply rbind_Some. by exists st1, g1.
      * destruct Hstop as [->|?]; [by left|by right].
      * intros [|j] Hj.
        -- exists st, g, st1, g1. split_and!; [done| |done|done].
           cbn [sa_loop]. rewrite ?Hguard. apply rbind_Some. by exists st1, g1.
        -- destruct (Hiter j ltac:(lia)) as (st_j & g_j & st_j1 & g_j1 & Hj0 & Hj1 & ? & ?).
           exists st_j, g_j, st_j1, g_j1. split_and!; [| |done|done].
           ++ cbn [sa_loop]. rewrite ?Hguard. apply rbind_Some. by exists st1, g1.
           ++ change (sa_loop (S (S j)) bm rate min_temp st g)
                with (if f_lt min_temp (sa_temp st)
                      then rbind (sa_step bm rate st)
                                 (λ st', sa_loop (S j) bm rate min_temp st') g
                      else rret st g).
              rewrite ?Hguard. apply rbind_Some. by exists st1, g1.
    + intros [<- <-]%rret_Some. exists 0%nat.
      split_and!; [lia|done|by right|intros; lia].
Qed.

(** C7. A run of [simulated_annealing] that returns makes [k] iterations,
    [k] at most the budget, and stops because the budget is used up or the
    temperature is no longer above [min_temp]; before each iteration the
    temperature was above [min_temp].  Iteration [j] starts at temperature
    [initial_temp * cooling_rate ^ j] and is one [metropolis_step]: a
    cheaper candidate is accepted with no draw, another one exactly when the
    number drawn is below [exp(-delta / temp)], no candidate leaves the
    current solution as it is, and in all cases the temperature is
    multiplied by [cooling_rate] once. *)
Theorem annealing_transition_rule {G F} `{FloatOps F, PyRandom G F, FloatErrors F}
    (antennas : list Antenna) (bm : gmap Z Building)
    (initial_temp cooling_rate min_temp : F) (max_iterations : Z)
    (g g' : G) (res : list Antenna * Z) :
  simulated_annealing antennas bm initial_temp cooling_rate min_temp max_iterations g
  = Some (res, g') →
  ∃ k fin,
    (k ≤ Z.to_nat max_iterations)%nat ∧
    sa_loop k bm cooling_rate min_temp (sa_init antennas initial_temp) g
    = Some (fin, g') ∧
    res = (sa_best fin, sa_best_cost fin) ∧
    sa_iteration fin = Z.of_nat k ∧
    sa_temp fin = cooled cooling_rate k initial_temp ∧
    (k = Z.to_nat max_iterations ∨ f_lt min_temp (sa_temp fin) = false) ∧
    ∀ j, (j < k)%nat →
      ∃ st_j g_j st_j1 g_j1,
        sa_loop j bm cooling_rate min_temp (sa_init antennas initial_temp) g
        = Some (st_j, g_j) ∧
        sa_loop (S j) bm cooling_rate min_temp (sa_init antennas initial_temp) g
        = Some (st_j1, g_j1) ∧
        sa_temp st_j = cooled cooling_rate j initial_temp ∧
        f_lt min_temp (sa_temp st_j) = true ∧
        metropolis_step bm cooling_rate st_j g_j st_j1 g_j1.
Proof.
  unfold simulated_annealing.
  intros (fin & g1 & Hrun & [<- <-]%rret_Some)%rbind_Some.
  apply sa_loop_trace in Hrun as (k & Hk & Hrun & Hstop & Hiter).
  pose proof (sa_loop_rule _ _ _ _ _ _ _ _ Hrun)
    as (k' & Hk' & Hit & Ht & Hbefore & Hstop').
  assert (k' = k) as ->.
  { destruct Hstop' as [->|Hfalse]; [done|].
    destruct (decide (k' = k)) as [->|Hne]; [done|]. exfalso.
    destruct (Hiter k' ltac:(lia)) as (st_j & g_j & _ & _ & Hj & _ & Hguard & _).
    apply sa_loop_rule in Hj as (kj & Hkj & _ & Htj & Hbj & Hsj).
    assert (kj = k') as ->.
    { destruct Hsj as [->|Hf]; [done|]. congruence. }
    rewrite Htj, <- Ht in Hguard. congruence. }
  exists k, fin. split_and!; try done.
  intros j Hj.
  destruct (Hiter j Hj) as (st_j & g_j & st_j1 & g_j1 & Hj0 & Hj1 & Hguard & Hstep).
  exists st_j, g_j, st_j1, g_j1. split_and!; try done.
  - apply sa_loop_rule in Hj0 as (kj & Hkj & _ & Htj & _ & Hsj).
    destruct Hsj as [->|Hf]; [done|congruence].
  - by apply sa_step_rule.
Qed.

Lemma annealing_transition_rule_witness :
  ∃ k fin,
    (k ≤ Z.to_nat 3)%nat ∧
    sa_loop (H := integer_floats) (H0 := first_choice_random)
        (H1 := integer_float_errors) k (mk_bmap village) 1 0
      (sa_init village_solution 100) tt = Some (fin, tt) ∧
    (village_solution, 10000) = (sa_best fin, sa_best_cost fin) ∧
    sa_iteration fin = Z.of_nat k ∧
    sa_temp fin = cooled (H := integer_floats) 1 k 100 ∧
    (k = Z.to_nat 3 ∨ f_lt (FloatOps := integer_floats) 0 (sa_temp fin) = false) ∧
    ∀ j, (j < k)%nat →
      ∃ st_j g_j st_j1 g_j1,
        sa_loop (H := integer_floats) (H0 := first_choice_random)
        (H1 := integer_float_errors) j (mk_bmap village) 1 0
          (sa_init village_solution 100) tt = Some (st_j, g_j) ∧
        sa_loop (H := integer_floats) (H0 := first_choice_random)
        (H1 := integer_float_errors) (S j)
          (mk_bmap village) 1 0 (sa_init village_solution 100) tt
        = Some (st_j1, g_j1) ∧
        sa_temp st_j = cooled (H := integer_floats) 1 j 100 ∧
        f_lt (FloatOps := integer_floats) 0 (sa_temp st_j) = true ∧
        metropolis_step (H := integer_floats) (H0 := first_choice_random)
          (mk_bmap village) 1 st_j g_j st_j1 g_j1.
Proof.
  apply (annealing_transition_rule (H := integer_floats) (H0 := first_choice_random)
        (H1 := integer_float_errors)
           village_solution (mk_bmap village) 100 1 0 3 tt tt
           (village_solution, 10000)).
  vm_compute. reflexivity.
Defined.

(** ** Determinism of the annealing driver *)

Section determinism.
Context {G1 G2 F : Type} `{FloatOps F} {E : FloatErrors F}.
Context (R1 : PyRandom G1 F) (R2 : PyRandom G2 F).
Context (rel : G1 → G2 → Prop) (Hsame : same_draws R1 R2 rel).

Lemma same_result_ret {A} (a : A) : same_result rel (rret a) (rret a).
Proof. by intros g1 g2 Hg. Qed.

Lemma same_result_lift {A} (o : option A) : same_result rel (rlift o) (rlift o).
Proof. intros g1 g2 Hg. unfold rlift. by destruct o. Qed.

Lemma same_result_draw {A} (d1 : G1 → A * G1) (d2 : G2 → A * G2) :
  (∀ g1 g2, rel g1 g2 → (d1 g1).1 = (d2 g2).1 ∧ rel (d1 g1).2 (d2 g2).2) →
  same_result rel (rdraw d1) (rdraw d2).
Proof.
  intros Hd g1 g2 Hg. unfold rdraw. specialize (Hd g1 g2 Hg).
  by destruct (d1 g1), (d2 g2).
Qed.

Lemma same_result_bind {A B} (m1 : Rand G1 A) (m2 : Rand G2 A)
    (k1 : A → Rand G1 B) (k2 : A → Rand G2 B) :
  same_result rel m1 m2 →
  (∀ a, same_result rel (k1 a) (k2 a)) →
  same_result rel (rbind m1 k1) (rbind m2 k2).
Proof.
  intros Hm Hk g1 g2 Hg. unfold rbind. specialize (Hm g1 g2 Hg).
  destruct (m1 g1) as [[a1 g1']|], (m2 g2) as [[a2 g2']|]; try done.
  destruct Hm as [-> Hg']. by apply Hk.
Qed.

Ltac same_res :=
  repeat first
    [ apply same_result_ret
    | apply same_result_lift
    | apply same_result_bind; [|intros ?]
    | apply same_result_draw; by (apply Hsame) ].

Lemma same_random_choice {A} (l : list A) :
  same_result rel (random_choice (H := R1) l) (random_choice (H := R2) l).
Proof. unfold random_choice. destruct l; same_res. Qed.

Lemma same_random_randint a b :
  same_result rel (random_randint (H := R1) a b) (random_randint (H := R2) a b).
Proof. unfold random_randint. case_decide; same_res. Qed.

Lemma same_move_building antennas bm :
  same_result rel (move_building (H := R1) antennas bm)
                  (move_building (H := R2) antennas bm).
Proof.
  unfold move_building. case_decide; [same_res|].
  destruct (indices_with_more_than 1 antennas); [same_res|].
  apply same_result_bind; [apply same_random_choice|intros src_idx].
  apply same_result_bind; [same_res|intros src_ant].
  apply same_result_bind; [apply same_random_choice|intros bid].
  same_res.
Qed.

Lemma same_merge_antennas antennas bm :
  same_result rel (merge_antennas (H := R1) antennas bm)
                  (merge_antennas (H := R2) antennas bm).
Proof. unfold merge_antennas. case_decide; same_res. Qed.

Lemma same_split_antenna antennas bm :
  same_result rel (split_antenna (H := R1) antennas bm)
                  (split_antenna (H := R2) antennas bm).
Proof.
  unfold split_antenna.
  destruct (indices_with_more_than 1 antennas); [same_res|].
  apply same_result_bind; [apply same_random_choice|intros idx].
  same_res. repeat case_match; same_res.
Qed.

Lemma same_relocate_antenna antennas bm :
  same_result rel (relocate_antenna (H := R1) antennas bm)
                  (relocate_antenna (H := R2) antennas bm).
Proof.
  unfold relocate_antenna. destruct antennas; [same_res|].
  apply same_result_bind; [apply same_random_randint|intros idx].
  apply same_result_bind; [same_res|intros ant].
  apply same_result_bind; [same_res|intros blds].
  apply same_result_bind; [apply same_random_choice|intros target_b].
  same_res. case_match; same_res.
Qed.

Lemma same_moves_table : same_moves rel (moves (H0 := R1)) (moves (H0 := R2)).
Proof.
  unfold same_moves, moves. repeat constructor; simpl; intros.
  - apply same_move_building.
  - apply same_merge_antennas.
  - apply same_split_antenna.
  - apply same_relocate_antenna.
Qed.

Lemma same_try_all_moves (ms1 : list (Move G1 * F)) (ms2 : list (Move G2 * F))
    antennas bm :
  same_moves rel ms1 ms2 →
  same_result rel (try_all_moves ms1 antennas bm) (try_all_moves ms2 antennas bm).
Proof.
  induction 1 as [|[m1 p1] [m2 p2] ms1 ms2 [Hm _] _ IH]; simpl; [same_res|].
  apply same_result_bind; [apply Hm|intros result].
  destruct (truthy result); [same_res|apply IH].
Qed.

Lemma same_pick_move r (ms1 : list (Move G1 * F)) (ms2 : list (Move G2 * F)) :
  ∀ cumulative,
  same_moves rel ms1 ms2 →
  match pick_move r cumulative ms1, pick_move r cumulative ms2 with
  | Some m1, Some m2 => ∀ antennas bm, same_result rel (m1 antennas bm) (m2 antennas bm)
  | None, None => True
  | _, _ => False
  end.
Proof.
  intros cumulative Hms. revert cumulative.
  induction Hms as [|[m1 p1] [m2 p2] ms1 ms2 [Hm Hp] _ IH]; intros cumulative;
    simpl; [done|].
  simpl in Hp. subst p2. destruct (f_lt r (f_add cumulative p1)); [done|apply IH].
Qed.

Lemma same_random_neighbor antennas bm :
  same_result rel (random_neighbor (H0 := R1) antennas bm)
                  (random_neighbor (H0 := R2) antennas bm).
Proof.
  unfold random_neighbor.
  apply same_result_bind; [same_res|intros r].
  pose proof (same_pick_move r _ _ (f_of_Z 0) same_moves_table) as Hpick.
  destruct (pick_move r (f_of_Z 0) (moves (H0 := R1))) as [m1|],
           (pick_move r (f_of_Z 0) (moves (H0 := R2))) as [m2|]; try done.
  - apply same_result_bind; [apply Hpick|intros result].
    destruct (truthy result); [same_res|].
    apply same_try_all_moves, same_moves_table.
  - apply same_try_all_moves, same_moves_table.
Qed.

Lemma same_sa_step bm (rate : F) (st : SAState F) :
  same_result rel (sa_step (H0 := R1) bm rate st) (sa_step (H0 := R2) bm rate st).
Proof.
  unfold sa_step.
  apply same_result_bind; [apply same_random_neighbor|intros neighbor].
  destruct neighbor as [n|]; [|same_res].
  case_decide; [same_res|].
  apply same_result_bind; [same_res|intros r].
  repeat case_match; same_res.
Qed.

Lemma same_sa_loop bm (rate min_temp : F) n : ∀ st : SAState F,
  same_result rel (sa_loop (H0 := R1) n bm rate min_temp st)
                  (sa_loop (H0 := R2) n bm rate min_temp st).
Proof.
  induction n as [|n IH]; intros st; simpl; [same_res|].
  destruct (f_lt min_temp (sa_temp st)); [|same_res].
  apply same_result_bind; [apply same_sa_step|apply IH].
Qed.

Lemma same_simulated_annealing antennas bm (initial_temp rate min_temp : F)
    max_iterations :
  same_result rel
    (simulated_annealing (H0 := R1) antennas bm initial_temp rate min_temp max_iterations)
    (simulated_annealing (H0 := R2) antennas bm initial_temp rate min_temp max_iterations).
Proof.
  unfold simulated_annealing.
  apply same_result_bind; [apply same_sa_loop|intros st]. same_res.
Qed.

End determinism.

(** C9. Two runs of [simulated_annealing] on the same antenna list,
    building map and parameters, each with its own generator, the two
    generators seeded alike (every draw from related states returns the same
    value), end alike: both raise, or both return the same best solution and
    the same best cost. *)
Theorem simulated_annealing_deterministic {G1 G2 F} `{FloatOps F} {E : FloatErrors F}
    (R1 : PyRandom G1 F) (R2 : PyRandom G2 F) (rel : G1 → G2 → Prop)
    (antennas : list Antenna) (bm : gmap Z Building)
    (initial_temp cooling_rate min_temp : F) (max_iterations : Z)
    (g1 : G1) (g2 : G2) :
  same_draws R1 R2 rel → rel g1 g2 →
  fst <$> simulated_annealing (H0 := R1) antennas bm initial_temp cooling_rate
            min_temp max_iterations g1
  = fst <$> simulated_annealing (H0 := R2) antennas bm initial_temp cooling_rate
              min_temp max_iterations g2.
Proof.
  intros Hsame Hg.
  pose proof (same_simulated_annealing R1 R2 rel Hsame antennas bm initial_temp
                cooling_rate min_temp max_iterations g1 g2 Hg) as Hres.
  destruct (simulated_annealing (H0 := R1) _ _ _ _ _ _ g1) as [[r1 g1']|],
           (simulated_annealing (H0 := R2) _ _ _ _ _ _ g2) as [[r2 g2']|];
    try done.
  simpl. by destruct Hres as [-> _].
Qed.

(** With one generator: the same generator state gives the same run. *)
Lemma simulated_annealing_same_seed {G F} `{FloatOps F, PyRandom G F, FloatErrors F}
    (antennas : list Antenna) (bm : gmap Z Building)
    (initial_temp cooling_rate min_temp : F) (max_iterations : Z) (g1 g2 : G) :
  g1 = g2 →
  simulated_annealing antennas bm initial_temp cooling_rate min_temp max_iterations g1
  = simulated_annealing antennas bm initial_temp cooling_rate min_temp max_iterations g2.
Proof. by intros ->. Qed.

Lemma counting_same_draws :
  same_draws first_choice_random counting_random (λ _ _, True).
Proof. by split. Qed.

Lemma simulated_annealing_deterministic_witness :
  fst <$> simulated_annealing (H := integer_floats) (H0 := first_choice_random)
            (H1 := integer_float_errors)
            village_solution (mk_bmap village) 100 1 0 3 tt
  = fst <$> simulated_annealing (H := integer_floats) (H0 := counting_random)
              (H1 := integer_float_errors)
              village_solution (mk_bmap village) 100 1 0 3 7%nat.
Proof.
  apply (simulated_annealing_deterministic (H := integer_floats)
           (E := integer_float_errors)
           first_choice_random counting_random (λ _ _, True)).
  - exact counting_same_draws.
  - exact I.
Defined.

(** * Further properties of the two scripts *)

(** ** The validity check and the cheapest valid type *)

Lemma valid_antenna_fits bm ant :
  valid_antenna bm ant ↔
  a_buildings ant ≠ [] ∧
  ∃ blds, lookup_all bm (a_buildings ant) = Some blds ∧
          type_fits (a_type ant) (a_x ant) (a_y ant) blds.
Proof.
  unfold valid_antenna, is_valid_antenna, type_fits.
  destruct (a_buildings ant) as [|bid bids] eqn:Hb.
  { split; [done|]. by intros [? _]. }
  destruct (lookup_all bm (bid :: bids)) as [blds|]; simpl.
  - destruct (decide (capacity (a_type ant) < total_pop_of blds)) as [Hcap|Hcap].
    + split; [done|]. intros (_ & blds' & [= <-] & ? & _). lia.
    + split.
      * intros [= Hr]. split; [done|]. exists blds.
        split_and!; [done|lia|by apply all_in_range_Forall].
      * intros (_ & blds' & [= <-] & _ & Hr).
        apply all_in_range_Forall in Hr. by rewrite Hr.
  - split; [done|]. by intros (_ & blds' & ? & _).
Qed.

Lemma get_cheapest_none_fits ant bm blds :
  lookup_all bm (a_buildings ant) = Some blds →
  get_cheapest_valid_type ant bm = Some None →
  ∀ t, ¬ type_fits t (a_x ant) (a_y ant) blds.
Proof.
  unfold get_cheapest_valid_type. intros -> [= Hh] t [Hcap Hrange]. simpl in Hh.
  assert (t ∈ filter (λ atype, bool_decide (total_pop_of blds ≤ capacity atype)
                               && all_in_range (a_x ant) (a_y ant) (range_of atype) blds)
                     TYPE_ORDER) as Hin.
  { apply list_elem_of_filter. split; [|destruct t; set_solver].
    apply andb_prop_intro. split; [by apply bool_decide_pack|].
    by apply Is_true_eq_left, all_in_range_Forall. }
  destruct (filter _ TYPE_ORDER); [by apply elem_of_nil in Hin|done].
Qed.

Lemma lookup_all_None (bm : gmap Z Building) bids :
  lookup_all bm bids = None → ∃ bid, bid ∈ bids ∧ bm !! bid = None.
Proof.
  unfold lookup_all. induction bids as [|bid bids IH]; [done|].
  destruct (bm !! bid) as [b|] eqn:Hb.
  - destruct (mapM (λ bid, bm !! bid) bids) as [tl|] eqn:Htl.
    + cbn. rewrite Hb. cbn. by rewrite Htl.
    + intros _. destruct (IH eq_refl) as (bid' & ? & ?). exists bid'.
      split; [by right|done].
  - intros _. exists bid. split; [by left|done].
Qed.

(** X1.  [get_cheapest_valid_type] raises exactly when a building id of the
    antenna is missing from the map.  Otherwise it returns a type that fits
    the buildings and that no fitting type undercuts, or [None] when no type
    fits. *)
Theorem get_cheapest_valid_type_spec (ant : Antenna) (bm : gmap Z Building) :
  match lookup_all bm (a_buildings ant), get_cheapest_valid_type ant bm with
  | Some blds, Some (Some t) =>
      type_fits t (a_x ant) (a_y ant) blds ∧
      ∀ t', type_fits t' (a_x ant) (a_y ant) blds → cost_on t ≤ cost_on t'
  | Some blds, Some None => ∀ t', ¬ type_fits t' (a_x ant) (a_y ant) blds
  | None, None => ∃ bid, bid ∈ a_buildings ant ∧ bm !! bid = None
  | _, _ => False
  end.
Proof.
  destruct (lookup_all bm (a_buildings ant)) as [blds|] eqn:Hblds.
  - destruct (get_cheapest_valid_type ant bm) as [[t|]|] eqn:Hget.
    + split.
      * apply get_cheapest_valid_type_fits in Hget as (blds' & Hb' & Hfit).
        by simplify_eq.
      * intros t' Hfit. by eapply get_cheapest_valid_type_cheapest.
    + by eapply get_cheapest_none_fits.
    + unfold get_cheapest_valid_type in Hget. by rewrite Hblds in Hget.
  - unfold get_cheapest_valid_type. rewrite Hblds. simpl.
    by apply lookup_all_None.
Qed.

Lemma optimize_antenna_type_cases ant bm ant' :
  optimize_antenna_type ant bm = Some ant' →
  a_x ant' = a_x ant ∧ a_y ant' = a_y ant ∧ a_buildings ant' = a_buildings ant ∧
  (get_cheapest_valid_type ant bm = Some (Some (a_type ant'))
   ∨ (get_cheapest_valid_type ant bm = Some None ∧ ant' = ant)).
Proof.
  unfold optimize_antenna_type.
  destruct (get_cheapest_valid_type ant bm) as [[t|]|]; simpl; [| |done].
  - intros [= <-]. split_and!; try done. by left.
  - intros [= <-]. split_and!; try done. by right.
Qed.

(** X2.  [optimize_antenna_type] keeps a valid antenna valid: it returns the
    antenna at the same position with the same buildings and a type that is
    valid and costs no more. *)
Theorem optimize_antenna_type_valid (ant : Antenna) (bm : gmap Z Building) :
  valid_antenna bm ant →
  ∃ ant',
    optimize_antenna_type ant bm = Some ant' ∧
    valid_antenna bm ant' ∧
    cost_on (a_type ant') ≤ cost_on (a_type ant) ∧
    (a_x ant', a_y ant', a_buildings ant') = (a_x ant, a_y ant, a_buildings ant).
Proof.
  intros Hvalid. pose proof Hvalid as (Hne & blds & Hblds & Hfit)%valid_antenna_fits.
  destruct (get_cheapest_valid_type ant bm) as [[t|]|] eqn:Hget.
  - exists (set_type t ant). unfold optimize_antenna_type. rewrite Hget. simpl.
    split_and!; [done| | |done].
    + by apply get_cheapest_valid_type_valid.
    + by eapply get_cheapest_valid_type_cheapest.
  - exfalso. by eapply get_cheapest_none_fits.
  - unfold get_cheapest_valid_type in Hget. by rewrite Hblds in Hget.
Qed.

Lemma optimize_antenna_type_valid_witness :
  ∃ ant',
    optimize_antenna_type (mkAntenna MaxRange 0 0 [1; 2]) (mk_bmap village) = Some ant' ∧
    valid_antenna (mk_bmap village) ant' ∧
    cost_on (a_type ant') ≤ cost_on MaxRange ∧
    (a_x ant', a_y ant', a_buildings ant') = (0, 0, [1; 2]).
Proof.
  apply (optimize_antenna_type_valid (mkAntenna MaxRange 0 0 [1; 2]) (mk_bmap village)).
  vm_compute. reflexivity.
Defined.

(** ** [optimize_types] and [try_merge_antennas] on valid solutions *)

Lemma mapM_None_inv {A B} (f : A → option B) (l : list A) :
  mapM f l = None → ∃ x, x ∈ l ∧ f x = None.
Proof.
  induction l as [|x l IH]; [done|]. intros Hnone.
  destruct (f x) as [y|] eqn:Hx; [|exists x; split; [by left|done]].
  destruct (mapM f l) as [ys|] eqn:Hl.
  - exfalso. assert (mapM f (x :: l) = Some (y :: ys)); [|congruence].
    apply mapM_Some. constructor; [done|]. by apply mapM_Some.
  - destruct IH as (x' & ? & ?); [done|]. exists x'. split; [by right|done].
Qed.

(** X3.  [optimize_types] raises exactly when the solution uses a building id
    that the dataset does not have. *)
Theorem optimize_types_raises_iff (solution : list Antenna) (buildings : list Building) :
  optimize_types solution buildings = None ↔
  ∃ ant bid, ant ∈ solution ∧ bid ∈ a_buildings ant ∧ mk_bmap buildings !! bid = None.
Proof.
  unfold optimize_types. split.
  - intros Hnone. apply mapM_None_inv in Hnone as (ant & Hant & Hfail). exists ant.
    unfold optimize_one in Hfail.
    destruct (lookup_all (mk_bmap buildings) (a_buildings ant)) as [blds|] eqn:Hblds.
    { done. }
    apply lookup_all_None in Hblds as (bid & ? & ?). by exists bid.
  - intros (ant & bid & Hant & Hbid & Hmiss).
    destruct (mapM _ solution) as [result|] eqn:Hres; [|done]. exfalso.
    apply mapM_Some in Hres.
    apply list_elem_of_lookup in Hant as [i Hi].
    destruct (Forall2_lookup_l _ _ _ _ _ Hres Hi) as (ant' & _ & Hone).
    unfold optimize_one in Hone.
    destruct (lookup_all _ _) as [blds|] eqn:Hblds; [|done].
    assert (is_Some (mk_bmap buildings !! bid)) as [? ?]; [|congruence].
    eapply lookup_all_is_Some; [by eexists|done].
Qed.

Lemma downgraded_valid bm ant ant' :
  downgraded bm ant ant' → valid_antenna bm ant → valid_antenna bm ant'.
Proof.
  intros (Hx & Hy & Hb & blds & Hblds & _ & _ & Hcase).
  rewrite !valid_antenna_fits, Hx, Hy, Hb.
  intros (Hne & blds' & Hblds' & Hfit). split; [done|]. exists blds. split; [done|].
  destruct Hcase as [->|[? _]]; [|done]. by simplify_eq.
Qed.

(** X4.  [optimize_types] keeps a valid solution valid. *)
Theorem optimize_types_valid (solution result : list Antenna)
    (buildings : list Building) :
  optimize_types solution buildings = Some result →
  all_valid (mk_bmap buildings) solution →
  all_valid (mk_bmap buildings) result.
Proof.
  unfold optimize_types, all_valid. intros Hres%mapM_Some.
  induction Hres as [|ant ant' solution result Hone _ IH]; [done|].
  intros [Hv Hall]%Forall_cons. constructor; [|by apply IH].
  eapply downgraded_valid; [|done]. by apply optimize_one_downgraded.
Qed.

Lemma optimize_types_valid_witness :
  all_valid (mk_bmap village)
    [mkAntenna Nano 0 0 [1; 2]; mkAntenna Nano 400 0 [3]].
Proof.
  apply (optimize_types_valid
           [mkAntenna Density 0 0 [1; 2]; mkAntenna MaxRange 400 0 [3]] _ village).
  - vm_compute. reflexivity.
  - repeat constructor; vm_compute; reflexivity.
Defined.

Lemma downgrade_fold_fixed ant blds types (acc : AntennaType * Z) :
  (∀ t, t ∈ types → type_fits t (a_x ant) (a_y ant) blds → acc.2 ≤ cost_on t) →
  foldl (downgrade_step ant blds (total_pop_of blds)) acc types = acc.
Proof.
  induction types as [|t types IH]; intros Hmin; simpl; [done|].
  assert (downgrade_step ant blds (total_pop_of blds) acc t = acc) as ->.
  { destruct (downgrade_step_spec ant blds acc t) as (_ & _ & [->|(Hfit & _ & Hlt)]);
      [done|].
    specialize (Hmin t ltac:(by left) Hfit). lia. }
  apply IH. intros t' Ht'. apply Hmin. by right.
Qed.

Lemma optimize_one_idempotent bm ant ant' :
  optimize_one bm ant = Some ant' → optimize_one bm ant' = Some ant'.
Proof.
  intros Hone. pose proof (optimize_one_downgraded _ _ _ Hone)
    as (Hx & Hy & Hb & blds & Hblds & _ & Hmin & _).
  unfold optimize_one. rewrite Hb, Hblds. cbn [mbind option_bind].
  rewrite (downgrade_fold_fixed ant' blds).
  - cbn [fst]. f_equal. destruct ant'. simpl in *. by subst.
  - cbn [snd]. intros t _. rewrite Hx, Hy. apply Hmin.
Qed.

(** X5.  [optimize_types] is idempotent: applied to its own result it returns
    that result. *)
Theorem optimize_types_idempotent (solution result : list Antenna)
    (buildings : list Building) :
  optimize_types solution buildings = Some result →
  optimize_types result buildings = Some result.
Proof.
  unfold optimize_types. intros Hres%mapM_Some. apply mapM_Some.
  induction Hres as [|ant ant' solution result Hone _ IH]; constructor; [|done].
  by eapply optimize_one_idempotent.
Qed.

Lemma optimize_types_idempotent_witness :
  optimize_types [mkAntenna Nano 0 0 [1; 2]; mkAntenna Nano 400 0 [3]] village
  = Some [mkAntenna Nano 0 0 [1; 2]; mkAntenna Nano 400 0 [3]].
Proof.
  apply (optimize_types_idempotent
           [mkAntenna Density 0 0 [1; 2]; mkAntenna MaxRange 400 0 [3]] _ village).
  vm_compute. reflexivity.
Defined.

(** ** What [try_merge_antennas] leaves behind *)

Lemma head_filter_None {A} (P : A → bool) (l : list A) :
  head (filter (λ x, P x) l) = None → ∀ x, x ∈ l → P x = false.
Proof.
  induction l as [|a l IH]; intros Hh x Hx; [by apply elem_of_nil in Hx|].
  rewrite filter_cons in Hh. destruct (decide (P a)) as [Ha|Ha]; [done|].
  apply elem_of_cons in Hx as [->|Hx]; [|by apply IH].
  by destruct (P a).
Qed.

Lemma elem_of_merge_candidates_2 a1 a2 x y t :
  (x, y) = (a_x a1, a_y a1) ∨ (x, y) = (a_x a2, a_y a2) →
  (x, y, t) ∈ merge_candidates a1 a2.
Proof.
  intros Hpos. unfold merge_candidates. apply list_elem_of_bind.
  exists (x, y). split.
  - apply list_elem_of_bind. exists t. split; [by left|].
    destruct t; set_solver.
  - destruct Hpos as [->| ->]; set_solver.
Qed.

Lemma try_pair_None bm a1 a2 :
  try_pair bm a1 a2 = Some None → unmergeable bm a1 a2.
Proof.
  unfold try_pair, unmergeable.
  destruct (lookup_all _ _) as [blds|] eqn:Hblds; [|done]. simpl.
  destruct (head _) as [c|] eqn:Hc; [done|]. intros _.
  exists blds. split; [done|]. intros t x y Hpos [Hcap Hrange].
  pose proof (head_filter_None _ _ Hc (x, y, t)
                (elem_of_merge_candidates_2 _ _ _ _ _ Hpos)) as Hno.
  unfold merge_admissible in Hno. simpl in Hno.
  rewrite bool_decide_eq_true_2 in Hno by done.
  apply all_in_range_Forall in Hrange. rewrite Hrange in Hno. simpl in Hno.
  apply bool_decide_eq_false in Hno. lia.
Qed.

Lemma merge_scan_j_None bm antennas i a1 tail : ∀ j,
  merge_scan_j bm antennas i a1 j tail = Some None →
  ∀ a2, a2 ∈ tail → try_pair bm a1 a2 = Some None.
Proof.
  induction tail as [|a tail IH]; intros j Hscan a2 Ha2;
    [by apply elem_of_nil in Ha2|].
  simpl in Hscan. destruct (try_pair bm a1 a) as [[m|]|] eqn:Hp; try done.
  simpl in Hscan. apply elem_of_cons in Ha2 as [->|Ha2]; [done|]. by eapply IH.
Qed.

Lemma merge_scan_i_None bm antennas tail : ∀ i,
  merge_scan_i bm antennas i tail = Some None →
  ∀ pre a1 mid a2 post, tail = pre ++ a1 :: mid ++ a2 :: post →
  try_pair bm a1 a2 = Some None.
Proof.
  induction tail as [|a tail IH]; intros i Hscan pre a1 mid a2 post Heq.
  { by destruct pre. }
  simpl in Hscan.
  destruct (merge_scan_j bm antennas i a (S i) tail) as [[l'|]|] eqn:Hj; try done.
  simpl in Hscan. destruct pre as [|p pre]; simpl in Heq; simplify_eq.
  - eapply merge_scan_j_None; [done|]. set_solver.
  - by eapply IH.
Qed.

(** X6.  In the result of [try_merge_antennas] no two antennas can be merged:
    for any two of them, taken in list order, every type that fits their
    buildings at the site of either costs at least as much as the two
    together. *)
Theorem try_merge_antennas_maximal (solution result : list Antenna)
    (buildings : list Building) (pre mid post : list Antenna) (a1 a2 : Antenna) :
  try_merge_antennas solution buildings = Some result →
  result = pre ++ a1 :: mid ++ a2 :: post →
  unmergeable (mk_bmap buildings) a1 a2.
Proof.
  intros [_ Hpass]%merge_rounds_chain Heq.
  apply try_pair_None. by eapply (merge_scan_i_None _ result result 0%nat).
Qed.

Lemma try_merge_antennas_maximal_witness :
  unmergeable (mk_bmap village)
    (mkAntenna Nano 0 0 [1; 2]) (mkAntenna Nano 400 0 [3]).
Proof.
  apply (try_merge_antennas_maximal
           [mkAntenna Nano 0 0 [1]; mkAntenna Nano 30 0 [2]; mkAntenna Nano 400 0 [3]]
           [mkAntenna Nano 0 0 [1; 2]; mkAntenna Nano 400 0 [3]]
           village [] [] []).
  - vm_compute. reflexivity.
  - reflexivity.
Defined.

(** X7.  [try_merge_antennas] is idempotent: applied to its own result it
    returns that result. *)
Theorem try_merge_antennas_idempotent (solution result : list Antenna)
    (buildings : list Building) :
  try_merge_antennas solution buildings = Some result →
  try_merge_antennas result buildings = Some result.
Proof.
  intros [_ Hpass]%merge_rounds_chain. unfold try_merge_antennas.
  destruct (length result); simpl; by rewrite Hpass.
Qed.

Lemma try_merge_antennas_idempotent_witness :
  try_merge_antennas [mkAntenna Nano 0 0 [1; 2]; mkAntenna Nano 400 0 [3]] village
  = Some [mkAntenna Nano 0 0 [1; 2]; mkAntenna Nano 400 0 [3]].
Proof.
  apply (try_merge_antennas_idempotent
           [mkAntenna Nano 0 0 [1]; mkAntenna Nano 30 0 [2]; mkAntenna Nano 400 0 [3]]).
  vm_compute. reflexivity.
Defined.

Lemma committed_merge_valid bm l l' :
  committed_merge bm l l' → all_valid bm l → all_valid bm l'.
Proof.
  intros (pre & a1 & mid & a2 & post & m & blds & -> & -> & _ & Hb & Hblds & Hfit & _).
  unfold all_valid. rewrite !Forall_app, !Forall_cons, !Forall_app, !Forall_cons.
  intros (Hpre & Ha1 & Hmid & Ha2 & Hpost). split_and!; try done.
  apply valid_antenna_fits. split; [|by exists blds].
  apply valid_antenna_fits in Ha1 as [Hne _]. rewrite Hb.
  by destruct (a_buildings a1).
Qed.

Lemma merge_rounds_valid bm l r :
  rtc (committed_merge bm) l r → all_valid bm l → all_valid bm r.
Proof.
  induction 1 as [l|l l' r Hstep _ IH]; [done|].
  intros Hv. by eapply IH, committed_merge_valid.
Qed.

(** X8.  [try_merge_antennas] keeps a valid solution valid, and never returns
    more antennas than it was given. *)
Theorem try_merge_antennas_valid (solution result : list Antenna)
    (buildings : list Building) :
  try_merge_antennas solution buildings = Some result →
  all_valid (mk_bmap buildings) solution →
  all_valid (mk_bmap buildings) result ∧ (length result ≤ length solution)%nat.
Proof.
  intros [Hchain _]%merge_rounds_chain Hv. split; [by eapply merge_rounds_valid|].
  clear Hv. induction Hchain as [l|l l' r Hstep _ IH]; [done|].
  apply committed_merge_length in Hstep. lia.
Qed.

Lemma try_merge_antennas_valid_witness :
  all_valid (mk_bmap village)
    [mkAntenna Nano 0 0 [1; 2]; mkAntenna Nano 400 0 [3]] ∧
  Nat.le (length [mkAntenna Nano 0 0 [1; 2]; mkAntenna Nano 400 0 [3]]) 3.
Proof.
  apply (try_merge_antennas_valid
           [mkAntenna Nano 0 0 [1]; mkAntenna Nano 30 0 [2]; mkAntenna Nano 400 0 [3]]
           _ village).
  - vm_compute. reflexivity.
  - repeat constructor; vm_compute; reflexivity.
Defined.

Lemma ids_known_or_unknown bm antennas :
  ids_known bm antennas ∨ unknown_id bm antennas.
Proof.
  induction antennas as [|a antennas [IH|IH]].
  - left. by intros ? ? ?%elem_of_nil.
  - destruct (lookup_all bm (a_buildings a)) as [blds|] eqn:Hblds.
    + left. intros ant bid [->|Hant]%elem_of_cons Hbid; [|by eapply IH].
      eapply lookup_all_is_Some; [by eexists|done].
    + right. apply lookup_all_None in Hblds as (bid & ? & ?).
      exists a, bid. split_and!; [by left|done|done].
  - right. destruct IH as (ant & bid & ? & ? & ?).
    exists ant, bid. split_and!; [by right|done|done].
Qed.

Lemma unmergeable_known bm a1 a2 ant bid :
  unmergeable bm a1 a2 → ant = a1 ∨ ant = a2 → bid ∈ a_buildings ant →
  is_Some (bm !! bid).
Proof.
  intros (blds & Hblds & _) Hant Hbid.
  eapply lookup_all_is_Some; [by eexists|]. set_solver.
Qed.

Lemma committed_merge_unknown bm l l' :
  committed_merge bm l l' → unknown_id bm l →
  unknown_id bm l' ∧ (2 ≤ length l')%nat.
Proof.
  intros (pre & a1 & mid & a2 & post & m & blds & -> & -> & _ & Hb & Hblds & _)
         (ant & bid & Hant & Hbid & Hnone).
  assert (ant ≠ a1 ∧ ant ≠ a2) as [Hn1 Hn2].
  { split; intros ->;
      (assert (is_Some (bm !! bid)) as [? ?]; [|congruence]);
      (eapply lookup_all_is_Some; [by eexists|]); rewrite Hb; set_solver. }
  assert (ant ∈ pre ++ mid ++ post) as Hin by set_solver.
  split.
  - exists ant, bid. split_and!; [set_solver|done|done].
  - rewrite !length_app. simpl. rewrite length_app.
    apply elem_of_app in Hin as [Hin|Hin];
      [destruct pre; [by apply elem_of_nil in Hin|simpl; lia]|].
    apply elem_of_app in Hin as [Hin|Hin];
      [destruct mid|destruct post]; try (by apply elem_of_nil in Hin); simpl; lia.
Qed.

Lemma merge_pass_None_known bm l :
  merge_pass bm l = Some None → (2 ≤ length l)%nat → unknown_id bm l → False.
Proof.
  intros Hpass Hlen (ant & bid & Hant & Hbid & Hnone).
  assert (∃ pre a1 mid a2 post,
             l = pre ++ a1 :: mid ++ a2 :: post ∧ (ant = a1 ∨ ant = a2))
    as (pre & a1 & mid & a2 & post & Heq & Hor).
  { apply list_elem_of_split in Hant as (l1 & l2 & ->).
    destruct l2 as [|a2 post].
    - destruct l1 as [|a1 mid]; [simpl in Hlen; lia|].
      exists [], a1, mid, ant, []. split; [done|by right].
    - exists l1, ant, [], a2, post. split; [done|by left]. }
  assert (is_Some (bm !! bid)) as [? ?]; [|congruence].
  eapply unmergeable_known; [|done..].
  apply try_pair_None. by eapply (merge_scan_i_None _ l l 0%nat).
Qed.

(** X9.  [try_merge_antennas] raises exactly when the solution has at least
    two antennas and one of them uses a building id that the dataset does
    not have.  A solution of fewer than two antennas is returned as it
    is, also when it uses such an id: no pair is looked up. *)
Theorem try_merge_antennas_raises_iff (solution : list Antenna)
    (buildings : list Building) :
  (try_merge_antennas solution buildings = None ↔
   (2 ≤ length solution)%nat ∧ unknown_id (mk_bmap buildings) solution) ∧
  ((length solution < 2)%nat →
   try_merge_antennas solution buildings = Some solution).
Proof.
  split; [split|].
  - intros Hnone. split.
    + destruct solution as [|a [|a' solution]]; [done|done|simpl; lia].
    + destruct (ids_known_or_unknown (mk_bmap buildings) solution) as [Hk|?]; [|done].
      apply (merge_rounds_returns _ (length solution)) in Hk as [? ?]; [|done].
      unfold try_merge_antennas in Hnone. congruence.
  - intros [Hlen Hunk].
    destruct (try_merge_antennas solution buildings) as [result|] eqn:Hres; [|done].
    exfalso. apply merge_rounds_chain in Hres as [Hchain Hpass].
    eapply merge_pass_None_known; [exact Hpass| |].
    + clear Hpass. induction Hchain as [l|l l' r Hstep _ IH]; [done|].
      apply IH; by apply (committed_merge_unknown _ _ _ Hstep).
    + clear Hpass Hlen. induction Hchain as [l|l l' r Hstep _ IH]; [done|].
      apply IH. by apply (committed_merge_unknown _ _ _ Hstep).
  - intros Hlen. destruct solution as [|a [|a' solution]]; [done|done|].
    simpl in Hlen. lia.
Qed.

Lemma try_merge_antennas_raises_iff_witness :
  try_merge_antennas [mkAntenna Nano 0 0 [9]] village
  = Some [mkAntenna Nano 0 0 [9]].
Proof.
  apply (try_merge_antennas_raises_iff [mkAntenna Nano 0 0 [9]] village).
  simpl. lia.
Defined.

(** ** The solution built by [solve_advanced] *)

Lemma singleton_valid (bm : gmap Z Building) t b bid :
  bm !! bid = Some b → get_max_pop b ≤ capacity t →
  valid_antenna bm (mkAntenna t (b_x b) (b_y b) [bid]).
Proof.
  intros Hb Hcap. apply valid_antenna_fits. simpl. split; [done|].
  exists [b]. split.
  - unfold lookup_all. cbn. by rewrite Hb.
  - split; [simpl; lia|]. constructor; [|done].
    unfold dist_sq. destruct t; simpl; lia.
Qed.

Lemma packing_of_NoDup bm x y uncovered_ids atype selected :
  NoDup uncovered_ids → packing_of bm x y uncovered_ids atype selected →
  NoDup selected.
Proof.
  intros Hnd (in_range & blds & Hcol & _ & Hperm & _ & _ & (k & -> & _) & _).
  rewrite fmap_take. eapply sublist_NoDup; [|apply sublist_take].
  rewrite Hperm. eapply sublist_NoDup; [exact Hnd|].
  by eapply collect_in_range_sublist.
Qed.

Lemma find_best_antenna_fits {F} `{FloatOps F} x y uncovered_ids bm prefer
    atype selected (score : F) :
  NoDup uncovered_ids →
  find_best_antenna x y uncovered_ids bm prefer = Some (Some (atype, selected, score)) →
  valid_antenna bm (mkAntenna atype x y selected) ∧ NoDup selected ∧
  selected ⊆ uncovered_ids.
Proof.
  intros Hnd. unfold find_best_antenna.
  destruct (find_best_loop _ _ _ _ _ _ _) as [acc'|] eqn:Hloop; [|done].
  simpl. intros [= Hbest].
  assert (packing_of bm x y uncovered_ids atype selected) as Hpack.
  { eapply (find_best_loop_packing bm x y uncovered_ids prefer);
      [|exact Hloop|exact Hbest]. by intros. }
  split_and!; [|by eapply packing_of_NoDup|].
  - destruct Hpack as (? & blds & _ & _ & _ & _ & _ & _ & ? & _ & ? & ?).
    apply valid_antenna_fits. split; [done|]. by exists blds.
  - by destruct Hpack as (? & ? & _ & _ & _ & _ & _ & _ & _ & ? & _).
Qed.

Lemma best_over_candidates_fits {F} `{FloatOps F} bm uncovered_ids candidates :
  NoDup uncovered_ids →
  ∀ (acc acc' : option Antenna * F),
  (∀ ant, acc.1 = Some ant →
          valid_antenna bm ant ∧ NoDup (a_buildings ant) ∧
          a_buildings ant ⊆ uncovered_ids) →
  best_over_candidates bm uncovered_ids acc candidates = Some acc' →
  ∀ ant, acc'.1 = Some ant →
         valid_antenna bm ant ∧ NoDup (a_buildings ant) ∧
         a_buildings ant ⊆ uncovered_ids.
Proof.
  intros Hnd.
  induction candidates as [|bid rest IH]; intros acc acc' Hacc; simpl.
  { by intros [= <-]. }
  destruct (bm !! bid) as [b|]; [|done]. simpl.
  destruct (find_best_antenna _ _ _ _ _) as [result|] eqn:Hfind; [|done]. simpl.
  apply IH. destruct result as [[[atype selected] score]|]; [|done].
  destruct (f_lt acc.2 score); [|done].
  simpl. intros ant [= <-]. simpl.
  by eapply find_best_antenna_fits.
Qed.

Lemma phase2_round_fits {G F} `{FloatOps F, PyRandom G F, SetOrder}
    bm (uncovered : gset Z) (g g' : G) ant :
  set_order_ok →
  phase2_round bm uncovered g = Some (ant, g') →
  valid_antenna bm ant ∧ NoDup (a_buildings ant) ∧
  ∀ i, i ∈ a_buildings ant → i ∈ uncovered.
Proof.
  intros Hord. destruct (Hord uncovered) as [Hnd Hmem]. unfold phase2_round.
  intros (candidates & g1 & _ & Hrest)%rbind_Some.
  apply rbind_Some in Hrest as (best & g2 & [Hbest _]%rlift_Some & Hrest).
  destruct best.1 as [best_antenna|] eqn:Hb1.
  - apply rret_Some in Hrest as [<- _].
    destruct (best_over_candidates_fits bm (set_iter uncovered) candidates Hnd
                (None, f_of_Z (-1)) best ltac:(by intros) Hbest _ Hb1)
      as (Hv & Hnd' & Hsub).
    split_and!; [done..|]. intros i Hi. by apply Hmem, Hsub.
  - apply rbind_Some in Hrest as (bid & g3 & [Hhead _]%rlift_Some & Hrest).
    apply rbind_Some in Hrest as (b & g4 & [Hb _]%rlift_Some & [Hfb _]%rlift_Some).
    unfold fallback_antenna in Hfb.
    destruct (head (filter _ _)) as [t|] eqn:Ht; [|done]. injection Hfb as <-.
    apply head_filter_elem in Ht as [_ Hcap]. split_and!.
    + by apply singleton_valid.
    + simpl. apply NoDup_singleton.
    + simpl. intros i ->%list_elem_of_singleton. by apply Hmem, head_Some_elem_of.
Qed.

Lemma phase2_spec {G F} `{FloatOps F, PyRandom G F, SetOrder} fuel bm :
  set_order_ok →
  ∀ antennas (uncovered : gset Z) (g g' : G) res,
  phase2 fuel bm antennas uncovered g = Some (res, g') →
  ∃ more, res = antennas ++ more ∧ all_valid bm more ∧ NoDup (assigned more) ∧
          ∀ i, i ∈ assigned more ↔ i ∈ uncovered.
Proof.
  intros Hord.
  induction fuel as [|fuel IH]; intros antennas uncovered g g' res; simpl;
    destruct (decide (uncovered = ∅)) as [->|Hne].
  - intros [<- _]%rret_Some. exists []. rewrite app_nil_r.
    split_and!; [done|constructor|constructor|]. set_solver.
  - by intros [? _]%rlift_Some.
  - intros [<- _]%rret_Some. exists []. rewrite app_nil_r.
    split_and!; [done|constructor|constructor|]. set_solver.
  - intros (ant & g1 & Hround & Hrest)%rbind_Some.
    apply phase2_round_fits in Hround as (Hv & Hnd & Hsub); [|done].
    apply IH in Hrest as (more & -> & Hvm & Hndm & Hmem).
    exists (ant :: more). rewrite <- app_assoc. split_and!; [done|by constructor| |].
    + rewrite assigned_cons. apply NoDup_app. split_and!; [done| |done].
      intros i Hi Hi'. apply Hmem in Hi'. set_solver.
    + intros i. rewrite assigned_cons, elem_of_app, Hmem.
      rewrite elem_of_difference, elem_of_list_to_set.
      destruct (decide (i ∈ a_buildings ant)); naive_solver.
Qed.

Lemma phase1_spec (bs : list Building) : ∀ st : list Antenna * gset Z,
  ∃ more,
    (foldl phase1_step st bs).1 = st.1 ++ more ∧
    (foldl phase1_step st bs).2 ⊆ st.2 ∧
    NoDup (assigned more) ∧
    (∀ i, i ∈ assigned more ↔ i ∈ st.2 ∧ i ∉ (foldl phase1_step st bs).2) ∧
    Forall (λ ant, ∃ b, b ∈ bs ∧ 3500 < get_max_pop b ∧
                        ant = mkAntenna Density (b_x b) (b_y b) [b_id b]) more.
Proof.
  induction bs as [|b bs IH]; intros [ants unc].
  { exists []. simpl. rewrite app_nil_r.
    split_and!; [done|done|constructor| |constructor]. set_solver. }
  cbn [foldl].
  replace (phase1_step (ants, unc) b)
    with (if decide (b_id b ∈ unc)
          then if decide (3500 < get_max_pop b)
               then (ants ++ [mkAntenna Density (b_x b) (b_y b) [b_id b]],
                     unc ∖ {[b_id b]})
               else (ants, unc)
          else (ants, unc)) by done.
  destruct (decide (b_id b ∈ unc)) as [Hin|Hin];
    [destruct (decide (3500 < get_max_pop b)) as [Hpop|Hpop]|].
  - destruct (IH (ants ++ [mkAntenna Density (b_x b) (b_y b) [b_id b]],
                  unc ∖ {[b_id b]})) as (more & Heq & Hsub & Hnd & Hmem & Hall).
    simpl in *.
    exists (mkAntenna Density (b_x b) (b_y b) [b_id b] :: more).
    rewrite Heq, <- app_assoc. split_and!; [done| | | |].
    + etrans; [exact Hsub|]. apply subseteq_difference_l. done.
    + rewrite assigned_cons. simpl. constructor; [|done].
      intros Hb%Hmem. set_solver.
    + intros i. rewrite assigned_cons. simpl. rewrite elem_of_cons, Hmem.
      destruct (decide (i = b_id b)) as [->|]; set_solver.
    + constructor; [exists b; split_and!; [by left|done|done]|].
      eapply Forall_impl; [exact Hall|]. simpl.
      intros ant (b' & ? & ? & ?). exists b'. split_and!; [by right|done|done].
  - destruct (IH (ants, unc)) as (more & Heq & Hsub & Hnd & Hmem & Hall).
    exists more. split_and!; try done.
    eapply Forall_impl; [exact Hall|]. simpl.
    intros ant (b' & ? & ? & ?). exists b'. split_and!; [by right|done|done].
  - destruct (IH (ants, unc)) as (more & Heq & Hsub & Hnd & Hmem & Hall).
    exists more. split_and!; try done.
    eapply Forall_impl; [exact Hall|]. simpl.
    intros ant (b' & ? & ? & ?). exists b'. split_and!; [by right|done|done].
Qed.

(** The shape of what [solve_advanced] returns: the antennas of phase 1,
    each a Density antenna on a building of demand above 3500 that serves
    that building alone, followed by the antennas of phase 2, all valid;
    together they serve every building id exactly once. *)
Lemma solve_advanced_shape {G F} `{FloatOps F, PyRandom G F, SetOrder}
    (buildings : list Building) (g g' : G) (res : list Antenna) :
  set_order_ok →
  solve_advanced buildings g = Some (res, g') →
  ∃ first more,
    res = first ++ more ∧
    Forall (λ ant, ∃ b, b ∈ buildings ∧ 3500 < get_max_pop b ∧
                        ant = mkAntenna Density (b_x b) (b_y b) [b_id b]) first ∧
    all_valid (mk_bmap buildings) more ∧
    NoDup (assigned res) ∧
    ∀ i, i ∈ assigned res ↔ i ∈ b_id <$> buildings.
Proof.
  intros Hord. unfold solve_advanced.
  destruct (phase1_spec buildings ([], list_to_set (b_id <$> buildings)))
    as (first & Heq & Hsub & Hnd1 & Hmem1 & Hall).
  destruct (foldl phase1_step _ buildings) as [antennas uncovered]. simpl in *.
  subst antennas. intros Hp2.
  apply phase2_spec in Hp2 as (more & -> & Hv & Hnd2 & Hmem2); [|done].
  exists first, more. split_and!; [done..| |].
  - rewrite assigned_app. apply NoDup_app. split_and!; [done| |done].
    intros i [_ Hi]%Hmem1 Hi'%Hmem2. done.
  - intros i. rewrite assigned_app, elem_of_app, Hmem1, Hmem2.
    rewrite elem_of_list_to_set.
    destruct (decide (i ∈ uncovered)); [|naive_solver].
    split; [|by right]. intros _. apply Hsub in e. by apply elem_of_list_to_set in e.
Qed.

Lemma sorted_set_order_ok : set_order_ok (H := sorted_set_order).
Proof.
  intros s. unfold set_iter, sorted_set_order. split.
  - rewrite merge_sort_Permutation. apply NoDup_elements.
  - intros i. rewrite merge_sort_Permutation. apply elem_of_elements.
Qed.

Lemma first_choice_sample_ok : sample_ok (H := first_choice_random).
Proof. intros l n g. simpl. apply sublist_subseteq, sublist_take. Qed.

Lemma first_choice_shuffle_ok : shuffle_ok (H := first_choice_random).
Proof. by intros l g. Qed.


(** X10.  On a dataset whose demands are at least 0 and whose building list
    is no longer than a list can be, so that no score is beyond the float
    range, [solve_advanced] returns, and in its result every building id
    of the dataset is served by exactly one antenna, once: the assigned ids
    have no duplicate and are exactly the ids of the dataset.  A set is
    taken to be iterated over its own elements without repetition and a
    sample to be drawn from its population. *)
Theorem solve_advanced_partition {G F} `{FloatOps F, PyRandom G F, SetOrder}
    (buildings : list Building) (g : G) :
  set_order_ok → sample_ok →
  (∀ b, b ∈ buildings → 0 ≤ get_max_pop b) →
  Z.of_nat (length buildings) < 2 ^ 63 →
  ∃ res g',
    solve_advanced buildings g = Some (res, g') ∧
    NoDup (assigned res) ∧
    ∀ i, i ∈ assigned res ↔ i ∈ b_id <$> buildings.
Proof.
  intros Hord Hsample Hpos Hlen.
  destruct (solve_advanced_returns buildings g Hord Hsample Hpos Hlen)
    as [[res g'] Hres].
  exists res, g'. split; [done|].
  by destruct (solve_advanced_shape buildings g g' res Hord Hres)
    as (first & more & _ & _ & _ & ? & ?).
Qed.

Lemma village_demands (lo hi : Z) :
  lo ≤ 100 ≤ hi → ∀ b, b ∈ village → lo ≤ get_max_pop b ≤ hi.
Proof.
  intros Hb b Hin. unfold village in Hin.
  repeat (apply elem_of_cons in Hin as [->|Hin]; [unfold get_max_pop; simpl; lia|]).
  by apply elem_of_nil in Hin.
Qed.

Lemma solve_advanced_partition_witness :
  ∃ res g',
    solve_advanced (H := integer_floats) (H0 := first_choice_random)
      (H1 := sorted_set_order) village tt = Some (res, g') ∧
    NoDup (assigned res) ∧
    ∀ i, i ∈ assigned res ↔ i ∈ b_id <$> village.
Proof.
  apply (solve_advanced_partition (H := integer_floats) (H0 := first_choice_random)
           (H1 := sorted_set_order) village tt).
  - exact sorted_set_order_ok.
  - exact first_choice_sample_ok.
  - intros b Hb. by apply (village_demands 0 100).
  - by vm_compute.
Defined.

Lemma solve_advanced_all_valid {G F} `{FloatOps F, PyRandom G F, SetOrder}
    (buildings : list Building) (g g' : G) (res : list Antenna) :
  set_order_ok → NoDup (b_id <$> buildings) →
  (∀ b, b ∈ buildings → get_max_pop b ≤ 5000) →
  solve_advanced buildings g = Some (res, g') →
  all_valid (mk_bmap buildings) res.
Proof.
  intros Hord Hnd Hpop Hres.
  destruct (solve_advanced_shape buildings g g' res Hord Hres)
    as (first & more & -> & Hfirst & Hmore & _).
  apply Forall_app. split; [|done].
  eapply Forall_impl; [exact Hfirst|]. simpl.
  intros ant (b & Hb & _ & ->). apply singleton_valid.
  - by apply mk_bmap_lookup.
  - simpl. by apply Hpop.
Qed.

(** X11.  With unique building ids, the result of [solve_advanced] passes
    [is_valid_antenna] on every antenna exactly when no building has a
    demand above 5000.  The antennas of it that do not pass are exactly the
    Density antennas that phase 1 places on the buildings of demand above
    5000, each serving that building alone; every antenna built by the
    greedy phase passes. *)
Theorem solve_advanced_valid_iff {G F} `{FloatOps F, PyRandom G F, SetOrder}
    (buildings : list Building) (g g' : G) (res : list Antenna) :
  set_order_ok → NoDup (b_id <$> buildings) →
  solve_advanced buildings g = Some (res, g') →
  (all_valid (mk_bmap buildings) res ↔
   ∀ b, b ∈ buildings → get_max_pop b ≤ 5000) ∧
  (∀ ant, ant ∈ res →
     ¬ valid_antenna (mk_bmap buildings) ant ↔
     ∃ b, b ∈ buildings ∧ 5000 < get_max_pop b ∧
          ant = mkAntenna Density (b_x b) (b_y b) [b_id b]) ∧
  ∃ first more,
    res = first ++ more ∧
    Forall (λ ant, ∃ b, b ∈ buildings ∧ 3500 < get_max_pop b ∧
                        ant = mkAntenna Density (b_x b) (b_y b) [b_id b]) first ∧
    all_valid (mk_bmap buildings) more.
Proof.
  intros Hord Hnd Hres.
  assert (∀ b, b ∈ buildings → 5000 < get_max_pop b →
               ¬ valid_antenna (mk_bmap buildings)
                   (mkAntenna Density (b_x b) (b_y b) [b_id b])) as Hbad.
  { intros b Hb Hbig (_ & blds & Hblds & Hcap & _)%valid_antenna_fits.
    unfold lookup_all in Hblds. cbn in Hblds.
    rewrite (mk_bmap_lookup buildings b Hnd Hb) in Hblds. simpl in Hblds.
    injection Hblds as <-. simpl in Hcap. lia. }
  split_and!.
  - split.
    + intros Hv b Hb. destruct (decide (get_max_pop b ≤ 5000)) as [|Hbig]; [done|].
      exfalso.
      destruct (solve_advanced_overdemand_kept buildings b g g' res Hnd Hb
                  ltac:(lia) Hres) as [Hin _].
      unfold all_valid in Hv. rewrite Forall_forall in Hv.
      apply (Hbad b Hb); [lia|]. by apply Hv.
    + intros Hpop. by eapply solve_advanced_all_valid.
  - intros ant Hant. split.
    + intros Hinv.
      destruct (solve_advanced_shape buildings g g' res Hord Hres)
        as (first & more & -> & Hfirst & Hmore & _).
      apply elem_of_app in Hant as [Hant|Hant].
      * rewrite Forall_forall in Hfirst.
        destruct (Hfirst ant Hant) as (b & Hb & Hpop & ->).
        exists b. split_and!; [done| |done].
        destruct (decide (get_max_pop b ≤ 5000)) as [Hle|]; [|lia].
        exfalso. apply Hinv, singleton_valid; [by apply mk_bmap_lookup|done].
      * exfalso. apply Hinv. unfold all_valid in Hmore.
        rewrite Forall_forall in Hmore. by apply Hmore.
    + intros (b & Hb & Hbig & ->). by apply Hbad.
  - destruct (solve_advanced_shape buildings g g' res Hord Hres)
      as (first & more & -> & Hfirst & Hmore & _).
    by exists first, more.
Qed.

Lemma solve_advanced_valid_iff_witness :
  (all_valid (mk_bmap tower_town)
     [mkAntenna Density 500 0 [2]; mkAntenna Nano 0 0 [1]] ↔
   ∀ b, b ∈ tower_town → get_max_pop b ≤ 5000) ∧
  (∀ ant, ant ∈ [mkAntenna Density 500 0 [2]; mkAntenna Nano 0 0 [1]] →
     ¬ valid_antenna (mk_bmap tower_town) ant ↔
     ∃ b, b ∈ tower_town ∧ 5000 < get_max_pop b ∧
          ant = mkAntenna Density (b_x b) (b_y b) [b_id b]) ∧
  ∃ first more,
    [mkAntenna Density 500 0 [2]; mkAntenna Nano 0 0 [1]] = first ++ more ∧
    Forall (λ ant, ∃ b, b ∈ tower_town ∧ 3500 < get_max_pop b ∧
                        ant = mkAntenna Density (b_x b) (b_y b) [b_id b]) first ∧
    all_valid (mk_bmap tower_town) more.
Proof.
  apply (solve_advanced_valid_iff (H := integer_floats) (H0 := first_choice_random)
           (H1 := sorted_set_order) tower_town tt tt).
  - exact sorted_set_order_ok.
  - apply (bool_decide_unpack _). vm_compute. exact I.
  - vm_compute. reflexivity.
Defined.

(** X12.  With unique building ids, a building whose demand is above 3500 is
    served by a Density antenna placed on it that serves it alone, and by no
    other antenna of the result of [solve_advanced]. *)
Theorem solve_advanced_high_demand {G F} `{FloatOps F, PyRandom G F, SetOrder}
    (buildings : list Building) (b : Building) (g g' : G) (res : list Antenna) :
  set_order_ok → NoDup (b_id <$> buildings) →
  solve_advanced buildings g = Some (res, g') →
  b ∈ buildings → 3500 < get_max_pop b →
  mkAntenna Density (b_x b) (b_y b) [b_id b] ∈ res ∧
  ∀ ant, ant ∈ res → b_id b ∈ a_buildings ant →
         ant = mkAntenna Density (b_x b) (b_y b) [b_id b].
Proof.
  intros Hord Hnd Hres Hb Hpop.
  assert (mkAntenna Density (b_x b) (b_y b) [b_id b] ∈ res) as Hin.
  { unfold solve_advanced in Hres.
    pose proof (phase1_high_demand buildings b
                  ([], list_to_set (b_id <$> buildings)) Hnd Hb) as Hp1.
    destruct (foldl phase1_step _ buildings) as [antennas uncovered]. simpl in *.
    apply phase2_appends in Hres as [more ->]. apply elem_of_app. left.
    apply Hp1; [|done]. apply elem_of_list_to_set. by apply list_elem_of_fmap_2. }
  split; [done|]. intros ant Hant Hserves.
  destruct (solve_advanced_shape buildings g g' res Hord Hres)
    as (_ & _ & _ & _ & _ & Hnodup & _).
  apply list_elem_of_lookup in Hin as [j Hj], Hant as [i Hi].
  destruct (decide (i = j)) as [->|Hij]; [congruence|].
  exfalso. eapply (assigned_NoDup_disjoint res i j); [done..|]. simpl. by left.
Qed.

Lemma solve_advanced_high_demand_witness :
  mkAntenna Density 10 20 [1] ∈ [mkAntenna Density 10 20 [1]] ∧
  ∀ ant, ant ∈ [mkAntenna Density 10 20 [1]] → 1 ∈ a_buildings ant →
         ant = mkAntenna Density 10 20 [1].
Proof.
  apply (solve_advanced_high_demand (H := integer_floats) (H0 := first_choice_random)
           (H1 := sorted_set_order) [tower] tower tt tt).
  - exact sorted_set_order_ok.
  - apply (bool_decide_unpack _). vm_compute. exact I.
  - vm_compute. reflexivity.
  - by left.
  - vm_compute. reflexivity.
Defined.

(** ** The pipeline [solve_dataset] *)

Lemma all_valid_ids_known bm antennas :
  all_valid bm antennas → ids_known bm antennas.
Proof.
  unfold all_valid. rewrite Forall_forall. intros Hv ant bid Hant Hbid.
  apply Hv, valid_antenna_fits in Hant as (_ & blds & Hblds & _).
  eapply lookup_all_is_Some; [by eexists|done].
Qed.

Lemma optimize_types_assigned solution result buildings :
  optimize_types solution buildings = Some result →
  assigned result = assigned solution.
Proof.
  unfold optimize_types. intros Hres%mapM_Some.
  induction Hres as [|ant ant' solution result Hone _ IH]; [done|].
  rewrite !assigned_cons, IH. f_equal.
  by apply optimize_one_downgraded in Hone as (_ & _ & ? & _).
Qed.

(** X13.  On a dataset with unique building ids, every demand between 0 and
    5000 and a building list no longer than a list can be, [solve_dataset]
    returns a solution in which every antenna passes [is_valid_antenna]
    and every building of the dataset is served exactly once. *)
Theorem solve_dataset_feasible {G F} `{FloatOps F, PyRandom G F, SetOrder}
    (buildings : list Building) (g : G) :
  set_order_ok → sample_ok → NoDup (b_id <$> buildings) →
  (∀ b, b ∈ buildings → 0 ≤ get_max_pop b ≤ 5000) →
  Z.of_nat (length buildings) < 2 ^ 63 →
  ∃ res g',
    solve_dataset buildings g = Some (res, g') ∧
    all_valid (mk_bmap buildings) res ∧
    assigned res ≡ₚ b_id <$> buildings.
Proof.
  intros Hord Hsample Hnd Hdem Hlen.
  assert (∀ b, b ∈ buildings → get_max_pop b ≤ 5000) as Hpop
    by (intros b Hb; by apply Hdem).
  destruct (solve_advanced_returns buildings g Hord Hsample) as [[res0 g'] Hres0];
    [intros b Hb; by apply Hdem|done|].
  pose proof (solve_advanced_all_valid buildings g g' res0 Hord Hnd Hpop Hres0)
    as Hv0.
  destruct (solve_advanced_shape buildings g g' res0 Hord Hres0)
    as (_ & _ & _ & _ & _ & Hnd0 & Hmem0).
  assert (assigned res0 ≡ₚ b_id <$> buildings) as Hperm0
    by (by apply NoDup_Permutation).
  destruct (optimize_types res0 buildings) as [res1|] eqn:Hres1; cycle 1.
  { exfalso. apply (mapM_None_inv _ _) in Hres1 as (ant & Hant & Hfail).
    unfold optimize_one in Hfail.
    destruct (lookup_all (mk_bmap buildings) (a_buildings ant)) eqn:Hblds; [done|].
    assert (is_Some (lookup_all (mk_bmap buildings) (a_buildings ant))) as [? ?];
      [|congruence].
    apply lookup_all_is_Some. intros bid Hbid.
    by eapply (all_valid_ids_known _ _ Hv0). }
  pose proof (optimize_types_assigned _ _ _ Hres1) as Hass1.
  assert (all_valid (mk_bmap buildings) res1) as Hv1.
  { revert Hv0. unfold optimize_types in Hres1. apply mapM_Some in Hres1.
    unfold all_valid. clear -Hres1.
    induction Hres1 as [|ant ant' l l' Hone _ IH]; [done|].
    intros [? ?]%Forall_cons. constructor; [|by apply IH].
    eapply downgraded_valid; [|done]. by apply optimize_one_downgraded. }
  unfold solve_dataset.
  destruct (decide (length buildings ≤ 5000)%nat) as [Hsmall|Hbig].
  - destruct (merge_rounds_returns (mk_bmap buildings) (length res1) res1)
      as [res Hres]; [done|by apply all_valid_ids_known|].
    exists res, g'. split_and!.
    + apply rbind_Some. exists res0, g'. split; [done|].
      apply rbind_Some. exists res1, g'. split; [by apply rlift_Some|].
      by apply rlift_Some.
    + apply merge_rounds_chain in Hres as [Hchain _].
      by eapply merge_rounds_valid.
    + apply merge_rounds_chain in Hres as [Hchain _].
      apply committed_merges_cost in Hchain as [_ Hp].
      by rewrite Hp, Hass1.
  - exists res1, g'. split_and!; [|done|by rewrite Hass1].
    apply rbind_Some. exists res0, g'. split; [done|].
    apply rbind_Some. exists res1, g'. split; [by apply rlift_Some|].
    by apply rret_Some.
Qed.

Lemma solve_dataset_feasible_witness :
  ∃ res g',
    solve_dataset (H := integer_floats) (H0 := first_choice_random)
      (H1 := sorted_set_order) village tt = Some (res, g') ∧
    all_valid (mk_bmap village) res ∧
    assigned res ≡ₚ b_id <$> village.
Proof.
  apply (solve_dataset_feasible (H := integer_floats) (H0 := first_choice_random)
           (H1 := sorted_set_order) village tt).
  - exact sorted_set_order_ok.
  - exact first_choice_sample_ok.
  - apply (bool_decide_unpack _). vm_compute. exact I.
  - intros b Hb. by apply (village_demands 0 5000).
  - by vm_compute.
Defined.

(** ** When the grid and the packing raise *)

Lemma grid_add_None cs bs : foldl (grid_add cs) None bs = None.
Proof. by induction bs. Qed.

(** X14.  [SpatialGrid.__init__] raises exactly when the cell size is 0 and there
    is at least one building to place. *)
Theorem SpatialGrid_init_raises_iff (buildings : list Building) (cs : Z) :
  SpatialGrid_init buildings cs = None ↔ cs = 0 ∧ buildings ≠ [].
Proof.
  unfold SpatialGrid_init. split.
  - intros Hnone. destruct (decide (cs = 0)) as [->|Hcs].
    + split; [done|]. by intros ->.
    + destruct (grid_fold_cells cs buildings ∅ Hcs) as (g & Hg & _).
      by rewrite Hg in Hnone.
  - intros [-> Hne]. destruct buildings as [|b bs]; [done|].
    cbn [foldl]. unfold grid_add at 2, floordiv. simpl.
    by rewrite grid_add_None.
Qed.

Lemma int_of_true_div_None (a b : Z) :
  int_of_true_div a b = None ↔ true_div_raises a b = true.
Proof.
  unfold int_of_true_div. destruct (true_div_raises a b); [done|].
  destruct (decide (a = 0)); [done|]. by destruct (rounded_quot _ _).
Qed.

(** X15.  For every cell size other than 0, also a negative one, and also
    when building ids repeat, the grid is built without raising.  The
    query of it raises exactly when the float division of the radius by
    the cell size does, which takes a radius of at least [2 ^ 1023] cell
    sizes in absolute value; a query that returns, returns only ids that
    are not excluded and whose building, as the id map has it, lies within
    the radius. *)
Theorem get_in_range_sound (buildings : list Building) (cs x y radius : Z)
    (exclude : gset Z) :
  cs ≠ 0 →
  ∃ g,
    SpatialGrid_init buildings cs = Some g ∧
    (get_in_range g x y radius exclude = None ↔ true_div_raises radius cs = true) ∧
    (Z.abs radius < 2 ^ 1023 * Z.abs cs →
     is_Some (get_in_range g x y radius exclude)) ∧
    ∀ res, get_in_range g x y radius exclude = Some res →
      ∀ i, i ∈ res →
           (i ∉ exclude) ∧
           ∃ b, b ∈ buildings ∧ mk_bmap buildings !! i = Some b ∧
                dist_sq x y (b_x b) (b_y b) ≤ radius * radius.
Proof.
  intros Hcs.
  destruct (grid_fold_cells cs buildings ∅ Hcs) as (g & Hg & Hget).
  setoid_rewrite grid_get_empty in Hget. simpl in Hget.
  exists (mkSpatialGrid cs g (mk_bmap buildings)).
  assert (∀ q, ∃ per_cell,
            mapM (λ cell, scan_cell (mk_bmap buildings) x y (radius * radius) exclude
                            (grid_get g cell))
                 (cell_window (x `div` cs) (y `div` cs) (q + 1)) = Some per_cell ∧
            ∀ i, i ∈ concat per_cell →
                 (i ∉ exclude) ∧
                 ∃ b, b ∈ buildings ∧ mk_bmap buildings !! i = Some b ∧
                      dist_sq x y (b_x b) (b_y b) ≤ radius * radius) as Hscan.
  { intros q.
    destruct (scan_window (mk_bmap buildings) x y (radius * radius) exclude g
                (cell_window (x `div` cs) (y `div` cs) (q + 1)))
      as (per_cell & Hpc & _ & Hmem).
    { intros c i. rewrite Hget, elem_of_cell_ids.
      intros (b & Hb & <- & _). by apply mk_bmap_is_Some. }
    exists per_cell. split; [done|].
    intros i (c & _ & _ & Hex & b & Hb & Hd)%Hmem. split; [done|].
    exists b. split_and!; [|done..]. by apply mk_bmap_lookup_Some in Hb as [? _]. }
  assert (∀ q, int_of_true_div radius cs = Some q →
            ∃ per_cell,
              get_in_range (mkSpatialGrid cs g (mk_bmap buildings)) x y radius exclude
              = Some (concat per_cell) ∧
              ∀ i, i ∈ concat per_cell →
                   (i ∉ exclude) ∧
                   ∃ b, b ∈ buildings ∧ mk_bmap buildings !! i = Some b ∧
                        dist_sq x y (b_x b) (b_y b) ≤ radius * radius) as Hrun.
  { intros q Hq. destruct (Hscan q) as (per_cell & Hpc & Hmem).
    exists per_cell. split; [|done].
    unfold get_in_range, floordiv. cbn [cell_size grid bmap]. rewrite Hq.
    destruct (decide (cs = 0)); [done|]. cbn. by rewrite Hpc. }
  assert (get_in_range (mkSpatialGrid cs g (mk_bmap buildings)) x y radius exclude = None
          ↔ true_div_raises radius cs = true) as Hiff.
  { rewrite <- int_of_true_div_None. split.
    - intros Hnone. destruct (int_of_true_div radius cs) as [q|] eqn:Hq; [|done].
      destruct (Hrun q eq_refl) as (? & ? & _). congruence.
    - intros Hq. unfold get_in_range. cbn [cell_size]. by rewrite Hq. }
  split_and!.
  - unfold SpatialGrid_init. by rewrite Hg.
  - exact Hiff.
  - intros Hsmall. apply not_eq_None_Some. rewrite Hiff.
    by rewrite (true_div_defined radius cs Hcs Hsmall).
  - intros res Hres.
    destruct (int_of_true_div radius cs) as [q|] eqn:Hq.
    + destruct (Hrun q eq_refl) as (per_cell & Hrun' & Hmem).
      rewrite Hrun' in Hres. by injection Hres as <-.
    + apply int_of_true_div_None, Hiff in Hq. congruence.
Qed.

Lemma get_in_range_sound_witness :
  ∃ g,
    SpatialGrid_init village (-7) = Some g ∧
    (get_in_range g 10 0 (-50) ∅ = None ↔ true_div_raises (-50) (-7) = true) ∧
    (Z.abs (-50) < 2 ^ 1023 * Z.abs (-7) → is_Some (get_in_range g 10 0 (-50) ∅)) ∧
    ∀ res, get_in_range g 10 0 (-50) ∅ = Some res →
      ∀ i, i ∈ res →
           (i ∉ (∅ : gset Z)) ∧
           ∃ b, b ∈ village ∧ mk_bmap village !! i = Some b ∧
                dist_sq 10 0 (b_x b) (b_y b) ≤ (-50) * (-50).
Proof. apply (get_in_range_sound village (-7) 10 0 (-50) ∅). lia. Defined.

Lemma collect_in_range_None (bm : gmap Z Building) x y r uncovered_ids bid :
  bid ∈ uncovered_ids → bm !! bid = None →
  collect_in_range bm x y r uncovered_ids = None.
Proof.
  intros Hin Hnone. induction uncovered_ids as [|i rest IH].
  { by apply elem_of_nil in Hin. }
  simpl. apply elem_of_cons in Hin as [<-|Hin]; [by rewrite Hnone|].
  destruct (bm !! i); [|done]. simpl. by rewrite (IH Hin).
Qed.

(** X16.  [find_best_antenna] raises whenever one of the uncovered ids is
    not in the id map, whatever the position and the scoring flag.  When
    the known uncovered buildings have a demand of at least 0 and the id
    list is no longer than a list can be, so that no score is beyond the
    float range, that is the only way it raises: on known ids it returns,
    a packing or [None]. *)
Theorem find_best_antenna_raises_iff {F} `{FloatOps F} (x y : Z)
    (uncovered_ids : list Z) (bm : gmap Z Building) (prefer_capacity : bool) :
  ((∃ bid, bid ∈ uncovered_ids ∧ bm !! bid = None) →
   find_best_antenna x y uncovered_ids bm prefer_capacity = None) ∧
  (score_safe bm uncovered_ids →
   find_best_antenna x y uncovered_ids bm prefer_capacity = None →
   ∃ bid, bid ∈ uncovered_ids ∧ bm !! bid = None).
Proof.
  unfold find_best_antenna. split.
  - intros (bid & Hin & Hmiss). cbn [find_best_loop].
    assert (consider_type x y uncovered_ids bm prefer_capacity
              (None, f_of_Z (-1)) Density = None) as ->; [|done].
    unfold consider_type.
    by rewrite (collect_in_range_None bm x y _ uncovered_ids bid).
  - intros Hsafe Hnone.
    destruct (lookup_all bm uncovered_ids) as [blds|] eqn:Hblds;
      [|by apply lookup_all_None].
    exfalso.
    assert (∀ bid, bid ∈ uncovered_ids → is_Some (bm !! bid)) as Hk
      by (apply lookup_all_is_Some; by eexists).
    destruct (find_best_loop_is_Some bm x y uncovered_ids prefer_capacity
                [Density; MaxRange; Spot; Nano] Hk Hsafe (None, f_of_Z (-1)))
      as [r Hr].
    by rewrite Hr in Hnone.
Qed.

Lemma find_best_antenna_raises_iff_witness :
  find_best_antenna (H := integer_floats) 0 0 [1; 2; 9] (mk_bmap village) false = None
  ↔ ∃ bid, bid ∈ [1; 2; 9] ∧ mk_bmap village !! bid = None.
Proof.
  destruct (find_best_antenna_raises_iff (H := integer_floats) 0 0 [1; 2; 9]
              (mk_bmap village) false) as [Hmiss Hsafe].
  split; [apply Hsafe|exact Hmiss].
  split; [by vm_compute|].
  intros bid b _ [Hb _]%mk_bmap_lookup_Some. by apply (village_demands 0 100).
Defined.

(** ** The annealing moves keep a solution feasible *)

Lemma assigned_perm l l' : l ≡ₚ l' → assigned l ≡ₚ assigned l'.
Proof.
  induction 1 as [|a l l' _ IH|a b l|l1 l2 l3 _ IH1 _ IH2].
  - done.
  - by rewrite !assigned_cons, IH.
  - rewrite !assigned_cons, !app_assoc.
    by rewrite (Permutation_app_comm (a_buildings b)).
  - by etrans.
Qed.

Lemma skip_none {A} (P : nat → Prop) `{HP : !∀ k, Decision (P k)} (l : list A) :
  (∀ k, ¬ P k) →
  omap id (imap (λ k a, if decide (P k) then None else Some a) l) = l.
Proof.
  revert P HP. induction l as [|x l IH]; intros P HP Hno; [done|].
  rewrite imap_cons. unfold compose. cbn [omap]. rewrite decide_False by apply Hno. simpl.
  f_equal. apply (IH (λ k, P (S k)) _). intros k. apply Hno.
Qed.

Lemma skip_one {A} (P : nat → Prop) `{HP : !∀ k, Decision (P k)} (l : list A) i a :
  (∀ k, P k ↔ k = i) → l !! i = Some a →
  a :: omap id (imap (λ k a, if decide (P k) then None else Some a) l) ≡ₚ l.
Proof.
  revert P HP i. induction l as [|x l IH]; intros P HP i Hiff Hi; [done|].
  rewrite imap_cons. unfold compose. cbn [omap]. destruct i as [|i]; simpl in Hi.
  - injection Hi as ->. rewrite decide_True by (by apply Hiff). simpl.
    rewrite (skip_none (λ k, P (S k))); [done|]. intros k Hk%Hiff. lia.
  - rewrite decide_False by (intros Hk%Hiff; lia). simpl.
    rewrite Permutation_swap. constructor.
    apply (IH (λ k, P (S k)) _ i); [|done]. intros k. rewrite Hiff. lia.
Qed.

Lemma skip_two {A} (P : nat → Prop) `{HP : !∀ k, Decision (P k)} (l : list A) i j a1 a2 :
  (∀ k, P k ↔ k = i ∨ k = j) → (i < j)%nat →
  l !! i = Some a1 → l !! j = Some a2 →
  a1 :: a2 :: omap id (imap (λ k a, if decide (P k) then None else Some a) l) ≡ₚ l.
Proof.
  revert P HP i j. induction l as [|x l IH]; intros P HP i j Hiff Hij Hi Hj; [done|].
  rewrite imap_cons. unfold compose. cbn [omap]. destruct j as [|j]; [lia|]. simpl in Hj.
  destruct i as [|i]; simpl in Hi.
  - injection Hi as ->. rewrite decide_True by (apply Hiff; by left). simpl.
    constructor. apply (skip_one (λ k, P (S k)) l j); [|done].
    intros k. rewrite Hiff. lia.
  - rewrite decide_False by (intros Hk%Hiff; lia). simpl.
    rewrite (Permutation_swap x a2), (Permutation_swap x a1). constructor.
    apply (IH (λ k, P (S k)) _ i j); [|lia|done|done].
    intros k. rewrite Hiff. lia.
Qed.

Lemma without_one antennas i a :
  antennas !! i = Some a → a :: without_indices [i] antennas ≡ₚ antennas.
Proof.
  intros Hi. apply (skip_one (λ k, k ∈ [i]) antennas i); [|done].
  intros k. by rewrite list_elem_of_singleton.
Qed.

Lemma without_two antennas i j a1 a2 :
  (i < j)%nat → antennas !! i = Some a1 → antennas !! j = Some a2 →
  a1 :: a2 :: without_indices [i; j] antennas ≡ₚ antennas.
Proof.
  intros Hij Hi Hj. apply (skip_two (λ k, k ∈ [i; j]) antennas i j); [|done..].
  intros k. rewrite !elem_of_cons. set_solver.
Qed.

Lemma without_indices_valid bm skip antennas :
  all_valid bm antennas → all_valid bm (without_indices skip antennas).
Proof.
  unfold all_valid. rewrite !Forall_forall.
  intros Hall a (k & Hk & _)%elem_of_without_indices.
  apply Hall. by eapply list_elem_of_lookup_2.
Qed.

Lemma lookup_all_length (bm : gmap Z Building) bids blds :
  lookup_all bm bids = Some blds → length bids = length blds.
Proof. apply length_mapM. Qed.

(** What [merge_antennas] returns: the antennas at two indices [i < j] are
    taken out and one antenna that serves the buildings of both and fits
    them is appended. *)
Lemma merge_antennas_shape {G F} `{PyRandom G F} antennas bm (g g' : G) res :
  merge_antennas antennas bm g = Some (Some res, g') →
  ∃ i j a1 a2 m blds,
    (i < j)%nat ∧ antennas !! i = Some a1 ∧ antennas !! j = Some a2 ∧
    res = without_indices [i; j] antennas ++ [m] ∧
    a_buildings m = a_buildings a1 ++ a_buildings a2 ∧
    lookup_all bm (a_buildings m) = Some blds ∧
    type_fits (a_type m) (a_x m) (a_y m) blds.
Proof.
  unfold merge_antennas. destruct (decide _); [by intros [? _]%rret_Some|].
  intros Hm. rand_inv.
  apply sa_merge_pairs_Some in Hm as (i & j & Hij & Hm).
  apply sa_merge_pair_Some in Hm
    as (a1 & a2 & blds & c & Hi & Hj & Hblds & _ & Hcap & Hrange & ->).
  exists i, j, a1, a2, (mkAntenna c.2 c.1.1 c.1.2 (a_buildings a1 ++ a_buildings a2)), blds.
  split_and!; try done. simpl. split; [done|]. by apply all_in_range_Forall.
Qed.

Lemma merge_antennas_keeps {G F} `{PyRandom G F} antennas bm (g g' : G) res :
  merge_antennas antennas bm g = Some (Some res, g') →
  keeps_feasible bm antennas res ∧ S (length res) = length antennas.
Proof.
  intros (i & j & a1 & a2 & m & blds & Hij & Hi & Hj & -> & Hb & Hblds & Hfit)
         %merge_antennas_shape.
  pose proof (without_two antennas i j a1 a2 Hij Hi Hj) as Hperm.
  unfold keeps_feasible. split_and!.
  - rewrite <- (assigned_perm _ _ Hperm).
    rewrite assigned_app, !assigned_cons. simpl. rewrite Hb, app_nil_r.
    rewrite Permutation_app_comm. by rewrite <- app_assoc.
  - intros Hv. apply Forall_app. split; [by apply without_indices_valid|].
    constructor; [|done]. apply valid_antenna_fits. split; [|by exists blds].
    unfold all_valid in Hv. rewrite Forall_forall in Hv.
    assert (valid_antenna bm a1) as [Hne _]%valid_antenna_fits
      by (by eapply Hv, list_elem_of_lookup_2).
    rewrite Hb. by destruct (a_buildings a1).
  - apply Permutation_length in Hperm. rewrite length_app. simpl in *. lia.
Qed.

Lemma centroid_nonempty coord blds c : centroid coord blds = Some c → blds ≠ [].
Proof. by intros Hc ->. Qed.

(** What [split_antenna] returns: the antenna at one index is taken out
    and two valid antennas are appended, which share the shuffled buildings
    of the one taken out. *)
Lemma split_antenna_shape {G F} `{PyRandom G F} antennas bm (g g' : G) res :
  split_antenna antennas bm g = Some (Some res, g') →
  ∃ idx ant g1 ant1 ant2,
    antennas !! idx = Some ant ∧
    res = without_indices [idx] antennas ++ [ant1; ant2] ∧
    a_buildings ant1 ++ a_buildings ant2 = (random_shuffle (a_buildings ant) g1).1 ∧
    valid_antenna bm ant1 ∧ valid_antenna bm ant2.
Proof.
  unfold split_antenna.
  destruct (indices_with_more_than 1 antennas); [by intros [? _]%rret_Some|].
  intros Hs. rand_inv.
  repeat match goal with
  | H : context [match ?o with Some _ => _ | None => _ end] |- _ => destruct o eqn:?
  end; rand_inv; simplify_eq.
  repeat match goal with
  | H : centroid _ _ = Some _ |- _ => apply centroid_nonempty in H
  | H : lookup_all _ _ = Some _ |- _ => apply lookup_all_length in H
  end.
  match goal with
  | Hi : antennas !! ?idx = Some ?ant, Hd : random_shuffle _ ?g1 = _ |- _ =>
      exists idx, ant, g1
  end.
  eexists _, _. split_and!; [done|done| | |].
  - unfold set_type. cbn [a_buildings]. rewrite take_drop.
    match goal with Hd : random_shuffle _ _ = _ |- _ => by rewrite Hd end.
  - apply get_cheapest_valid_type_valid; [done|]. cbn [a_buildings].
    intros Hnil.
    match goal with
    | H : length (take _ _) = length ?b, Hb : ?b ≠ [] |- _ =>
        rewrite Hnil in H; by destruct b
    end.
  - apply get_cheapest_valid_type_valid; [done|]. cbn [a_buildings].
    intros Hnil.
    match goal with
    | H : length (drop _ _) = length ?b, Hb : ?b ≠ [] |- _ =>
        rewrite Hnil in H; by destruct b
    end.
Qed.

Lemma split_antenna_keeps {G F} `{PyRandom G F} antennas bm (g g' : G) res :
  shuffle_ok →
  split_antenna antennas bm g = Some (Some res, g') →
  keeps_feasible bm antennas res ∧ length res = S (length antennas).
Proof.
  intros Hshuffle
    (idx & ant & g1 & ant1 & ant2 & Hidx & -> & Hb & Hv1 & Hv2)%split_antenna_shape.
  pose proof (without_one antennas idx ant Hidx) as Hperm.
  unfold keeps_feasible. split_and!.
  - rewrite <- (assigned_perm _ _ Hperm).
    rewrite assigned_app, !assigned_cons. simpl. rewrite app_nil_r, Hb.
    rewrite (Hshuffle (a_buildings ant) g1). apply Permutation_app_comm.
  - intros Hv. apply Forall_app. split; [by apply without_indices_valid|].
    by repeat constructor.
  - apply Permutation_length in Hperm. rewrite length_app. simpl in *. lia.
Qed.

Lemma assigned_insert_same antennas i a a' :
  antennas !! i = Some a → a_buildings a' = a_buildings a →
  assigned (<[i := a']> antennas) = assigned antennas.
Proof.
  revert i. induction antennas as [|a0 antennas IH]; intros [|i]; simpl; try done.
  - intros [= ->] Hb. by rewrite !assigned_cons, Hb.
  - intros Hi Hb. by rewrite !assigned_cons, (IH i Hi Hb).
Qed.

Lemma lookup_all_elem_of (bm : gmap Z Building) bids blds b :
  lookup_all bm bids = Some blds → b ∈ blds →
  ∃ bid, bid ∈ bids ∧ bm !! bid = Some b.
Proof.
  unfold lookup_all. intros Hall%mapM_Some [k Hk]%list_elem_of_lookup.
  destruct (Forall2_lookup_r _ _ _ _ _ Hall Hk) as (bid & Hbid & Hb).
  exists bid. split; [by eapply list_elem_of_lookup_2|done].
Qed.

(** What [relocate_antenna] returns: one antenna is replaced, in place, by
    a valid antenna with the same buildings that sits on one of them. *)
Lemma relocate_antenna_shape {G F} `{PyRandom G F} antennas bm (g g' : G) res :
  relocate_antenna antennas bm g = Some (Some res, g') →
  ∃ idx ant new bid b,
    antennas !! idx = Some ant ∧
    res = <[idx := new]> antennas ∧
    a_buildings new = a_buildings ant ∧
    bid ∈ a_buildings ant ∧ bm !! bid = Some b ∧
    (a_x new, a_y new) = (b_x b, b_y b) ∧
    valid_antenna bm new.
Proof.
  unfold relocate_antenna. destruct antennas as [|a0 antennas0] eqn:Hants;
    [by intros [? _]%rret_Some|].
  rewrite <- Hants. clear Hants. intros Hr. rand_inv.
  repeat match goal with
  | H : context [match ?o with Some _ => _ | None => _ end] |- _ => destruct o eqn:?
  end; rand_inv; simplify_eq.
  match goal with
  | Hc : random_choice _ _ = Some _ |- _ => apply random_choice_elem_of in Hc
  end.
  match goal with
  | Hl : lookup_all _ _ = Some ?blds, Hc : _ ∈ ?blds |- _ =>
      destruct (lookup_all_elem_of _ _ _ _ Hl Hc) as (bid & Hbid & Hb)
  end.
  eexists _, _, _, bid, _. split_and!; [done|done|done|done|done|done|].
  apply get_cheapest_valid_type_valid; [done|]. simpl.
  intros Hnil. rewrite Hnil in Hbid. by apply elem_of_nil in Hbid.
Qed.

Lemma relocate_antenna_keeps {G F} `{PyRandom G F} antennas bm (g g' : G) res :
  relocate_antenna antennas bm g = Some (Some res, g') →
  keeps_feasible bm antennas res ∧ length res = length antennas.
Proof.
  intros (idx & ant & new & bid & b & Hidx & -> & Hb & _ & _ & _ & Hv)
         %relocate_antenna_shape.
  unfold keeps_feasible. split_and!.
  - by rewrite (assigned_insert_same antennas idx ant new).
  - intros Hall. by apply Forall_insert.
  - by rewrite length_insert.
Qed.

Lemma moved_one_keeps bm antennas res :
  moved_one bm antennas res →
  keeps_feasible bm antennas res ∧ length res = length antennas.
Proof.
  intros (src_idx & tgt_idx & src_ant & tgt_ant & bid & new_src & new_tgt
          & Hidx & Hsrc & Htgt & Hlen & -> & Hrm & Hnew & Hps & Hpt & Hvs & Hvt).
  unfold keeps_feasible. split_and!.
  - apply (Permutation_app_inv_r (a_buildings tgt_ant ++ a_buildings src_ant)).
    rewrite app_assoc.
    rewrite (assigned_insert (<[src_idx:=new_src]> antennas) tgt_idx tgt_ant new_tgt)
      by (by rewrite list_lookup_insert_ne).
    rewrite Hnew, <- !app_assoc.
    rewrite (Permutation_app_comm (a_buildings tgt_ant)
               ([bid] ++ a_buildings src_ant)).
    rewrite <- !app_assoc.
    rewrite (Permutation_app_comm [bid] (a_buildings src_ant ++ a_buildings tgt_ant)).
    rewrite !app_assoc.
    rewrite (assigned_insert antennas src_idx src_ant new_src Hsrc).
    rewrite <- !app_assoc. apply Permutation_app_head.
    rewrite (list_remove_first_perm _ _ _ Hrm).
    rewrite Permutation_app_comm, <- app_assoc.
    by apply Permutation_app_head.
  - intros Hall. apply Forall_insert; [by apply Forall_insert|done].
  - by rewrite !length_insert.
Qed.

(** A move of the annealing driver that keeps feasibility whenever it
    returns a solution. *)
Lemma moves_keep {G F} `{FloatOps F, PyRandom G F} (m : Move G) :
  shuffle_ok → m ∈ (moves (G := G) (F := F)).*1 →
  ∀ antennas bm (g g' : G) res,
    m antennas bm g = Some (Some res, g') → keeps_feasible bm antennas res.
Proof.
  intros Hshuffle Hm antennas bm g g' res Hres. unfold moves in Hm. simpl in Hm.
  repeat (apply elem_of_cons in Hm as [->|Hm]).
  - by apply move_building_moved_one, moved_one_keeps in Hres as [? _].
  - by apply merge_antennas_keeps in Hres as [? _].
  - by apply split_antenna_keeps in Hres as [? _].
  - by apply relocate_antenna_keeps in Hres as [? _].
  - by apply elem_of_nil in Hm.
Qed.

Lemma try_all_moves_from {G F} (P : list Antenna → Prop) (ms : list (Move G * F))
    antennas bm (g g' : G) res :
  (∀ m, m ∈ ms.*1 → ∀ (g g' : G) res,
        m antennas bm g = Some (Some res, g') → P res) →
  try_all_moves ms antennas bm g = Some (Some res, g') →
  res ≠ [] ∧ P res.
Proof.
  revert g. induction ms as [|[m p] ms IH]; intros g Hms; simpl.
  { by intros [? _]%rret_Some. }
  intros (result & g1 & Hm & Hrest)%rbind_Some.
  destruct (truthy result) eqn:Htr.
  - apply rret_Some in Hrest as [-> _].
    split; [by destruct res|]. eapply Hms; [by left|done].
  - eapply IH; [|done]. intros m' Hm'. apply Hms. by right.
Qed.

Lemma pick_move_elem_of {G F} `{FloatOps F} (r c : F) (ms : list (Move G * F)) m :
  pick_move r c ms = Some m → m ∈ ms.*1.
Proof.
  revert c. induction ms as [|[m' p] ms IH]; intros c; simpl; [done|].
  destruct (f_lt r (f_add c p)).
  - intros [= ->]. by left.
  - intros Hp. right. by eapply IH.
Qed.

(** Whatever holds of every solution that one of the four moves returns
    holds of the solution that [random_neighbor] returns. *)
Lemma random_neighbor_from {G F} `{FloatOps F, PyRandom G F}
    (P : list Antenna → Prop) antennas bm (g g' : G) res :
  (∀ m, m ∈ (moves (G := G) (F := F)).*1 → ∀ (g g' : G) res,
        m antennas bm g = Some (Some res, g') → P res) →
  random_neighbor antennas bm g = Some (Some res, g') →
  res ≠ [] ∧ P res.
Proof.
  intros Hms. unfold random_neighbor.
  intros (r & g1 & _ & Hrest)%rbind_Some.
  destruct (pick_move r (f_of_Z 0) moves) as [m|] eqn:Hpick.
  - apply rbind_Some in Hrest as (result & g2 & Hm & Hrest).
    destruct (truthy result) eqn:Htr.
    + apply rret_Some in Hrest as [-> _]. split; [by destruct res|].
      eapply Hms; [by eapply pick_move_elem_of|done].
    + by eapply try_all_moves_from.
  - by eapply try_all_moves_from.
Qed.

Lemma random_neighbor_keeps {G F} `{FloatOps F, PyRandom G F}
    antennas bm (g g' : G) res :
  shuffle_ok →
  random_neighbor antennas bm g = Some (Some res, g') →
  res ≠ [] ∧ keeps_feasible bm antennas res.
Proof.
  intros Hshuffle. apply random_neighbor_from.
  intros m Hm g2 g3 res'. by apply moves_keep.
Qed.

(** Each move changes the number of antennas by at most one. *)
Lemma moves_length {G F} `{FloatOps F, PyRandom G F} (m : Move G) :
  shuffle_ok → m ∈ (moves (G := G) (F := F)).*1 →
  ∀ antennas bm (g g' : G) res,
    m antennas bm g = Some (Some res, g') →
    (length antennas ≤ S (length res))%nat ∧ (length res ≤ S (length antennas))%nat.
Proof.
  intros Hshuffle Hm antennas bm g g' res Hres. unfold moves in Hm. simpl in Hm.
  repeat (apply elem_of_cons in Hm as [->|Hm]).
  - apply move_building_moved_one, moved_one_keeps in Hres as [_ ?]. lia.
  - apply merge_antennas_keeps in Hres as [_ ?]. lia.
  - apply split_antenna_keeps in Hres as [_ ?]; [lia|done].
  - apply relocate_antenna_keeps in Hres as [_ ?]. lia.
  - by apply elem_of_nil in Hm.
Qed.

Lemma keeps_feasible_trans bm l1 l2 l3 :
  keeps_feasible bm l1 l2 → keeps_feasible bm l2 l3 → keeps_feasible bm l1 l3.
Proof.
  intros [Hp1 Hv1] [Hp2 Hv2]. split; [by rewrite Hp2|]. intros. by apply Hv2, Hv1.
Qed.

Lemma sa_step_keeps {G F} `{FloatOps F, PyRandom G F, FloatErrors F} bm (rate : F)
    (st st' : SAState F) (g g' : G) antennas :
  shuffle_ok →
  sa_step bm rate st g = Some (st', g') →
  keeps_feasible bm antennas (sa_current st) →
  keeps_feasible bm antennas (sa_best st) →
  keeps_feasible bm antennas (sa_current st') ∧
  keeps_feasible bm antennas (sa_best st').
Proof.
  intros Hshuffle Hstep Hc Hb. unfold sa_step in Hstep.
  apply rbind_Some in Hstep as ([neighbor|] & g1 & Hn & Hstep).
  - apply random_neighbor_keeps in Hn as [_ Hn]; [|done].
    pose proof (keeps_feasible_trans _ _ _ _ Hc Hn) as Hc'.
    destruct (decide (calculate_cost neighbor - sa_current_cost st < 0)).
    + apply rret_Some in Hstep as [<- _]. unfold sa_record_best. simpl.
      by destruct (decide (calculate_cost neighbor < sa_best_cost st)).
    + apply rbind_Some in Hstep as (r & g2 & _ & Hstep).
      destruct (exp_div_raises _ _); [by apply rlift_Some in Hstep as [? _]|].
      by destruct (f_lt r _); apply rret_Some in Hstep as [<- _].
  - by apply rret_Some in Hstep as [<- _].
Qed.

Lemma sa_loop_keeps {G F} `{FloatOps F, PyRandom G F, FloatErrors F} bm (rate min_temp : F) n
    antennas :
  shuffle_ok →
  ∀ (st st' : SAState F) (g g' : G),
  sa_loop n bm rate min_temp st g = Some (st', g') →
  keeps_feasible bm antennas (sa_current st) →
  keeps_feasible bm antennas (sa_best st) →
  keeps_feasible bm antennas (sa_current st') ∧
  keeps_feasible bm antennas (sa_best st').
Proof.
  intros Hshuffle. induction n as [|n IH]; intros st st' g g'; simpl.
  - by intros [<- _]%rret_Some.
  - destruct (f_lt min_temp (sa_temp st)).
    + intros (st1 & g1 & Hstep & Hloop)%rbind_Some Hc Hb.
      destruct (sa_step_keeps _ _ _ _ _ _ antennas Hshuffle Hstep Hc Hb).
      by eapply IH.
    + by intros [<- _]%rret_Some.
Qed.

(** X17.  When [merge_antennas] returns a solution, it has one antenna less, it
    serves the same building ids, each as often as before, and every
    antenna of it passes [is_valid_antenna] if every antenna of the input
    did.  The merged antenna comes last, serves the buildings of the two
    it replaces and has a type that fits them, whether or not the two were
    valid. *)
Theorem merge_antennas_feasible {G F} `{PyRandom G F} (antennas res : list Antenna)
    (bm : gmap Z Building) (g g' : G) :
  merge_antennas antennas bm g = Some (Some res, g') →
  assigned res ≡ₚ assigned antennas ∧
  S (length res) = length antennas ∧
  (all_valid bm antennas → all_valid bm res) ∧
  ∃ a1 a2 m blds,
    a1 ∈ antennas ∧ a2 ∈ antennas ∧ last res = Some m ∧
    a_buildings m = a_buildings a1 ++ a_buildings a2 ∧
    lookup_all bm (a_buildings m) = Some blds ∧
    type_fits (a_type m) (a_x m) (a_y m) blds.
Proof.
  intros Hm. pose proof (merge_antennas_keeps _ _ _ _ _ Hm) as [[Hp Hv] Hlen].
  split_and!; [done..|].
  apply merge_antennas_shape in Hm
    as (i & j & a1 & a2 & m & blds & _ & Hi & Hj & -> & Hb & Hblds & Hfit).
  exists a1, a2, m, blds. split_and!; try done.
  - by eapply list_elem_of_lookup_2.
  - by eapply list_elem_of_lookup_2.
  - by rewrite last_snoc.
Qed.

Lemma merge_antennas_feasible_witness :
  assigned [mkAntenna MaxRange 400 0 [1; 2]] ≡ₚ assigned far_pair ∧
  S (length [mkAntenna MaxRange 400 0 [1; 2]]) = length far_pair ∧
  (all_valid (mk_bmap far_pair_buildings) far_pair →
   all_valid (mk_bmap far_pair_buildings) [mkAntenna MaxRange 400 0 [1; 2]]) ∧
  ∃ a1 a2 m blds,
    a1 ∈ far_pair ∧ a2 ∈ far_pair ∧
    last [mkAntenna MaxRange 400 0 [1; 2]] = Some m ∧
    a_buildings m = a_buildings a1 ++ a_buildings a2 ∧
    lookup_all (mk_bmap far_pair_buildings) (a_buildings m) = Some blds ∧
    type_fits (a_type m) (a_x m) (a_y m) blds.
Proof.
  apply (merge_antennas_feasible (H := first_choice_random) far_pair _
           (mk_bmap far_pair_buildings) tt tt).
  vm_compute. reflexivity.
Defined.

(** X18.  When [split_antenna] returns a solution, it has one antenna more, it
    serves the same building ids, each as often as before, and every
    antenna of it passes [is_valid_antenna] if every antenna of the input
    did.  The two halves come last and both pass [is_valid_antenna],
    whether or not the antenna they replace did.  A shuffle is taken to
    permute its list. *)
Theorem split_antenna_feasible {G F} `{PyRandom G F} (antennas res : list Antenna)
    (bm : gmap Z Building) (g g' : G) :
  shuffle_ok →
  split_antenna antennas bm g = Some (Some res, g') →
  assigned res ≡ₚ assigned antennas ∧
  length res = S (length antennas) ∧
  (all_valid bm antennas → all_valid bm res) ∧
  ∃ kept ant ant1 ant2,
    res = kept ++ [ant1; ant2] ∧ ant ∈ antennas ∧
    a_buildings ant1 ++ a_buildings ant2 ≡ₚ a_buildings ant ∧
    valid_antenna bm ant1 ∧ valid_antenna bm ant2.
Proof.
  intros Hshuffle Hs.
  pose proof (split_antenna_keeps _ _ _ _ _ Hshuffle Hs) as [[Hp Hv] Hlen].
  split_and!; [done..|].
  apply split_antenna_shape in Hs
    as (idx & ant & g1 & ant1 & ant2 & Hidx & -> & Hb & Hv1 & Hv2).
  exists (without_indices [idx] antennas), ant, ant1, ant2.
  split_and!; try done.
  - by eapply list_elem_of_lookup_2.
  - rewrite Hb. apply Hshuffle.
Qed.

Lemma split_antenna_feasible_witness :
  assigned [mkAntenna Nano 0 0 [1]; mkAntenna Nano 20 0 [2; 3]]
  ≡ₚ assigned row_antenna ∧
  length [mkAntenna Nano 0 0 [1]; mkAntenna Nano 20 0 [2; 3]]
  = S (length row_antenna) ∧
  (all_valid (mk_bmap row_buildings) row_antenna →
   all_valid (mk_bmap row_buildings)
     [mkAntenna Nano 0 0 [1]; mkAntenna Nano 20 0 [2; 3]]) ∧
  ∃ kept ant ant1 ant2,
    [mkAntenna Nano 0 0 [1]; mkAntenna Nano 20 0 [2; 3]] = kept ++ [ant1; ant2] ∧
    ant ∈ row_antenna ∧
    a_buildings ant1 ++ a_buildings ant2 ≡ₚ a_buildings ant ∧
    valid_antenna (mk_bmap row_buildings) ant1 ∧
    valid_antenna (mk_bmap row_buildings) ant2.
Proof.
  apply (split_antenna_feasible (H := first_choice_random) row_antenna _
           (mk_bmap row_buildings) tt tt).
  - exact first_choice_shuffle_ok.
  - vm_compute. reflexivity.
Defined.

(** X19.  When [relocate_antenna] returns a solution, one antenna of the input
    has been replaced, in place, by an antenna that serves the same
    buildings, sits on one of them and passes [is_valid_antenna], whether
    or not the replaced one did; every other antenna is as it was. *)
Theorem relocate_antenna_feasible {G F} `{PyRandom G F} (antennas res : list Antenna)
    (bm : gmap Z Building) (g g' : G) :
  relocate_antenna antennas bm g = Some (Some res, g') →
  ∃ idx ant new bid b,
    antennas !! idx = Some ant ∧
    res = <[idx := new]> antennas ∧
    a_buildings new = a_buildings ant ∧
    bid ∈ a_buildings ant ∧ bm !! bid = Some b ∧
    (a_x new, a_y new) = (b_x b, b_y b) ∧
    valid_antenna bm new ∧
    assigned res = assigned antennas.
Proof.
  intros (idx & ant & new & bid & b & Hidx & -> & Hb & Hbid & Hlk & Hpos & Hv)
         %relocate_antenna_shape.
  exists idx, ant, new, bid, b. split_and!; try done.
  by apply (assigned_insert_same antennas idx ant new).
Qed.

Lemma relocate_antenna_feasible_witness :
  ∃ idx ant new bid b,
    [mkAntenna MaxRange 200 0 [1; 3]] !! idx = Some ant ∧
    [mkAntenna Nano 0 0 [1; 3]] = <[idx := new]> [mkAntenna MaxRange 200 0 [1; 3]] ∧
    a_buildings new = a_buildings ant ∧
    bid ∈ a_buildings ant ∧
    mk_bmap near_pair_buildings !! bid = Some b ∧
    (a_x new, a_y new) = (b_x b, b_y b) ∧
    valid_antenna (mk_bmap near_pair_buildings) new ∧
    assigned [mkAntenna Nano 0 0 [1; 3]] = assigned [mkAntenna MaxRange 200 0 [1; 3]].
Proof.
  apply (relocate_antenna_feasible (H := first_choice_random) _ _ _ tt tt).
  vm_compute. reflexivity.
Defined.

(** X20.  When [random_neighbor] returns a solution, whichever of the four moves
    produced it, it is not empty, it serves the same building ids, each as
    often as before, its number of antennas differs from the input's by at
    most one, and every antenna of it passes [is_valid_antenna] if every
    antenna of the input did; a shuffle is taken to permute its list. *)
Theorem random_neighbor_feasible {G F} `{FloatOps F, PyRandom G F}
    (antennas res : list Antenna) (bm : gmap Z Building) (g g' : G) :
  shuffle_ok →
  random_neighbor antennas bm g = Some (Some res, g') →
  res ≠ [] ∧
  assigned res ≡ₚ assigned antennas ∧
  (length antennas ≤ S (length res))%nat ∧
  (length res ≤ S (length antennas))%nat ∧
  (all_valid bm antennas → all_valid bm res).
Proof.
  intros Hshuffle Hn.
  apply (random_neighbor_from
           (λ res, keeps_feasible bm antennas res ∧
                   (length antennas ≤ S (length res))%nat ∧
                   (length res ≤ S (length antennas))%nat)) in Hn
    as (Hne & [Hp Hv] & Hl1 & Hl2); [done|].
  intros m Hm g2 g3 res' Hres'. split.
  - by eapply moves_keep.
  - by eapply moves_length.
Qed.

Lemma random_neighbor_feasible_witness :
  [mkAntenna Nano 0 0 [2]; mkAntenna MaxRange 400 0 [3; 1]] ≠ [] ∧
  assigned [mkAntenna Nano 0 0 [2]; mkAntenna MaxRange 400 0 [3; 1]]
  ≡ₚ assigned village_solution ∧
  Nat.le (length village_solution)
    (S (length [mkAntenna Nano 0 0 [2]; mkAntenna MaxRange 400 0 [3; 1]])) ∧
  Nat.le (length [mkAntenna Nano 0 0 [2]; mkAntenna MaxRange 400 0 [3; 1]])
    (S (length village_solution)) ∧
  (all_valid (mk_bmap village) village_solution →
   all_valid (mk_bmap village)
     [mkAntenna Nano 0 0 [2]; mkAntenna MaxRange 400 0 [3; 1]]).
Proof.
  apply (random_neighbor_feasible (H := integer_floats) (H0 := first_choice_random)
           village_solution _ (mk_bmap village) tt tt).
  - exact first_choice_shuffle_ok.
  - vm_compute. reflexivity.
Defined.

(** X21.  The solution that [simulated_annealing] returns serves the same
    building ids as the solution it was given, each as often, and every
    antenna of it passes [is_valid_antenna] if every antenna of the input
    did, although the driver never calls that check; a shuffle is taken to
    permute its list. *)
Theorem simulated_annealing_feasible {G F} `{FloatOps F, PyRandom G F, FloatErrors F}
    (antennas : list Antenna) (bm : gmap Z Building)
    (initial_temp cooling_rate min_temp : F) (max_iterations : Z)
    (g g' : G) (best : list Antenna) (best_cost : Z) :
  shuffle_ok →
  simulated_annealing antennas bm initial_temp cooling_rate min_temp max_iterations g
  = Some ((best, best_cost), g') →
  assigned best ≡ₚ assigned antennas ∧
  (all_valid bm antennas → all_valid bm best).
Proof.
  intros Hshuffle. unfold simulated_annealing.
  intros (st & g1 & Hloop & [[= <- <-] _]%rret_Some)%rbind_Some.
  eapply (sa_loop_keeps bm cooling_rate min_temp _ antennas Hshuffle) in Hloop
    as [_ Hbest]; [done|by split|by split].
Qed.

Lemma simulated_annealing_feasible_witness :
  assigned [mkAntenna Nano 400 0 [3]; mkAntenna Nano 0 0 [1; 2]]
  ≡ₚ assigned [mkAntenna Nano 0 0 [1]; mkAntenna Nano 30 0 [2];
               mkAntenna Nano 400 0 [3]] ∧
  (all_valid (mk_bmap village)
     [mkAntenna Nano 0 0 [1]; mkAntenna Nano 30 0 [2]; mkAntenna Nano 400 0 [3]] →
   all_valid (mk_bmap village)
     [mkAntenna Nano 400 0 [3]; mkAntenna Nano 0 0 [1; 2]]).
Proof.
  apply (simulated_annealing_feasible (H := integer_floats)
           (H0 := first_choice_random) (H1 := integer_float_errors)
           _ (mk_bmap village)
           100 1 0 1 tt tt _ 10000).
  - exact first_choice_shuffle_ok.
  - vm_compute. reflexivity.
Defined.

(** ** The two type optimisers *)

Lemma cost_on_inj t t' : cost_on t = cost_on t' → t = t'.
Proof. by destruct t, t'. Qed.

Lemma optimize_one_agrees bm ant :
  valid_antenna bm ant → optimize_one bm ant = optimize_antenna_type ant bm.
Proof.
  intros Hvalid. pose proof Hvalid as (Hne & blds & Hblds & Hfit)%valid_antenna_fits.
  destruct (optimize_one bm ant) as [ant1|] eqn:Hone; cycle 1.
  { unfold optimize_one in Hone. by rewrite Hblds in Hone. }
  apply optimize_one_downgraded in Hone
    as (Hx & Hy & Hb & blds' & Hblds' & _ & Hmin & Hcase).
  assert (blds' = blds) as -> by congruence.
  assert (type_fits (a_type ant1) (a_x ant) (a_y ant) blds) as Hfit1.
  { destruct Hcase as [->|[? _]]; done. }
  unfold optimize_antenna_type.
  destruct (get_cheapest_valid_type ant bm) as [[t|]|] eqn:Hget; simpl.
  - pose proof (get_cheapest_valid_type_cheapest _ _ _ _ _ Hget Hblds Hfit1) as Hle.
    apply get_cheapest_valid_type_fits in Hget as (blds' & Hblds'' & Hfit2).
    assert (blds' = blds) as -> by congruence.
    specialize (Hmin t Hfit2).
    assert (a_type ant1 = t) as <- by (apply cost_on_inj; lia).
    f_equal. unfold set_type. destruct ant1. simpl in *. by subst.
  - exfalso. by eapply get_cheapest_none_fits.
  - unfold get_cheapest_valid_type in Hget. by rewrite Hblds in Hget.
Qed.

(** X22.  On a solution whose antennas all pass [is_valid_antenna], the type
    pass [optimize_types] of the constructor gives every antenna the type
    that [optimize_antenna_type] of the annealing script gives it: the two
    loops, which try the types in different orders, pick the same type. *)
Theorem optimize_types_agrees (solution : list Antenna) (buildings : list Building) :
  all_valid (mk_bmap buildings) solution →
  optimize_types solution buildings
  = mapM (λ ant, optimize_antenna_type ant (mk_bmap buildings)) solution.
Proof.
  unfold optimize_types, all_valid. intros Hv.
  apply Forall_mapM_ext. eapply Forall_impl; [exact Hv|].
  intros ant. apply optimize_one_agrees.
Qed.

Lemma optimize_types_agrees_witness :
  optimize_types [mkAntenna Density 0 0 [1; 2]; mkAntenna MaxRange 400 0 [3]] village
  = mapM (λ ant, optimize_antenna_type ant (mk_bmap village))
         [mkAntenna Density 0 0 [1; 2]; mkAntenna MaxRange 400 0 [3]].
Proof.
  apply (optimize_types_agrees
           [mkAntenna Density 0 0 [1; 2]; mkAntenna MaxRange 400 0 [3]] village).
  repeat constructor; vm_compute; reflexivity.
Defined.

(** ** The annealing driver does not raise on a valid solution *)

Lemma rbind_is_Some {G A B} (m : Rand G A) (k : A → Rand G B) (g : G) a g1 :
  m g = Some (a, g1) → is_Some (k a g1) → is_Some (rbind m k g).
Proof. intros Hm Hk. unfold rbind. by rewrite Hm. Qed.

Lemma random_choice_is_Some {G F A} `{PyRandom G F} (l : list A) (g : G) :
  randbelow_ok → l ≠ [] → ∃ x g1, random_choice l g = Some (x, g1) ∧ x ∈ l.
Proof.
  intros Hrb Hne. unfold random_choice. destruct l as [|a l]; [done|].
  unfold rbind, rdraw. specialize (Hrb (length (a :: l)) g ltac:(simpl; lia)).
  destruct (randbelow (length (a :: l)) g) as [k g1]. simpl in Hrb.
  destruct (lookup_lt_is_Some_2 (a :: l) k ltac:(simpl; lia)) as [x Hx].
  exists x, g1. unfold rlift. rewrite Hx. split; [done|].
  by eapply list_elem_of_lookup_2.
Qed.

Lemma get_cheapest_valid_type_is_Some ant (bm : gmap Z Building) :
  (∀ bid, bid ∈ a_buildings ant → is_Some (bm !! bid)) →
  is_Some (get_cheapest_valid_type ant bm).
Proof.
  intros Hk. unfold get_cheapest_valid_type.
  destruct (proj2 (lookup_all_is_Some bm _) Hk) as [blds ->]. by eexists.
Qed.

Lemma list_remove_first_is_Some x l :
  x ∈ l → ∃ l', list_remove_first x l = Some l' ∧ l' ⊆ l.
Proof.
  induction l as [|y l IH]; intros Hx; [by apply elem_of_nil in Hx|].
  simpl. destruct (decide (x = y)) as [->|Hne].
  - exists l. split; [done|]. set_solver.
  - apply elem_of_cons in Hx as [?|Hx]; [done|].
    destruct (IH Hx) as (l' & -> & Hsub). exists (y :: l'). split; [done|].
    set_solver.
Qed.

Lemma square_le_square (u B : Z) : Z.abs u ≤ B → u * u ≤ B * B.
Proof.
  intros Hu. rewrite <- (Z.abs_square u). apply Z.mul_le_mono_nonneg; lia.
Qed.

(** The distance of two points of the box of side [2 ^ 502] around the
    origin converts to a float. *)
Lemma dist_gt_is_Some x1 y1 x2 y2 d :
  Z.abs x1 ≤ 2 ^ 501 → Z.abs y1 ≤ 2 ^ 501 →
  Z.abs x2 ≤ 2 ^ 501 → Z.abs y2 ≤ 2 ^ 501 →
  is_Some (dist_gt x1 y1 x2 y2 d).
Proof.
  intros Hx1 Hy1 Hx2 Hy2. unfold dist_gt, float_of_int_raises.
  rewrite true_div_defined; [by eexists|done|].
  assert (8 * (2 ^ 501 * 2 ^ 501) < 2 ^ 1023 * Z.abs 1) as Hbig by (by vm_compute).
  revert Hbig Hx1 Hy1 Hx2 Hy2. generalize (2 ^ 1023 * Z.abs 1), (2 ^ 501).
  intros top B Hbig Hx1 Hy1 Hx2 Hy2. unfold dist_sq. rewrite !Z.pow_2_r.
  pose proof (square_le_square (x1 - x2) (2 * B) ltac:(lia)).
  pose proof (square_le_square (y1 - y2) (2 * B) ltac:(lia)).
  pose proof (Z.square_nonneg (x1 - x2)). pose proof (Z.square_nonneg (y1 - y2)).
  rewrite Z.abs_eq by lia. nia.
Qed.

(** A valid antenna is within 400 of a building. *)
Lemma valid_antenna_in_box bm ant :
  within_box bm (2 ^ 500) → valid_antenna bm ant →
  Z.abs (a_x ant) ≤ 2 ^ 501 ∧ Z.abs (a_y ant) ≤ 2 ^ 501.
Proof.
  intros Hbox (Hne & blds & Hblds & _ & Hreach)%valid_antenna_fits.
  destruct blds as [|b blds].
  { apply lookup_all_length in Hblds. by destruct (a_buildings ant). }
  destruct (lookup_all_elem_of bm _ _ b Hblds ltac:(by left)) as (bid & _ & Hb).
  apply Hbox in Hb as [Hbx Hby]. apply Forall_cons in Hreach as [Hd _].
  assert (range_of (a_type ant) ^ 2 ≤ 400 * 400) as Hr
    by (by destruct (a_type ant)).
  assert (2 ^ 501 = 2 * 2 ^ 500) as -> by (by vm_compute).
  assert (400 ≤ 2 ^ 500) as Hbig by (by vm_compute).
  revert Hbig Hbx Hby. generalize (2 ^ 500). intros B Hbig Hbx Hby.
  unfold dist_sq in Hd. rewrite !Z.pow_2_r in Hd.
  pose proof (Z.square_nonneg (a_x ant - b_x b)).
  pose proof (Z.square_nonneg (a_y ant - b_y b)).
  assert (Z.abs (a_x ant - b_x b) ≤ 400) by nia.
  assert (Z.abs (a_y ant - b_y b) ≤ 400) by nia. lia.
Qed.

Lemma building_in_box bm bid b :
  within_box bm (2 ^ 500) → bm !! bid = Some b →
  Z.abs (b_x b) ≤ 2 ^ 501 ∧ Z.abs (b_y b) ≤ 2 ^ 501.
Proof.
  intros Hbox [Hx Hy]%Hbox.
  assert (2 ^ 500 ≤ 2 ^ 501) by (by vm_compute). lia.
Qed.

Lemma all_valid_within bm antennas :
  within_box bm (2 ^ 500) → all_valid bm antennas →
  antennas_within antennas (2 ^ 501).
Proof.
  intros Hbox Hv ant Hant. unfold all_valid in Hv. rewrite Forall_forall in Hv.
  apply (valid_antenna_in_box bm); [done|by apply Hv].
Qed.

Lemma move_targets_is_Some bm antennas src_idx src_ant bid b indices :
  ids_known bm antennas → src_ant ∈ antennas → bid ∈ a_buildings src_ant →
  antennas_within antennas (2 ^ 501) →
  Z.abs (b_x b) ≤ 2 ^ 501 ∧ Z.abs (b_y b) ≤ 2 ^ 501 →
  (∀ i, i ∈ indices → (i < length antennas)%nat) →
  is_Some (move_targets bm antennas src_idx src_ant bid b indices).
Proof.
  intros Hk Hsrc Hbid Hin [Hbx Hby]. induction indices as [|tgt_idx rest IH]; intros Hidx; simpl.
  { by eexists. }
  assert (is_Some (move_targets bm antennas src_idx src_ant bid b rest)) as Hrest.
  { apply IH. intros i Hi. apply Hidx. by right. }
  destruct (decide (tgt_idx = src_idx)); [done|].
  destruct (lookup_lt_is_Some_2 antennas tgt_idx) as [tgt_ant Htgt].
  { apply Hidx. by left. }
  rewrite Htgt. simpl.
  destruct (Hin tgt_ant ltac:(by eapply list_elem_of_lookup_2)) as [Hax Hay].
  destruct (dist_gt_is_Some (a_x tgt_ant) (a_y tgt_ant) (b_x b) (b_y b) 400
              Hax Hay Hbx Hby) as [far ->].
  simpl. destruct far; [done|].
  destruct (get_cheapest_valid_type_is_Some
              (set_buildings (a_buildings tgt_ant ++ [bid]) tgt_ant) bm)
    as [new_type ->].
  { simpl. intros i [Hi|Hi%list_elem_of_singleton]%elem_of_app.
    - eapply Hk; [by eapply list_elem_of_lookup_2|done].
    - subst i. by eapply Hk. }
  simpl. destruct new_type as [new_type|]; [|done].
  destruct (list_remove_first_is_Some bid (a_buildings src_ant) Hbid)
    as (src_bids & -> & Hsub).
  simpl.
  destruct (get_cheapest_valid_type_is_Some (set_buildings src_bids src_ant) bm)
    as [new_src_type ->].
  { simpl. intros i Hi. eapply Hk; [done|]. by apply Hsub. }
  simpl. destruct new_src_type; [by eexists|done].
Qed.

Lemma move_building_is_Some {G F} `{PyRandom G F} antennas bm (g : G) :
  randbelow_ok → shuffle_indices_ok → ids_known bm antennas →
  within_box bm (2 ^ 500) → antennas_within antennas (2 ^ 501) →
  is_Some (move_building antennas bm g).
Proof.
  intros Hrb Hsh Hk Hbox Hnear. unfold move_building.
  destruct (decide _); [by eexists|].
  destruct (indices_with_more_than 1 antennas) as [|i0 is0] eqn:Hmulti;
    [by eexists|].
  rewrite <- Hmulti.
  destruct (random_choice_is_Some (indices_with_more_than 1 antennas) g Hrb)
    as (src_idx & g1 & Hc & Hin); [by rewrite Hmulti|].
  eapply rbind_is_Some; [exact Hc|].
  apply elem_of_indices_with_more_than in Hin as (src_ant & Hsrc & Hlen).
  eapply rbind_is_Some; [by apply rlift_Some|].
  destruct (random_choice_is_Some (a_buildings src_ant) g1 Hrb)
    as (bid & g2 & Hc2 & Hbid);
    [intros Hnil; rewrite Hnil in Hlen; simpl in Hlen; lia|].
  eapply rbind_is_Some; [exact Hc2|].
  assert (src_ant ∈ antennas) as Hsrc' by (by eapply list_elem_of_lookup_2).
  destruct (Hk src_ant bid Hsrc' Hbid) as [b Hb].
  eapply rbind_is_Some; [by apply rlift_Some|].
  pose proof (Hsh (seq 0 (length antennas)) g2) as Hperm.
  destruct (random_shuffle (seq 0 (length antennas)) g2) as [indices g3] eqn:Hs.
  eapply rbind_is_Some; [by apply rdraw_Some|].
  destruct (move_targets_is_Some bm antennas src_idx src_ant bid b indices
              Hk Hsrc' Hbid Hnear (building_in_box bm bid b Hbox Hb)) as [r Hr].
  { intros i. simpl in Hperm. rewrite Hperm, elem_of_seq. lia. }
  exists (r, g3). by apply rlift_Some.
Qed.

Lemma sa_merge_pair_is_Some bm antennas i j :
  ids_known bm antennas → antennas_within antennas (2 ^ 501) →
  (i < length antennas)%nat → (j < length antennas)%nat →
  is_Some (sa_merge_pair bm antennas i j).
Proof.
  intros Hk Hin Hi Hj. unfold sa_merge_pair.
  destruct (lookup_lt_is_Some_2 antennas i Hi) as [a1 H1].
  destruct (lookup_lt_is_Some_2 antennas j Hj) as [a2 H2].
  rewrite H1, H2. simpl.
  destruct (Hin a1 ltac:(by eapply list_elem_of_lookup_2)) as [Hx1 Hy1].
  destruct (Hin a2 ltac:(by eapply list_elem_of_lookup_2)) as [Hx2 Hy2].
  destruct (dist_gt_is_Some (a_x a1) (a_y a1) (a_x a2) (a_y a2) 800
              Hx1 Hy1 Hx2 Hy2) as [far ->].
  simpl. destruct far; [by eexists|].
  destruct (proj2 (lookup_all_is_Some bm (a_buildings a1 ++ a_buildings a2)))
    as [blds ->]; [|by eexists].
  intros bid [Hb|Hb]%elem_of_app.
  - apply (Hk a1 bid); [by eapply list_elem_of_lookup_2|done].
  - apply (Hk a2 bid); [by eapply list_elem_of_lookup_2|done].
Qed.

Lemma sa_merge_pairs_is_Some bm antennas pairs :
  ids_known bm antennas → antennas_within antennas (2 ^ 501) →
  (∀ p, p ∈ pairs → (p.1 < length antennas)%nat ∧ (p.2 < length antennas)%nat) →
  is_Some (sa_merge_pairs bm antennas pairs).
Proof.
  intros Hk Hbox. induction pairs as [|[i j] pairs IH]; intros Hin; simpl; [by eexists|].
  assert (is_Some (sa_merge_pairs bm antennas pairs)) as Hrest.
  { apply IH. intros p Hp. apply Hin. by right. }
  destruct (decide (j ≤ i)%nat); [done|].
  destruct (Hin (i, j) ltac:(by left)) as [Hi Hj]. simpl in Hi, Hj.
  destruct (sa_merge_pair_is_Some bm antennas i j Hk Hbox Hi Hj) as [[r|] ->]; simpl;
    [by eexists|done].
Qed.

Lemma elem_of_take_l {A} (n : nat) (l : list A) x : x ∈ take n l → x ∈ l.
Proof. intros Hx. rewrite <- (take_drop n l). apply elem_of_app. by left. Qed.

Lemma merge_antennas_is_Some {G F} `{PyRandom G F} antennas bm (g : G) :
  shuffle_indices_ok → ids_known bm antennas →
  antennas_within antennas (2 ^ 501) →
  is_Some (merge_antennas antennas bm g).
Proof.
  intros Hsh Hk Hbox. unfold merge_antennas. destruct (decide _); [by eexists|].
  pose proof (Hsh (seq 0 (length antennas)) g) as Hperm.
  destruct (random_shuffle (seq 0 (length antennas)) g) as [indices g1] eqn:Hs.
  simpl in Hperm.
  eapply rbind_is_Some; [by apply rdraw_Some|].
  destruct (sa_merge_pairs_is_Some bm antennas
              (i ← take 20 indices; j ← take 20 indices; [(i, j)]) Hk Hbox)
    as [r Hr].
  { intros [i j] (i' & (j' & Hp%list_elem_of_singleton & Hj%elem_of_take_l)
                      %list_elem_of_bind & Hi%elem_of_take_l)%list_elem_of_bind.
    injection Hp as -> ->. simpl.
    rewrite Hperm in Hi, Hj. apply elem_of_seq in Hi, Hj. lia. }
  exists (r, g1). by apply rlift_Some.
Qed.

Lemma centroid_is_Some coord blds : blds ≠ [] → is_Some (centroid coord blds).
Proof.
  intros Hne. unfold centroid, floordiv.
  destruct (decide _) as [Hz|]; [|by eexists]. by destruct blds.
Qed.

Lemma split_antenna_is_Some {G F} `{PyRandom G F} antennas bm (g : G) :
  randbelow_ok → shuffle_ok → ids_known bm antennas →
  is_Some (split_antenna antennas bm g).
Proof.
  intros Hrb Hsh Hk. unfold split_antenna.
  destruct (indices_with_more_than 1 antennas) as [|i0 is0] eqn:Hmulti;
    [by eexists|].
  rewrite <- Hmulti.
  destruct (random_choice_is_Some (indices_with_more_than 1 antennas) g Hrb)
    as (idx & g1 & Hc & Hin); [by rewrite Hmulti|].
  eapply rbind_is_Some; [exact Hc|].
  apply elem_of_indices_with_more_than in Hin as (ant & Hant & Hlen).
  eapply rbind_is_Some; [by apply rlift_Some|].
  pose proof (Hsh (a_buildings ant) g1) as Hperm.
  destruct (random_shuffle (a_buildings ant) g1) as [bids g2] eqn:Hs.
  simpl in Hperm.
  eapply rbind_is_Some; [by apply rdraw_Some|].
  rewrite <- (Permutation_length Hperm) in Hlen.
  set (mid := if decide (length bids `div` 2 = 0)%nat then 1%nat
              else (length bids `div` 2)%nat).
  assert (1 ≤ mid < length bids)%nat as Hmid.
  { unfold mid. pose proof (Nat.div_lt (length bids) 2 ltac:(lia) ltac:(lia)).
    destruct (decide _); lia. }
  assert (∀ bid, bid ∈ bids → is_Some (bm !! bid)) as Hkb.
  { intros bid Hbid. rewrite Hperm in Hbid.
    eapply Hk; [by eapply list_elem_of_lookup_2|done]. }
  destruct (proj2 (lookup_all_is_Some bm (take mid bids))) as [blds1 H1].
  { intros bid Hb%elem_of_take_l. by apply Hkb. }
  destruct (proj2 (lookup_all_is_Some bm (drop mid bids))) as [blds2 H2].
  { intros bid Hb. apply Hkb. rewrite <- (take_drop mid bids).
    apply elem_of_app. by right. }
  eapply rbind_is_Some; [by apply rlift_Some|].
  eapply rbind_is_Some; [by apply rlift_Some|].
  assert (blds1 ≠ []) as Hne1.
  { apply lookup_all_length in H1. rewrite length_take in H1.
    intros ->. simpl in H1. lia. }
  assert (blds2 ≠ []) as Hne2.
  { apply lookup_all_length in H2. rewrite length_drop in H2.
    intros ->. simpl in H2. lia. }
  destruct (centroid_is_Some b_x blds1 Hne1) as [x1 Hx1].
  destruct (centroid_is_Some b_y blds1 Hne1) as [y1 Hy1].
  destruct (centroid_is_Some b_x blds2 Hne2) as [x2 Hx2].
  destruct (centroid_is_Some b_y blds2 Hne2) as [y2 Hy2].
  do 4 (eapply rbind_is_Some; [by apply rlift_Some|]).
  destruct (get_cheapest_valid_type_is_Some
              (mkAntenna Density x1 y1 (take mid bids)) bm) as [t1 Ht1].
  { simpl. intros bid Hb%elem_of_take_l. by apply Hkb. }
  destruct (get_cheapest_valid_type_is_Some
              (mkAntenna Density x2 y2 (drop mid bids)) bm) as [t2 Ht2].
  { simpl. intros bid Hb. apply Hkb. rewrite <- (take_drop mid bids).
    apply elem_of_app. by right. }
  do 2 (eapply rbind_is_Some; [by apply rlift_Some|]).
  destruct t1, t2; by eexists.
Qed.

Lemma relocate_antenna_is_Some {G F} `{PyRandom G F} antennas bm (g : G) :
  randbelow_ok → all_valid bm antennas →
  is_Some (relocate_antenna antennas bm g).
Proof.
  intros Hrb Hv. unfold relocate_antenna.
  destruct antennas as [|a0 antennas0] eqn:Hants; [by eexists|].
  rewrite <- Hants in *.
  assert (0 < length antennas)%nat as Hlen by (rewrite Hants; simpl; lia).
  clear Hants.
  pose proof (Hrb (length antennas) g Hlen) as Hlt.
  assert (∃ k g1, random_randint 0 (Z.of_nat (length antennas) - 1) g
                  = Some (Z.of_nat k, g1) ∧ (k < length antennas)%nat)
    as (k & g1 & Hrand & Hk).
  { unfold random_randint. destruct (decide _) as [|_]; [lia|].
    replace (Z.to_nat (Z.of_nat (length antennas) - 1 - 0 + 1))
      with (length antennas) by lia.
    destruct (randbelow (length antennas) g) as [k g1] eqn:Hr. simpl in Hlt.
    exists k, g1. split; [|done].
    apply rbind_Some. exists k, g1. split; [by apply rdraw_Some|].
    by apply rret_Some. }
  eapply rbind_is_Some; [exact Hrand|].
  rewrite Nat2Z.id.
  destruct (lookup_lt_is_Some_2 antennas k Hk) as [ant Hant].
  eapply rbind_is_Some; [by apply rlift_Some|].
  unfold all_valid in Hv. rewrite Forall_forall in Hv.
  assert (valid_antenna bm ant) as (Hne & blds & Hblds & _)%valid_antenna_fits
    by (by eapply Hv, list_elem_of_lookup_2).
  eapply rbind_is_Some; [by apply rlift_Some|].
  destruct (random_choice_is_Some blds g1 Hrb) as (b & g2 & Hc & _).
  { apply lookup_all_length in Hblds. intros ->.
    by destruct (a_buildings ant). }
  eapply rbind_is_Some; [exact Hc|].
  destruct (get_cheapest_valid_type_is_Some (set_position (b_x b) (b_y b) ant) bm)
    as [t Ht].
  { simpl. apply lookup_all_is_Some. by eexists. }
  eapply rbind_is_Some; [by apply rlift_Some|].
  destruct t; by eexists.
Qed.

Lemma moves_are_Some {G F} `{FloatOps F, PyRandom G F} (m : Move G)
    antennas bm (g : G) :
  randbelow_ok → shuffle_ok → shuffle_indices_ok → all_valid bm antennas →
  within_box bm (2 ^ 500) →
  m ∈ (moves (G := G) (F := F)).*1 → is_Some (m antennas bm g).
Proof.
  intros Hrb Hsh Hshi Hv Hbox Hm. pose proof (all_valid_ids_known _ _ Hv) as Hk.
  pose proof (all_valid_within _ _ Hbox Hv) as Hin.
  unfold moves in Hm. simpl in Hm.
  repeat (apply elem_of_cons in Hm as [->|Hm]).
  - by apply move_building_is_Some.
  - by apply merge_antennas_is_Some.
  - by apply split_antenna_is_Some.
  - by apply relocate_antenna_is_Some.
  - by apply elem_of_nil in Hm.
Qed.

Lemma try_all_moves_is_Some {G F} (ms : list (Move G * F)) antennas bm (g : G) :
  (∀ m (g : G), m ∈ ms.*1 → is_Some (m antennas bm g)) →
  is_Some (try_all_moves ms antennas bm g).
Proof.
  revert g. induction ms as [|[m p] ms IH]; intros g Hms; simpl; [by eexists|].
  destruct (Hms m g ltac:(by left)) as [[result g1] Hm].
  eapply rbind_is_Some; [exact Hm|].
  destruct (truthy result); [by eexists|].
  apply IH. intros m' g' Hm'. apply Hms. by right.
Qed.

Lemma random_neighbor_is_Some {G F} `{FloatOps F, PyRandom G F}
    antennas bm (g : G) :
  randbelow_ok → shuffle_ok → shuffle_indices_ok → all_valid bm antennas →
  within_box bm (2 ^ 500) →
  is_Some (random_neighbor antennas bm g).
Proof.
  intros Hrb Hsh Hshi Hv Hbox. unfold random_neighbor.
  destruct (random_random g) as [r g1] eqn:Hr.
  eapply rbind_is_Some; [by apply rdraw_Some|].
  assert (∀ m (g : G), m ∈ (moves (G := G) (F := F)).*1 →
                       is_Some (m antennas bm g)) as Hms
    by (intros; by apply moves_are_Some).
  destruct (pick_move r (f_of_Z 0) moves) as [m|] eqn:Hpick;
    [|by apply try_all_moves_is_Some].
  destruct (Hms m g1 ltac:(by eapply pick_move_elem_of)) as [[result g2] Hm].
  eapply rbind_is_Some; [exact Hm|].
  destruct (truthy result); [by eexists|by apply try_all_moves_is_Some].
Qed.

Lemma calculate_cost_bounds antennas :
  0 ≤ calculate_cost antennas ≤ 40000 * Z.of_nat (length antennas).
Proof.
  induction antennas as [|a antennas IH]; simpl; [lia|].
  fold (calculate_cost antennas). destruct (a_type a); simpl; lia.
Qed.

(** A valid solution has no more antennas than it serves ids. *)
Lemma all_valid_length bm antennas :
  all_valid bm antennas → (length antennas ≤ length (assigned antennas))%nat.
Proof.
  induction 1 as [|a antennas (Hne & _)%valid_antenna_fits _ IH]; [done|].
  rewrite assigned_cons, length_app. simpl.
  destruct (a_buildings a); [done|]. simpl. lia.
Qed.

(** The invariant of the loop under which an iteration does not raise. *)
Lemma sa_step_is_Some {G F} `{FloatOps F, PyRandom G F, FloatErrors F} bm
    (rate min_temp : F) (st : SAState F) (g : G) :
  randbelow_ok → shuffle_ok → shuffle_indices_ok →
  within_box bm (2 ^ 500) → acceptance_ok min_temp →
  f_lt min_temp (sa_temp st) = true →
  all_valid bm (sa_current st) → sa_consistent st →
  Z.of_nat (length (assigned (sa_current st))) < 2 ^ 63 →
  is_Some (sa_step bm rate st g).
Proof.
  intros Hrb Hsh Hshi Hbox Hacc Htemp Hv (_ & Hcost & _) Hlen. unfold sa_step.
  destruct (random_neighbor_is_Some (sa_current st) bm g Hrb Hsh Hshi Hv Hbox)
    as [[neighbor g1] Hn].
  eapply rbind_is_Some; [exact Hn|].
  destruct neighbor as [neighbor|]; [|by eexists].
  destruct (decide _) as [|Hup]; [by eexists|].
  destruct (random_random g1) as [r g2] eqn:Hr.
  eapply rbind_is_Some; [by apply rdraw_Some|].
  rewrite Hacc; [destruct (f_lt r _); by eexists| |done].
  split; [lia|].
  apply random_neighbor_keeps in Hn as [_ [Hperm Hvn]]; [|done].
  pose proof (all_valid_length bm neighbor (Hvn Hv)) as Hln.
  rewrite (Permutation_length Hperm) in Hln.
  pose proof (calculate_cost_bounds neighbor) as Hcn.
  pose proof (calculate_cost_bounds (sa_current st)) as Hcc.
  assert (40000 * 2 ^ 63 < 2 ^ 1023) as Hbig by (by vm_compute).
  revert Hbig. generalize (2 ^ 1023). intros top Hbig.
  assert (calculate_cost neighbor < top) by (cbn in Hlen; lia). lia.
Qed.

Lemma sa_step_current {G F} `{FloatOps F, PyRandom G F, FloatErrors F} bm (rate : F)
    (st st' : SAState F) (g g' : G) :
  shuffle_ok →
  sa_step bm rate st g = Some (st', g') →
  keeps_feasible bm (sa_current st) (sa_current st').
Proof.
  intros Hsh Hstep. unfold sa_step in Hstep.
  apply rbind_Some in Hstep as ([neighbor|] & g1 & Hn & Hstep).
  - apply random_neighbor_keeps in Hn as [_ Hn]; [|done].
    destruct (decide (calculate_cost neighbor - sa_current_cost st < 0)).
    + apply rret_Some in Hstep as [<- _]. unfold sa_record_best. simpl.
      by destruct (decide (calculate_cost neighbor < sa_best_cost st)).
    + apply rbind_Some in Hstep as (r & g2 & _ & Hstep).
      destruct (exp_div_raises _ _); [by apply rlift_Some in Hstep as [? _]|].
      by destruct (f_lt r _); apply rret_Some in Hstep as [<- _].
  - by apply rret_Some in Hstep as [<- _].
Qed.

Lemma sa_loop_is_Some {G F} `{FloatOps F, PyRandom G F, FloatErrors F} bm
    (rate min_temp : F) n :
  randbelow_ok → shuffle_ok → shuffle_indices_ok →
  within_box bm (2 ^ 500) → acceptance_ok min_temp →
  ∀ (st : SAState F) (g : G),
  all_valid bm (sa_current st) → sa_consistent st →
  Z.of_nat (length (assigned (sa_current st))) < 2 ^ 63 →
  is_Some (sa_loop n bm rate min_temp st g).
Proof.
  intros Hrb Hsh Hshi Hbox Hacc. induction n as [|n IH]; intros st g Hv Hst Hlen;
    simpl; [by eexists|].
  destruct (f_lt min_temp (sa_temp st)) eqn:Htemp; [|by eexists].
  destruct (sa_step_is_Some bm rate min_temp st g Hrb Hsh Hshi Hbox Hacc Htemp
              Hv Hst Hlen) as [[st1 g1] Hstep].
  eapply rbind_is_Some; [exact Hstep|].
  destruct (sa_step_current bm rate st st1 g g1 Hsh Hstep) as [Hperm Hv1].
  apply IH; [by apply Hv1|by eapply sa_step_consistent|].
  by rewrite (Permutation_length Hperm).
Qed.

Lemma integer_acceptance_ok :
  acceptance_ok (H := integer_floats) (H0 := integer_float_errors) 0.
Proof.
  intros delta temp _ Htemp. simpl in *. apply bool_decide_eq_false_2.
  apply Z.ltb_lt in Htemp. lia.
Qed.

Lemma village_within_box : within_box (mk_bmap village) (2 ^ 500).
Proof.
  intros bid b [Hb _]%mk_bmap_lookup_Some.
  assert (400 ≤ 2 ^ 500) as Hbig by (by vm_compute).
  revert Hbig. generalize (2 ^ 500). intros B Hbig. unfold village in Hb.
  repeat (apply elem_of_cons in Hb as [->|Hb]; [simpl; lia|]).
  by apply elem_of_nil in Hb.
Qed.

Lemma first_choice_randbelow_ok : randbelow_ok (H := first_choice_random).
Proof. intros n g Hn. exact Hn. Qed.

Lemma first_choice_shuffle_indices_ok : shuffle_indices_ok (H := first_choice_random).
Proof. by intros l g. Qed.

(** X23.  [simulated_annealing] does not raise when every antenna of the
    solution it is given passes [is_valid_antenna], the buildings lie within
    [2 ^ 500] of the origin, the solution serves fewer than [2 ^ 63] ids and
    the acceptance test does not raise above the minimum temperature, as
    with a minimum temperature of at least 0: every subscript, every
    [random.choice], every [list.remove], every division and every float
    conversion of the four moves is defined, at every iteration.  The
    generator is taken to draw indices below their bound and to permute
    what it shuffles. *)
Theorem simulated_annealing_returns {G F} `{FloatOps F, PyRandom G F, FloatErrors F}
    (antennas : list Antenna) (bm : gmap Z Building)
    (initial_temp cooling_rate min_temp : F) (max_iterations : Z) (g : G) :
  randbelow_ok → shuffle_ok → shuffle_indices_ok →
  all_valid bm antennas →
  within_box bm (2 ^ 500) →
  Z.of_nat (length (assigned antennas)) < 2 ^ 63 →
  acceptance_ok min_temp →
  is_Some (simulated_annealing antennas bm initial_temp cooling_rate min_temp
             max_iterations g).
Proof.
  intros Hrb Hsh Hshi Hv Hbox Hlen Hacc. unfold simulated_annealing.
  destruct (sa_loop_is_Some bm cooling_rate min_temp (Z.to_nat max_iterations)
              Hrb Hsh Hshi Hbox Hacc (sa_init antennas initial_temp) g Hv)
    as [[st g1] Hloop]; [by split_and!|done|].
  eapply rbind_is_Some; [exact Hloop|]. by eexists.
Qed.

Lemma simulated_annealing_returns_witness :
  is_Some (simulated_annealing (H := integer_floats) (H0 := first_choice_random)
             (H1 := integer_float_errors)
             village_solution (mk_bmap village) 100 1 0 3 tt).
Proof.
  apply (simulated_annealing_returns (H := integer_floats)
           (H0 := first_choice_random) (H1 := integer_float_errors)
           village_solution (mk_bmap village) 100 1 0 3 tt).
  - exact first_choice_randbelow_ok.
  - exact first_choice_shuffle_ok.
  - exact first_choice_shuffle_indices_ok.
  - repeat constructor; vm_compute; reflexivity.
  - exact village_within_box.
  - by vm_compute.
  - exact integer_acceptance_ok.
Defined.

(** ** Further facts on the grid, the validity check and the constructor *)

(** X24.  The grid built by [SpatialGrid.__init__] with a cell size other than 0
    keeps the cell size and the id map of the dataset, and every cell
    [(cx, cy)] lists, in dataset order, exactly the ids of the buildings
    with [x // cell_size = cx] and [y // cell_size = cy]; a cell without
    building reads as the empty list. *)
Theorem SpatialGrid_init_cells (buildings : list Building) (cs : Z) (g : SpatialGrid) :
  SpatialGrid_init buildings cs = Some g → cs ≠ 0 →
  cell_size g = cs ∧ bmap g = mk_bmap buildings ∧
  ∀ c, grid_get (grid g) c = b_id <$> filter (λ b, cell_of cs b = c) buildings.
Proof.
  unfold SpatialGrid_init. intros Hinit Hcs.
  destruct (grid_fold_cells cs buildings ∅ Hcs) as (g0 & Hg0 & Hget).
  rewrite Hg0 in Hinit. simpl in Hinit. injection Hinit as <-. simpl.
  split_and!; [done..|]. intros c. by rewrite Hget, grid_get_empty.
Qed.

Lemma SpatialGrid_init_cells_witness :
  cell_size (mkSpatialGrid 100
               {[ (0, 0) := [1; 2]; (4, 0) := [3] ]} (mk_bmap village)) = 100 ∧
  bmap (mkSpatialGrid 100
          {[ (0, 0) := [1; 2]; (4, 0) := [3] ]} (mk_bmap village)) = mk_bmap village ∧
  ∀ c, grid_get (grid (mkSpatialGrid 100
                         {[ (0, 0) := [1; 2]; (4, 0) := [3] ]} (mk_bmap village))) c
       = b_id <$> filter (λ b, cell_of 100 b = c) village.
Proof.
  apply (SpatialGrid_init_cells village 100); [|lia].
  vm_compute. reflexivity.
Defined.

(** X25.  What [is_valid_antenna] answers.  [True]: the antenna serves at least
    one building and its type fits its buildings in capacity and radius.
    [False]: it serves no building, or its type does not fit.  It raises
    exactly when it serves at least one building and one of its ids is
    missing from the id map; an antenna without building is never looked
    up. *)
Theorem is_valid_antenna_spec (ant : Antenna) (bm : gmap Z Building) :
  match is_valid_antenna ant bm with
  | Some true =>
      a_buildings ant ≠ [] ∧
      ∃ blds, lookup_all bm (a_buildings ant) = Some blds ∧
              type_fits (a_type ant) (a_x ant) (a_y ant) blds
  | Some false =>
      a_buildings ant = [] ∨
      ∃ blds, lookup_all bm (a_buildings ant) = Some blds ∧
              ¬ type_fits (a_type ant) (a_x ant) (a_y ant) blds
  | None =>
      a_buildings ant ≠ [] ∧ ∃ bid, bid ∈ a_buildings ant ∧ bm !! bid = None
  end.
Proof.
  destruct (is_valid_antenna ant bm) as [[|]|] eqn:Hv.
  - by apply valid_antenna_fits.
  - unfold is_valid_antenna in Hv.
    destruct (a_buildings ant) as [|bid bids] eqn:Hb; [by left|]. right.
    destruct (lookup_all bm (bid :: bids)) as [blds|] eqn:Hblds; [|done].
    exists blds. split; [done|]. simpl in Hv. intros [Hcap Hrange].
    destruct (decide _) as [|_]; [lia|].
    apply all_in_range_Forall in Hrange. congruence.
  - unfold is_valid_antenna in Hv.
    destruct (a_buildings ant) as [|bid bids] eqn:Hb; [done|]. split; [done|].
    destruct (lookup_all bm (bid :: bids)) as [blds|] eqn:Hblds.
    + simpl in Hv. by destruct (decide _).
    + by apply lookup_all_None.
Qed.

Lemma nonempty_length antennas :
  Forall (λ a, a_buildings a ≠ []) antennas →
  (length antennas ≤ length (assigned antennas))%nat.
Proof.
  induction 1 as [|a antennas Hne _ IH]; [done|].
  rewrite assigned_cons, length_app. simpl.
  destruct (a_buildings a); [done|]. simpl. lia.
Qed.

(** X26.  [solve_advanced] never returns an antenna without building, and never
    more antennas than the dataset has buildings. *)
Theorem solve_advanced_no_empty {G F} `{FloatOps F, PyRandom G F, SetOrder}
    (buildings : list Building) (g g' : G) (res : list Antenna) :
  set_order_ok →
  solve_advanced buildings g = Some (res, g') →
  Forall (λ a, a_buildings a ≠ []) res ∧ (length res ≤ length buildings)%nat.
Proof.
  intros Hord Hres.
  destruct (solve_advanced_shape buildings g g' res Hord Hres)
    as (first & more & -> & Hfirst & Hmore & Hnd & Hmem).
  assert (Forall (λ a, a_buildings a ≠ []) (first ++ more)) as Hne.
  { apply Forall_app. split.
    - eapply Forall_impl; [exact Hfirst|]. simpl. by intros a (b & _ & _ & ->).
    - eapply Forall_impl; [exact Hmore|]. simpl.
      by intros a [? _]%valid_antenna_fits. }
  split; [done|].
  etrans; [by apply nonempty_length|].
  rewrite <- (length_fmap b_id buildings).
  apply submseteq_length, NoDup_submseteq; [done|].
  intros i. apply Hmem.
Qed.

Lemma solve_advanced_no_empty_witness :
  Forall (λ a, a_buildings a ≠ [])
    [mkAntenna Nano 0 0 [1; 2]; mkAntenna Nano 400 0 [3]] ∧
  Nat.le (length [mkAntenna Nano 0 0 [1; 2]; mkAntenna Nano 400 0 [3]])
         (length village).
Proof.
  apply (solve_advanced_no_empty (H := integer_floats) (H0 := first_choice_random)
           (H1 := sorted_set_order) village tt tt).
  - exact sorted_set_order_ok.
  - vm_compute. reflexivity.
Defined.
